(** * WebRTC reliability demo: stop-and-wait session, file transfer, relay

    A shallow embedding of [client/src/App.jsx] (the [ReliabilityLayer]
    closure, the base64 helpers, the delivery callback and [sendFile]) and of
    [server/index.js] (the room relay), with the properties of the
    specification stated over it.

    Conventions of the embedding.
    - A JavaScript string is a [string]: the sequence of its code units, all
      below 256.  [s.length] is [String.length s].
    - A JavaScript number is an integer [Z] (sequence numbers, sizes, indices
      and counters, all far below 2^53); clock readings of
      [performance.now()] are rationals.
    - A [Uint8Array] is a [list Byte.byte].
    - Objects that the code shares and mutates (data channels, web sockets,
      pending timers) live in stores indexed by handles; a closure is the
      data it captured.
    - [JSON.stringify], [btoa], [atob], [ToString] and [new Array] are
      modelled on this domain; [JSON.parse] is a parameter of the functions
      that call it.
    - A function that can throw returns a [completion] next to the state it
      leaves behind.  [dc.send] throws on a channel that is not open; its
      other failures (a message above the size limit, a full buffer) are not
      modelled. *)

From Stdlib Require Import ZArith NArith Ascii String List Lia QArith Qround.
From Stdlib Require Import Zify ZifyNat ZifyN.
From stdpp Require Import base list gmap strings pretty.

Local Open Scope string_scope.
Local Open Scope list_scope.

(** Division and remainder by literals are handed to [lia]. *)
Ltac Zify.zify_post_hook ::= Z.to_euclidean_division_equations.

(** ** Base64: the platform's [btoa] and [atob]

    [btoa] is RFC 4648 base64 with padding; [atob] is the forgiving decoder
    of the HTML standard: ASCII whitespace is skipped, up to two trailing
    [=] are dropped when the length is a multiple of four, a length of
    1 modulo 4 or a character outside the alphabet throws, and left-over
    bits of the last group are discarded. *)
Module Base64.

Definition alphabet : list ascii :=
  list_ascii_of_string
    "ABCDEFGHIJKLMNOPQRSTUVWXYZabcdefghijklmnopqrstuvwxyz0123456789+/".

Definition pad_char : ascii := "="%char.

Definition char_of_sextet (n : N) : ascii :=
  nth (N.to_nat n) alphabet pad_char.

Fixpoint index_from (c : ascii) (l : list ascii) (i : N) : option N :=
  match l with
  | [] => None
  | x :: r => if Ascii.eqb c x then Some i else index_from c r (N.succ i)
  end.

Definition sextet_of_char (c : ascii) : option N := index_from c alphabet 0%N.

(** The 6-bit groups of a byte sequence, three bytes at a time. *)
Fixpoint sextets (l : list N) : list N :=
  match l with
  | [] => []
  | [a] =>
      let n := (a * 65536)%N in
      [(n / 262144)%N; ((n / 4096) mod 64)%N]
  | [a; b] =>
      let n := (a * 65536 + b * 256)%N in
      [(n / 262144)%N; ((n / 4096) mod 64)%N; ((n / 64) mod 64)%N]
  | a :: b :: c :: r =>
      let n := (a * 65536 + b * 256 + c)%N in
      [(n / 262144)%N; ((n / 4096) mod 64)%N; ((n / 64) mod 64)%N; (n mod 64)%N]
        ++ sextets r
  end.

Definition padding (len : nat) : list ascii :=
  repeat pad_char ((3 - len mod 3) mod 3).

Definition btoa_chars (codes : list N) : list ascii :=
  map char_of_sextet (sextets codes) ++ padding (length codes).

Definition btoa (binary : string) : string :=
  string_of_list_ascii
    (btoa_chars (map N_of_ascii (list_ascii_of_string binary))).

Definition is_ascii_whitespace (c : ascii) : bool :=
  let n := N_of_ascii c in
  (n =? 9)%N || (n =? 10)%N || (n =? 12)%N || (n =? 13)%N || (n =? 32)%N.

Definition strip_whitespace (l : list ascii) : list ascii :=
  List.filter (fun c => negb (is_ascii_whitespace c)) l.

Definition strip_padding (l : list ascii) : list ascii :=
  if (length l mod 4 =? 0)%nat then
    match rev l with
    | c1 :: c2 :: r =>
        if Ascii.eqb c1 pad_char then
          if Ascii.eqb c2 pad_char then rev r else rev (c2 :: r)
        else l
    | [c1] => if Ascii.eqb c1 pad_char then [] else l
    | [] => l
    end
  else l.

Fixpoint sextets_of_chars (l : list ascii) : option (list N) :=
  match l with
  | [] => Some []
  | c :: r =>
      match sextet_of_char c, sextets_of_chars r with
      | Some n, Some ns => Some (n :: ns)
      | _, _ => None
      end
  end.

(** Bytes of a sequence of 6-bit groups; a trailing group of 12 or 18 bits
    loses its last 4 or 2 bits. *)
Fixpoint octets (l : list N) : list N :=
  match l with
  | a :: b :: c :: d :: r =>
      let n := (((a * 64 + b) * 64 + c) * 64 + d)%N in
      [(n / 65536)%N; ((n / 256) mod 256)%N; (n mod 256)%N] ++ octets r
  | [a; b; c] =>
      let n := (((a * 64 + b) * 64 + c) / 4)%N in
      [(n / 256)%N; (n mod 256)%N]
  | [a; b] => [((a * 64 + b) / 16)%N]
  | _ => []
  end.

(** [None]: [atob] throws [InvalidCharacterError]. *)
Definition atob (data : string) : option string :=
  let chars := strip_padding (strip_whitespace (list_ascii_of_string data)) in
  if (length chars mod 4 =? 1)%nat then None
  else
    match sextets_of_chars chars with
    | None => None
    | Some ns => Some (string_of_list_ascii (map ascii_of_N (octets ns)))
    end.

(** A 6-bit group survives the trip through its character, which is
    neither white space nor the padding. *)
Definition sextet_ok (n : N) : bool :=
  negb (is_ascii_whitespace (char_of_sextet n))
  && negb (Ascii.eqb (char_of_sextet n) pad_char)
  && match sextet_of_char (char_of_sextet n) with
     | Some m => (m =? n)%N
     | None => false
     end.

(** A code unit of a binary string. *)
Definition octet (n : N) : Prop := (n < 256)%N.

End Base64.

(** ** JavaScript values that cross the wire *)

(** The values [JSON.parse] builds.  Numbers are the integers: every number
    the code computes with (sequence numbers, sizes, counts, indices) is
    one.  A number with a fraction, such as a [totalChunks] of 2.5, cannot
    be written and is outside the model; nothing below speaks for it. *)
#[warnings="-register-all"]
Inductive json : Type :=
| JNull
| JBool (b : bool)
| JNum (n : Z)
| JStr (s : string)
| JArr (items : list json)
| JObj (fields : list (string * json)).

Inductive Exn : Type :=
| TypeError
| RangeError
| InvalidCharacterError
| InvalidStateError.

(** How a call ends: it returns, or an exception leaves it. *)
Inductive completion : Type :=
| Normal
| Throw (e : Exn).

Fixpoint assoc (k : string) (fs : list (string * json)) : option json :=
  match fs with
  | [] => None
  | (k', v) :: r => if String.eqb k k' then Some v else assoc k r
  end.

(** [v.k] for the field names the code reads ([t], [seq], [payload], [kind],
    [type], [roomId], ...): [None] is [undefined].  Reading a field of
    [null] throws and is handled where it can happen. *)
Definition get (k : string) (v : json) : option json :=
  match v with
  | JObj fs => assoc k fs
  | _ => None
  end.

(** An object literal: fields whose value is [undefined] are kept by the
    object but dropped by [JSON.stringify], so they are dropped here. *)
Fixpoint object (fs : list (string * option json)) : list (string * json) :=
  match fs with
  | [] => []
  | (k, Some v) :: r => (k, v) :: object r
  | (_, None) :: r => object r
  end.

(** Truthiness of a property value. *)
Definition truthy (v : option json) : bool :=
  match v with
  | None | Some JNull => false
  | Some (JBool b) => b
  | Some (JNum n) => negb (n =? 0)%Z
  | Some (JStr s) => negb (String.eqb s EmptyString)
  | Some (JArr _) | Some (JObj _) => true
  end.

(** [typeof v === 'object'] after the falsy values are excluded. *)
Definition is_object (v : option json) : bool :=
  match v with
  | Some (JArr _) | Some (JObj _) => true
  | _ => false
  end.

(** [v === 'literal'] *)
Definition is_str (lit : string) (v : option json) : bool :=
  match v with
  | Some (JStr s) => String.eqb s lit
  | _ => false
  end.

Fixpoint join (sep : string) (l : list string) : string :=
  match l with
  | [] => ""
  | [x] => x
  | x :: r => x +:+ sep +:+ join sep r
  end.

(** *** [JSON.stringify] *)

Definition dquote : ascii := "034"%char.

Definition hex_digit (n : N) : ascii :=
  nth (N.to_nat n) (list_ascii_of_string "0123456789abcdef") "0"%char.

(** Rocq strings have no escapes: ["\b"] is a backslash followed by [b]. *)
Definition escape_char (c : ascii) : string :=
  let n := N_of_ascii c in
  if (n =? 34)%N then String "\"%char (String dquote "")
  else if (n =? 92)%N then "\\"
  else if (n =? 8)%N then "\b"
  else if (n =? 12)%N then "\f"
  else if (n =? 10)%N then "\n"
  else if (n =? 13)%N then "\r"
  else if (n =? 9)%N then "\t"
  else if (n <? 32)%N then
    "\u00" +:+ String (hex_digit (n / 16)) (String (hex_digit (n mod 16)) "")
  else String c "".

Fixpoint escape (s : string) : string :=
  match s with
  | EmptyString => ""
  | String c r => escape_char c +:+ escape r
  end.

Definition quote (s : string) : string :=
  String dquote (escape s +:+ String dquote "").

(** [JSON.stringify] on these values.  An integer is printed with all its
    digits, as JavaScript prints the integers below [10^21]; the numbers
    serialized here are unsigned 32-bit numbers and sizes. *)
Fixpoint JSON_stringify (v : json) : string :=
  match v with
  | JNull => "null"
  | JBool true => "true"
  | JBool false => "false"
  | JNum n => pretty n
  | JStr s => quote s
  | JArr items => "[" +:+ join "," (map JSON_stringify items) +:+ "]"
  | JObj fields =>
      "{" +:+ join ","
        (map (fun kv => match kv with
                        | (k, x) => quote k +:+ ":" +:+ JSON_stringify x
                        end) fields) +:+ "}"
  end.

(** *** [ToString], used where the code passes a value as a property key,
    to [atob] or to [Blob] *)
Fixpoint to_string (v : json) : string :=
  match v with
  | JNull => "null"
  | JBool true => "true"
  | JBool false => "false"
  | JNum n => pretty n
  | JStr s => s
  | JArr items =>
      join "," (map (fun x => match x with
                              | JNull => ""
                              | _ => to_string x
                              end) items)
  | JObj _ => "[object Object]"
  end.

Definition to_string_value (v : option json) : string :=
  match v with
  | None => "undefined"
  | Some x => to_string x
  end.

(** ** The reliability session: [ReliabilityLayer] *)

Inductive ReadyState : Type := Connecting | Open | Closing | Closed.

(** An [RTCDataChannel]: its [readyState] and the frames handed to
    [dc.send], oldest first. *)
Record Channel : Type := mkChannel {
  readyState : ReadyState;
  outbox : list string
}.

Record Stats : Type := mkStats {
  sent : Z;
  received : Z;
  acks : Z;
  retransmits : Z;
  rttMs : Z;
  bytesSent : Z;
  bytesReceived : Z
}.

(** What [update] hands to [onStats]: a copy of the counters and of the
    round-trip history. *)
Record Snapshot : Type := mkSnapshot {
  snap_stats : Stats;
  snap_rttHistory : list Z
}.

(** The two closures the code passes to [setTimeout]: the retransmission
    callback of [send], which captures [dc], [seq] and [payload], and the
    empty arrow function armed after a retransmission. *)
Inductive TimerCallback : Type :=
| Retransmit (dc : nat) (seq : Z) (payload : json)
| EmptyCallback.

Record Timer : Type := mkTimer {
  delay : Z;
  callback : TimerCallback
}.

(** The [state] object of the closure.  In [awaitingAckSeq] and
    [inflightPayload], [None] is the [null] the code itself stores.  [send]
    stores the payload as it was given, so a payload that is [null] is kept
    as [Some JNull]: [None] and [Some JNull] are the same JavaScript value,
    which [field_value] reads.  The code writes [inflightPayload] and never
    reads it. *)
Record State : Type := mkState {
  nextSeq : Z;
  awaitingAckSeq : option Z;
  inflightPayload : option json;
  inflightTimestamp : Q;
  timer : option nat;
  timeoutMs : Z;
  stats : Stats;
  rttHistory : list Z;
  rttHistoryMax : nat
}.

(** The session with everything it touches: the channels it was given, the
    timers that are pending, and the calls made to [onStats] and
    [onDeliver], oldest first. *)
Record World : Type := mkWorld {
  state : State;
  channels : gmap nat Channel;
  timers : gmap nat Timer;
  nextTimerId : nat;
  snapshots : list Snapshot;
  delivered : list (option json)
}.

Definition initial_stats : Stats := mkStats 0 0 0 0 0 0 0.

Definition initial_state : State :=
  {| nextSeq := 0;
     awaitingAckSeq := None;
     inflightPayload := None;
     inflightTimestamp := 0;
     timer := None;
     timeoutMs := 600;
     stats := initial_stats;
     rttHistory := [];
     rttHistoryMax := 40 |}.

Definition initial_world (chans : gmap nat Channel) : World :=
  {| state := initial_state;
     channels := chans;
     timers := ∅;
     nextTimerId := 1;
     snapshots := [];
     delivered := [] |}.

Definition with_state (f : State → State) (w : World) : World :=
  mkWorld (f (state w)) (channels w) (timers w) (nextTimerId w)
          (snapshots w) (delivered w).

Definition with_stats (f : Stats → Stats) (s : State) : State :=
  mkState (nextSeq s) (awaitingAckSeq s) (inflightPayload s)
          (inflightTimestamp s) (timer s) (timeoutMs s) (f (stats s))
          (rttHistory s) (rttHistoryMax s).

(** [update()] *)
Definition update (w : World) : World :=
  mkWorld (state w) (channels w) (timers w) (nextTimerId w)
          (snapshots w ++ [mkSnapshot (stats (state w)) (rttHistory (state w))])
          (delivered w).

Definition channel_open (dc : nat) (w : World) : bool :=
  match channels w !! dc with
  | Some ch => match readyState ch with Open => true | _ => false end
  | None => false
  end.

(** The frame joins the channel's outbox. *)
Definition push_frame (dc : nat) (frame : string) (w : World) : World :=
  mkWorld (state w)
    (alter (fun ch => mkChannel (readyState ch) (outbox ch ++ [frame])) dc
       (channels w))
    (timers w) (nextTimerId w) (snapshots w) (delivered w).

(** [dc.send(frame)]: an [RTCDataChannel] that is not open throws
    [InvalidStateError] ([None]); an open one takes the frame. *)
Definition dc_send (dc : nat) (frame : string) (w : World) : option World :=
  if channel_open dc w then Some (push_frame dc frame w) else None.

(** [state.timer = setTimeout(cb, ms)]: the handle is fresh. *)
Definition arm_timer (ms : Z) (cb : TimerCallback) (w : World) : World :=
  let id := nextTimerId w in
  let s := state w in
  mkWorld
    (mkState (nextSeq s) (awaitingAckSeq s) (inflightPayload s)
       (inflightTimestamp s) (Some id) (timeoutMs s) (stats s)
       (rttHistory s) (rttHistoryMax s))
    (channels w) (<[id := mkTimer ms cb]> (timers w)) (S id)
    (snapshots w) (delivered w).

(** [clearTimeout(state.timer)]; a handle that is [null], has fired or was
    cleared is ignored. *)
Definition clear_timer (w : World) : World :=
  match timer (state w) with
  | Some id =>
      mkWorld (state w) (channels w) (delete id (timers w)) (nextTimerId w)
              (snapshots w) (delivered w)
  | None => w
  end.

Definition data_frame (seq : Z) (payload : json) : json :=
  JObj [("t", JStr "data"); ("seq", JNum seq); ("payload", payload)].

Definition ack_frame (seq : option json) : json :=
  JObj (object [("t", Some (JStr "ack")); ("seq", seq)]).

(** [x >>> 0] *)
Definition to_uint32 (x : Z) : Z := x mod 2 ^ 32.

(** [send(dc, payload)]; [now] is the reading of [performance.now()].  The
    guard has established that the channel is open when [dc.send] runs. *)
Definition send (now : Q) (dc : option nat) (payload : json) (w : World)
  : World * bool :=
  match dc with
  | None => (w, false)
  | Some c =>
      if negb (channel_open c w) then (w, false)
      else
        match awaitingAckSeq (state w) with
        | Some _ => (w, false)
        | None =>
            let seq := nextSeq (state w) in
            let w1 :=
              with_state (fun s =>
                mkState (nextSeq s) (Some seq) (Some payload) now (timer s)
                        (timeoutMs s) (stats s) (rttHistory s)
                        (rttHistoryMax s)) w in
            let serialized := JSON_stringify (data_frame seq payload) in
            let w2 := push_frame c serialized w1 in
            let w3 :=
              with_state (with_stats (fun st =>
                mkStats (sent st + 1) (received st) (acks st)
                        (retransmits st) (rttMs st)
                        (bytesSent st + Z.of_nat (String.length serialized))
                        (bytesReceived st))) w2 in
            let w4 := update w3 in
            let w5 :=
              arm_timer (timeoutMs (state w4)) (Retransmit c seq payload) w4 in
            let w6 :=
              with_state (fun s =>
                mkState (to_uint32 (nextSeq s + 1)) (awaitingAckSeq s)
                        (inflightPayload s) (inflightTimestamp s)
                        (timer s) (timeoutMs s) (stats s) (rttHistory s)
                        (rttHistoryMax s)) w5 in
            (w6, true)
        end
  end.

(** The body of a timer callback. *)
Definition run_callback (cb : TimerCallback) (w : World)
  : World * completion :=
  match cb with
  | EmptyCallback => (w, Normal)
  | Retransmit dc seq payload =>
      match awaitingAckSeq (state w) with
      | Some a =>
          if (a =? seq)%Z then
            let retry := JSON_stringify (data_frame seq payload) in
            match dc_send dc retry w with
            | None => (w, Throw InvalidStateError)
            | Some w1 =>
                let w2 :=
                  with_state (with_stats (fun st =>
                    mkStats (sent st + 1) (received st) (acks st)
                            (retransmits st + 1) (rttMs st)
                            (bytesSent st + Z.of_nat (String.length retry))
                            (bytesReceived st))) w1 in
                let w3 := update w2 in
                let w4 := clear_timer w3 in
                (arm_timer (timeoutMs (state w4)) EmptyCallback w4, Normal)
            end
          else (w, Normal)
      | None => (w, Normal)
      end
  end.

(** Expiry of the timer [id]: a pending timer leaves the table and its
    callback runs; a handle that is not pending does nothing. *)
Definition fire (id : nat) (w : World) : World * completion :=
  match timers w !! id with
  | Some t =>
      run_callback (callback t)
        (mkWorld (state w) (channels w) (delete id (timers w))
                 (nextTimerId w) (snapshots w) (delivered w))
  | None => (w, Normal)
  end.

(** [Math.round] *)
Definition Math_round (x : Q) : Z := Qfloor (x + (1 # 2)).

(** [state.awaitingAckSeq === msg.seq]: a number equals the same number,
    [null] equals [null], and nothing else is equal. *)
Definition awaits (a : option Z) (seq : option json) : bool :=
  match a, seq with
  | Some n, Some (JNum m) => (n =? m)%Z
  | None, Some JNull => true
  | _, _ => false
  end.

(** [rttHistory.push(rtt)] followed by the [shift] when the length exceeds
    [rttHistoryMax]. *)
Definition push_rtt (rtt : Z) (max : nat) (h : list Z) : list Z :=
  let h' := h ++ [rtt] in
  if (max <? length h')%nat then tail h' else h'.

(** [handleIncoming] after [JSON.parse] returned [msg]; [len] is
    [raw.length].  The call of [onDeliver] is recorded in [delivered]; the
    completion is that of the statements of [handleIncoming] itself. *)
Definition handle_message (now : Q) (dc : nat) (len : nat) (msg : json)
    (w : World) : World * completion :=
  match msg with
  | JNull => (w, Throw TypeError)
  | _ =>
      if is_str "data" (get "t" msg) then
        let w1 :=
          with_state (with_stats (fun st =>
            mkStats (sent st) (received st + 1) (acks st) (retransmits st)
                    (rttMs st) (bytesSent st)
                    (bytesReceived st + Z.of_nat len))) w in
        let w2 := update w1 in
        match dc_send dc (JSON_stringify (ack_frame (get "seq" msg))) w2 with
        | None => (w2, Throw InvalidStateError)
        | Some w3 =>
            (mkWorld (state w3) (channels w3) (timers w3) (nextTimerId w3)
                     (snapshots w3) (delivered w3 ++ [get "payload" msg]),
             Normal)
        end
      else if is_str "ack" (get "t" msg) then
        if awaits (awaitingAckSeq (state w)) (get "seq" msg) then
          let rtt := Math_round (now - inflightTimestamp (state w)) in
          let w1 :=
            with_state (fun s =>
              mkState (nextSeq s) None None (inflightTimestamp s) (timer s)
                      (timeoutMs s)
                      (let st := stats s in
                       mkStats (sent st) (received st) (acks st + 1)
                               (retransmits st) rtt (bytesSent st)
                               (bytesReceived st))
                      (push_rtt rtt (rttHistoryMax s) (rttHistory s))
                      (rttHistoryMax s)) w in
          (update (clear_timer w1), Normal)
        else (w, Normal)
      else (w, Normal)
  end.

(** [handleIncoming(dc, raw)].  [JSON_parse] is the platform's parser:
    [None] when it throws, which the code catches and ignores. *)
Definition handleIncoming (JSON_parse : string → option json)
    (now : Q) (dc : nat) (raw : string) (w : World) : World * completion :=
  match JSON_parse raw with
  | None => (w, Normal)
  | Some msg => handle_message now dc (String.length raw) msg w
  end.

(** A parser that inverts [JSON_stringify] on the values of [table] and
    throws on every other text; it stands for [JSON.parse] in examples. *)
Definition parse_among (table : list json) (raw : string) : option json :=
  List.find (fun v => String.eqb raw (JSON_stringify v)) table.

(** What can happen to a session: the application calls [send], the
    transport delivers [raw] on a channel, a timer expires, or the
    environment changes the channels (they open and close, the transport
    drains them). *)
Inductive Event : Type :=
| EvSend (now : Q) (dc : option nat) (payload : json)
| EvIncoming (now : Q) (dc : nat) (raw : string)
| EvFire (id : nat)
| EvChannels (chans : gmap nat Channel).

Definition apply_event (JSON_parse : string → option json) (e : Event)
    (w : World) : World :=
  match e with
  | EvSend now dc payload => fst (send now dc payload w)
  | EvIncoming now dc raw => fst (handleIncoming JSON_parse now dc raw w)
  | EvFire id => fst (fire id w)
  | EvChannels chans =>
      mkWorld (state w) chans (timers w) (nextTimerId w) (snapshots w)
              (delivered w)
  end.

Definition run (JSON_parse : string → option json) (es : list Event)
    (w : World) : World :=
  fold_left (fun w e => apply_event JSON_parse e w) es w.

(** One round of the stop-and-wait exchange: a payload is sent at
    [sent_at] and the text [ack_raw] arrives at [acked_at]. *)
Record Round : Type := mkRound {
  round_payload : json;
  sent_at : Q;
  ack_raw : string;
  acked_at : Q
}.

(** [send] then [handleIncoming] for each round; the results of the
    [send] calls are collected. *)
Fixpoint exchange (JSON_parse : string → option json) (c : nat)
    (rounds : list Round) (w : World) : World * list bool :=
  match rounds with
  | [] => (w, [])
  | r :: rest =>
      let (w1, ok) := send (sent_at r) (Some c) (round_payload r) w in
      let (w2, _) := handleIncoming JSON_parse (acked_at r) c (ack_raw r) w1 in
      let (w3, oks) := exchange JSON_parse c rest w2 in
      (w3, ok :: oks)
  end.

(** ** The base64 helpers of [App.jsx] *)

(** [String.fromCharCode(b)] appended for each byte, then [btoa]. *)
Definition arrayBufferToBase64 (buffer : list Byte.byte) : string :=
  let binary :=
    fold_left (fun binary b => binary +:+ String (ascii_of_byte b) "")
              buffer "" in
  Base64.btoa binary.

(** [binary.charCodeAt(i)] stored in a [Uint8Array]; past the end the
    [NaN] is stored as 0. *)
Definition charCodeAt (binary : string) (i : nat) : Byte.byte :=
  match String.get i binary with
  | Some c => byte_of_ascii c
  | None => Byte.x00
  end.

(** [None]: [atob] throws. *)
Definition base64ToUint8Array (base64 : string) : option (list Byte.byte) :=
  match Base64.atob base64 with
  | None => None
  | Some binary =>
      let len := String.length binary in
      Some (map (charCodeAt binary) (seq 0 len))
  end.

(** ** The receiving side: the delivery callback of [App] *)

(** What a slot of [recvChunksRef.current] can hold. *)
Inductive jsval : Type :=
| VUndefined
| VJson (j : json)
| VBytes (bytes : list Byte.byte).

Record FileInfo : Type := mkFileInfo {
  info_name : option json;
  info_size : option json;
  info_type : option json
}.

Record Progress : Type := mkProgress {
  receivedChunks : nat;
  totalChunks : option json
}.

Record Blob : Type := mkBlob {
  blob_bytes : list Byte.byte;
  blob_type : string
}.

(** The state the callback reads and writes.  A slot of [recvChunks] is
    [None] for a hole of the array.  [download] is the blob behind
    [downloadUrl]. *)
Record Receiver : Type := mkReceiver {
  receivedText : string;
  recvFileInfo : option FileInfo;
  recvChunks : list (option jsval);
  recvProgress : Progress;
  download : option Blob
}.

Definition initial_receiver : Receiver :=
  {| receivedText := "";
     recvFileInfo := None;
     recvChunks := [];
     recvProgress := mkProgress 0 (Some (JNum 0));
     download := None |}.

(** [new Array(v)]: a number must be an unsigned 32-bit length, or
    [RangeError] ([None]) is thrown; any other value becomes the only
    element. *)
Definition new_Array (v : option json) : option (list (option jsval)) :=
  match v with
  | Some (JNum n) =>
      if (0 <=? n)%Z && (n <? 2 ^ 32)%Z
      then Some (replicate (Z.to_nat n) None)
      else None
  | Some j => Some [Some (VJson j)]
  | None => Some [Some VUndefined]
  end.

Fixpoint digits_value (acc : N) (s : string) : option N :=
  match s with
  | EmptyString => Some acc
  | String c r =>
      let n := N_of_ascii c in
      if (48 <=? n)%N && (n <=? 57)%N
      then digits_value (acc * 10 + (n - 48))%N r
      else None
  end.

(** A property key is an array index when it is the canonical decimal form
    of an integer below [2^32 - 1]. *)
Definition index_of_key (key : string) : option nat :=
  match key with
  | EmptyString => None
  | String c r =>
      if Ascii.eqb c "0"%char && negb (String.eqb r EmptyString) then None
      else
        match digits_value 0 key with
        | Some n => if (n <? 2 ^ 32 - 1)%N then Some (N.to_nat n) else None
        | None => None
        end
  end.

Definition array_index (key : option json) : option nat :=
  match key with
  | Some (JNum n) =>
      if (0 <=? n)%Z && (n <? 2 ^ 32 - 1)%Z then Some (Z.to_nat n) else None
  | _ => index_of_key (to_string_value key)
  end.

(** [arr[i] = v]: an index past the end extends the array with holes. *)
Definition array_set (i : nat) (v : jsval) (arr : list (option jsval))
  : list (option jsval) :=
  if (i <? length arr)%nat then <[i := Some v]> arr
  else arr ++ replicate (i - length arr) None ++ [Some v].

(** [arr[key] = v]: a key that is no array index names an ordinary
    property, which neither [length], [filter] nor [Blob] sees.  That is
    what JavaScript does for every key made from a number, and for every
    string that names no property an array already has.  The strings that
    do ([length], and [filter], [__proto__] and the other names an array
    inherits) are outside the model: the statements below take the index
    to be a number, as [sendFile] writes it. *)
Definition array_store (key : option json) (v : jsval)
    (arr : list (option jsval)) : list (option jsval) :=
  match array_index key with
  | Some i => array_set i v arr
  | None => arr
  end.

(** [arr.filter(Boolean).length]: holes are skipped, a [Uint8Array] is an
    object and so truthy. *)
Definition slot_truthy (x : option jsval) : bool :=
  match x with
  | Some (VBytes _) => true
  | Some (VJson j) => truthy (Some j)
  | Some VUndefined | None => false
  end.

Definition filter_Boolean_length (arr : list (option jsval)) : nat :=
  length (List.filter slot_truthy arr).

(** UTF-8 of a string whose code units are below 256. *)
Definition utf8_char (c : ascii) : list Byte.byte :=
  let n := N_of_ascii c in
  if (n <? 128)%N then [byte_of_ascii c]
  else [byte_of_ascii (ascii_of_N (192 + n / 64));
        byte_of_ascii (ascii_of_N (128 + n mod 64))].

Definition utf8 (s : string) : list Byte.byte :=
  concat (map utf8_char (list_ascii_of_string s)).

(** A part of [new Blob(parts)]: the bytes of a [Uint8Array]; anything else
    is converted to a string, a hole reading as [undefined]. *)
Definition blob_part (x : option jsval) : list Byte.byte :=
  match x with
  | Some (VBytes bytes) => bytes
  | Some (VJson j) => utf8 (to_string j)
  | Some VUndefined | None => utf8 "undefined"
  end.

Definition new_Blob (parts : list (option jsval)) (type : string) : Blob :=
  mkBlob (concat (map blob_part parts)) type.

(** The callback given to [ReliabilityLayer].  It is memoised once
    ([useMemo] with an empty dependency list), so the [recvFileInfo] and
    [downloadUrl] it reads are those of the first render, [null] and the
    empty string: the blob type is always the fallback and nothing is
    revoked. *)
Definition onDeliver (payload : option json) (r : Receiver)
  : Receiver * completion :=
  if negb (truthy payload) || negb (is_object payload) then (r, Normal)
  else
    let field k := match payload with Some p => get k p | None => None end in
    if is_str "text" (field "kind") then
      match field "text" with
      | Some (JStr text) =>
          (mkReceiver (receivedText r +:+ text) (recvFileInfo r)
                      (recvChunks r) (recvProgress r) (download r), Normal)
      | _ => (r, Normal)
      end
    else if is_str "file-meta" (field "kind") then
      let info := mkFileInfo (field "name") (field "size") (field "type") in
      match new_Array (field "totalChunks") with
      | None =>
          (mkReceiver (receivedText r) (Some info) (recvChunks r)
                      (recvProgress r) (download r), Throw RangeError)
      | Some arr =>
          (mkReceiver (receivedText r) (Some info) arr
                      (mkProgress 0 (field "totalChunks")) (download r),
           Normal)
      end
    else if is_str "file-chunk" (field "kind") then
      if (length (recvChunks r) =? 0)%nat then (r, Normal)
      else
        let idx := field "index" in
        match base64ToUint8Array (to_string_value (field "data")) with
        | None => (r, Throw InvalidCharacterError)
        | Some bytes =>
            let arr := array_store idx (VBytes bytes) (recvChunks r) in
            let receivedChunks := filter_Boolean_length arr in
            (mkReceiver (receivedText r) (recvFileInfo r) arr
                        (mkProgress receivedChunks
                                    (totalChunks (recvProgress r)))
                        (download r), Normal)
        end
    else if is_str "file-complete" (field "kind") then
      let parts := recvChunks r in
      if (length parts =? 0)%nat then (r, Normal)
      else
        let blob := new_Blob parts "application/octet-stream" in
        (mkReceiver (receivedText r) (recvFileInfo r) (recvChunks r)
                    (recvProgress r) (Some blob), Normal)
    else (r, Normal).

(** The callback applied to payloads in order; an exception leaves the
    handler of the message it came with and the next message is handled as
    usual. *)
Definition deliver_all (payloads : list json) (r : Receiver) : Receiver :=
  fold_left (fun r p => fst (onDeliver (Some p) r)) payloads r.

(** ** The sending side: [sendFile] *)

Record File : Type := mkFile {
  file_name : string;
  file_type : string;
  file_bytes : list Byte.byte
}.

Definition file_size (f : File) : nat := length (file_bytes f).

Definition CHUNK_SIZE : nat := 16 * 1024.

(** [Math.ceil(a / b)] for a positive [b]. *)
Definition Math_ceil_div (a b : nat) : nat :=
  if (a mod b =? 0)%nat then a / b else S (a / b).

(** [file.slice(start, end)] *)
Definition slice (start end_ : nat) (bytes : list Byte.byte)
  : list Byte.byte :=
  take (end_ - start) (drop start bytes).

Definition file_meta (f : File) (total : nat) : json :=
  JObj [("kind", JStr "file-meta"); ("name", JStr (file_name f));
        ("size", JNum (Z.of_nat (file_size f)));
        ("type", JStr (file_type f));
        ("totalChunks", JNum (Z.of_nat total))].

(** The body of the loop for index [i]. *)
Definition file_chunk (chunk : nat) (f : File) (i : nat) : json :=
  let start := i * chunk in
  let end_ := Nat.min (start + chunk) (file_size f) in
  let buf := slice start end_ (file_bytes f) in
  let b64 := arrayBufferToBase64 buf in
  JObj [("kind", JStr "file-chunk"); ("index", JNum (Z.of_nat i));
        ("data", JStr b64)].

Definition file_complete : json := JObj [("kind", JStr "file-complete")].

(** The payloads [sendFile] passes to [reliability.send], in order, for a
    chunk size [chunk]; [waitUntilSent] retries each one until [send]
    accepts it before the next is built. *)
Definition sendFile_with (chunk : nat) (f : File) : list json :=
  let total := Math_ceil_div (file_size f) chunk in
  file_meta f total
    :: map (file_chunk chunk f) (seq 0 total) ++ [file_complete].

Definition sendFile (f : File) : list json := sendFile_with CHUNK_SIZE f.

(** ** The signalling relay: [server/index.js] *)

(** A key of the [rooms] map.  [Map] compares keys by identity: a string,
    a number or [true] equals itself, while an array or object that
    [JSON.parse] built is a reference no other message can produce. *)
Inductive RoomKey : Type :=
| KeyStr (s : string)
| KeyNum (n : Z)
| KeyTrue
| KeyRef (r : nat).

#[global] Instance RoomKey_eq_dec : EqDecision RoomKey.
Proof. solve_decision. Defined.

Definition RoomKey_encode (k : RoomKey) : string + Z + unit + nat :=
  match k with
  | KeyStr s => inl (inl (inl s))
  | KeyNum n => inl (inl (inr n))
  | KeyTrue => inl (inr tt)
  | KeyRef r => inr r
  end.

Definition RoomKey_decode (x : string + Z + unit + nat) : RoomKey :=
  match x with
  | inl (inl (inl s)) => KeyStr s
  | inl (inl (inr n)) => KeyNum n
  | inl (inr _) => KeyTrue
  | inr r => KeyRef r
  end.

#[global] Instance RoomKey_countable : Countable RoomKey.
Proof.
  apply (inj_countable' RoomKey_encode RoomKey_decode).
  intros []; reflexivity.
Defined.

(** A web socket of the server: [readyState] (1 is open), the [_roomId]
    field and the texts handed to [send], oldest first. *)
Record Socket : Type := mkSocket {
  ws_readyState : Z;
  ws_roomId : option RoomKey;
  ws_sent : list string
}.

Record Server : Type := mkServer {
  rooms : gmap RoomKey (gset nat);
  sockets : gmap nat Socket;
  nextRef : nat
}.

(** The key a truthy [roomId] of the current message stands for; an array
    or object gets the next unused reference. *)
Definition room_key (sv : Server) (roomId : json) : RoomKey :=
  match roomId with
  | JStr s => KeyStr s
  | JNum n => KeyNum n
  | JArr _ | JObj _ => KeyRef (nextRef sv)
  | JBool _ | JNull => KeyTrue
  end.

(** [socket.send(text)] of the [ws] library on an established socket: the
    text is queued when the socket is open and dropped otherwise. *)
Definition ws_send (c : nat) (text : string) (sv : Server) : Server :=
  mkServer (rooms sv)
    (alter (fun k =>
              if (ws_readyState k =? 1)%Z
              then mkSocket (ws_readyState k) (ws_roomId k) (ws_sent k ++ [text])
              else k) c (sockets sv))
    (nextRef sv).

Definition getOrCreateRoom (key : RoomKey) (sv : Server) : Server :=
  match rooms sv !! key with
  | Some _ => sv
  | None => mkServer (<[key := ∅]> (rooms sv)) (sockets sv) (nextRef sv)
  end.

(** The loop [for (const client of room)] of the relay branch.  A [Set]
    holds each socket once; an iteration writes to its own client only, so
    the order in which the members are visited does not show in the
    result. *)
Definition relay_to (ws : nat) (text : string) (clients : list nat)
    (sv : Server) : Server :=
  fold_left
    (fun sv client =>
       match sockets sv !! client with
       | Some k =>
           if negb (Nat.eqb client ws) && (ws_readyState k =? 1)%Z
           then ws_send client text sv
           else sv
       | None => sv
       end) clients sv.

Definition is_relayed (type : option json) : bool :=
  is_str "offer" type || is_str "answer" type || is_str "candidate" type.

(** The [message] handler of the connection [ws]. *)
Definition on_message (JSON_parse : string → option json) (ws : nat)
    (raw : string) (sv : Server) : Server :=
  match JSON_parse raw with
  | None => sv
  | Some msg =>
      let type := get "type" msg in
      if is_str "join" type then
        match get "roomId" msg with
        | Some roomId =>
            if negb (truthy (Some roomId)) then sv
            else
              let key := room_key sv roomId in
              let sv1 := getOrCreateRoom key sv in
              let sv2 :=
                mkServer
                  (alter (fun room => room ∪ {[ws]}) key (rooms sv1))
                  (alter (fun k => mkSocket (ws_readyState k) (Some key)
                                            (ws_sent k)) ws (sockets sv1))
                  (S (nextRef sv1)) in
              ws_send ws
                (JSON_stringify
                   (JObj [("type", JStr "joined"); ("roomId", roomId)])) sv2
        | None => sv
        end
      else if is_relayed type then
        match get "roomId" msg with
        | Some roomId =>
            if negb (truthy (Some roomId)) then sv
            else
              match rooms sv !! room_key sv roomId with
              | Some room =>
                  relay_to ws (JSON_stringify msg) (elements room) sv
              | None => sv
              end
        | None => sv
        end
      else sv
  end.

(** The [close] handler of the connection [ws]. *)
Definition on_close (ws : nat) (sv : Server) : Server :=
  match sockets sv !! ws with
  | Some k =>
      match ws_roomId k with
      | Some key =>
          match rooms sv !! key with
          | Some room =>
              let room' := room ∖ {[ws]} in
              mkServer
                (if decide (size room' = 0)
                 then delete key (rooms sv)
                 else <[key := room']> (rooms sv))
                (sockets sv) (nextRef sv)
          | None => sv
          end
      | None => sv
      end
  | None => sv
  end.

(** ** Vocabulary of the statements *)

(** [dc && dc.readyState === 'open'] *)
Definition usable (dc : option nat) (w : World) : bool :=
  match dc with
  | Some c => channel_open c w
  | None => false
  end.

(** The frames handed to the channel [c] so far. *)
Definition frames_of (c : nat) (w : World) : list string :=
  match channels w !! c with
  | Some ch => outbox ch
  | None => []
  end.

(** [raw] decodes to an [Ack] frame for the number [seq]. *)
Definition is_ack_for (JSON_parse : string → option json) (raw : string)
    (seq : Z) : Prop :=
  ∃ msg, JSON_parse raw = Some msg
         ∧ is_str "ack" (get "t" msg) = true
         ∧ get "seq" msg = Some (JNum seq).

(** [raw] decodes to a [Data] frame. *)
Definition is_data (JSON_parse : string → option json) (raw : string)
    (msg : json) : Prop :=
  JSON_parse raw = Some msg ∧ is_str "data" (get "t" msg) = true.

(** The bytes of chunk [i] of a file. *)
Definition chunk_bytes (chunk : nat) (f : File) (i : nat) : list Byte.byte :=
  slice (i * chunk) (Nat.min (i * chunk + chunk) (file_size f)) (file_bytes f).

(** The slot buffer after the first [k] chunks of a transfer of [total]. *)
Definition slots_after (chunk : nat) (f : File) (total k : nat)
  : list (option jsval) :=
  map (fun i => Some (VBytes (chunk_bytes chunk f i))) (seq 0 k)
    ++ replicate (total - k) None.

(** The world [send] leaves when it accepts a payload. *)
Definition sent_world (now : Q) (c : nat) (payload : json) (w : World)
  : World :=
  let s := state w in
  let seq := nextSeq s in
  let frame := JSON_stringify (data_frame seq payload) in
  let st := stats s in
  let st' :=
    mkStats (sent st + 1) (received st) (acks st) (retransmits st) (rttMs st)
            (bytesSent st + Z.of_nat (String.length frame))
            (bytesReceived st) in
  mkWorld
    (mkState (to_uint32 (seq + 1)) (Some seq) (Some payload) now
             (Some (nextTimerId w)) (timeoutMs s) st' (rttHistory s)
             (rttHistoryMax s))
    (alter (fun ch => mkChannel (readyState ch) (outbox ch ++ [frame])) c
           (channels w))
    (<[nextTimerId w := mkTimer (timeoutMs s) (Retransmit c seq payload)]>
       (timers w))
    (S (nextTimerId w))
    (snapshots w ++ [mkSnapshot st' (rttHistory s)])
    (delivered w).

(** The world [handleIncoming] leaves when the awaited [Ack] arrives. *)
Definition acked_world (now : Q) (w : World) : World :=
  let s := state w in
  let st := stats s in
  let rtt := Math_round (now - inflightTimestamp s) in
  let st' :=
    mkStats (sent st) (received st) (acks st + 1) (retransmits st) rtt
            (bytesSent st) (bytesReceived st) in
  let h' := push_rtt rtt (rttHistoryMax s) (rttHistory s) in
  mkWorld
    (mkState (nextSeq s) None None (inflightTimestamp s) (timer s)
             (timeoutMs s) st' h' (rttHistoryMax s))
    (channels w)
    (match timer s with
     | Some id => delete id (timers w)
     | None => timers w
     end)
    (nextTimerId w)
    (snapshots w ++ [mkSnapshot st' h'])
    (delivered w).

(** The socket [k] after [text] was forwarded to it. *)
Definition forwarded (text : string) (k : Socket) : Socket :=
  mkSocket (ws_readyState k) (ws_roomId k) (ws_sent k ++ [text]).

(** ** Further vocabulary for the session *)

(** The world with the timer [id] no longer pending: how a callback finds
    it when that timer has just expired. *)
Definition without_timer (id : nat) (w : World) : World :=
  mkWorld (state w) (channels w) (delete id (timers w)) (nextTimerId w)
          (snapshots w) (delivered w).

(** The world the retransmission callback leaves when it runs in [w] with
    its number still awaited and its channel open. *)
Definition retransmitted_world (c : nat) (seq : Z) (payload : json)
    (w : World) : World :=
  let s := state w in
  let st := stats s in
  let retry := JSON_stringify (data_frame seq payload) in
  let st' :=
    mkStats (sent st + 1) (received st) (acks st) (retransmits st + 1)
            (rttMs st) (bytesSent st + Z.of_nat (String.length retry))
            (bytesReceived st) in
  mkWorld
    (mkState (nextSeq s) (awaitingAckSeq s) (inflightPayload s)
             (inflightTimestamp s) (Some (nextTimerId w)) (timeoutMs s) st'
             (rttHistory s) (rttHistoryMax s))
    (alter (fun ch => mkChannel (readyState ch) (outbox ch ++ [retry])) c
           (channels w))
    (<[nextTimerId w := mkTimer (timeoutMs s) EmptyCallback]>
       (match timer s with
        | Some id => delete id (timers w)
        | None => timers w
        end))
    (S (nextTimerId w))
    (snapshots w ++ [mkSnapshot st' (rttHistory s)])
    (delivered w).

(** The world after a [Data] text of length [len] was counted. *)
Definition counted_world (len : nat) (w : World) : World :=
  let s := state w in
  let st := stats s in
  let st' :=
    mkStats (sent st) (received st + 1) (acks st) (retransmits st) (rttMs st)
            (bytesSent st) (bytesReceived st + Z.of_nat len) in
  mkWorld
    (mkState (nextSeq s) (awaitingAckSeq s) (inflightPayload s)
             (inflightTimestamp s) (timer s) (timeoutMs s) st'
             (rttHistory s) (rttHistoryMax s))
    (channels w) (timers w) (nextTimerId w)
    (snapshots w ++ [mkSnapshot st' (rttHistory s)])
    (delivered w).

(** ... and after it was acknowledged with [ack] and delivered. *)
Definition received_world (dc : nat) (len : nat) (ack : string)
    (payload : option json) (w : World) : World :=
  let w1 := counted_world len w in
  mkWorld (state w1)
    (alter (fun ch => mkChannel (readyState ch) (outbox ch ++ [ack])) dc
           (channels w1))
    (timers w1) (nextTimerId w1) (snapshots w1) (delivered w1 ++ [payload]).

(** Sends that [send] accepted: every transmission that is not a
    retransmission. *)
Definition accepted (w : World) : Z :=
  sent (stats (state w)) - retransmits (stats (state w)).

(** 1 while a message is in flight, 0 while the sender is idle. *)
Definition in_flight (w : World) : Z :=
  match awaitingAckSeq (state w) with Some _ => 1 | None => 0 end.

Definition is_retransmit (cb : TimerCallback) : bool :=
  match cb with Retransmit _ _ _ => true | EmptyCallback => false end.

(** 1 while the timer named by [state.timer] is pending with the
    retransmission callback. *)
Definition retransmission_armed (w : World) : Z :=
  match timer (state w) with
  | Some id =>
      match timers w !! id with
      | Some t => if is_retransmit (callback t) then 1 else 0
      | None => 0
      end
  | None => 0
  end.

(** What holds of a session in every world it can reach. *)
Record session_inv (w : World) : Prop := mkSessionInv {
  inv_timers :
    timers w = ∅
    ∨ ∃ id t, timer (state w) = Some id ∧ timers w = {[ id := t ]};
  inv_idle : awaitingAckSeq (state w) = None → timers w = ∅;
  inv_armed :
    ∀ id d c seq payload,
      timers w !! id = Some (mkTimer d (Retransmit c seq payload)) →
      awaitingAckSeq (state w) = Some seq
      ∧ inflightPayload (state w) = Some payload;
  inv_payload :
    awaitingAckSeq (state w) = None → inflightPayload (state w) = None;
  inv_seq : (0 ≤ nextSeq (state w) < 2 ^ 32)%Z;
  inv_awaited :
    ∀ seq, awaitingAckSeq (state w) = Some seq →
           (0 ≤ seq < 2 ^ 32)%Z
           ∧ nextSeq (state w) = ((seq + 1) mod 2 ^ 32)%Z;
  inv_counters :
    (0 ≤ retransmits (stats (state w))
     ∧ 0 ≤ acks (stats (state w))
     ∧ 0 ≤ received (stats (state w))
     ∧ 0 ≤ bytesSent (stats (state w))
     ∧ 0 ≤ bytesReceived (stats (state w)))%Z;
  inv_once :
    (retransmits (stats (state w)) + retransmission_armed w ≤ accepted w)%Z;
  inv_window : (accepted w ≤ acks (stats (state w)) + in_flight w)%Z;
  inv_observer :
    match last (snapshots w) with
    | Some snap =>
        snap = mkSnapshot (stats (state w)) (rttHistory (state w))
    | None =>
        stats (state w) = initial_stats ∧ rttHistory (state w) = []
    end
}.

(** A pause of [waitUntilSent]: what happens to the session during the 10 ms
    before the next tick, and the clock reading at that tick. *)
Record Pause : Type := mkPause {
  meanwhile : list Event;
  next_tick : Q
}.

(** [waitUntilSent(() => reliability.send(dc, payload))].  [tick] calls
    [send]; when [send] refuses, [tick] is scheduled again after a pause.
    [waits] lists the pauses that are observed: the result is [true] when a
    tick was accepted (the promise is resolved) and [false] when the
    promise is still pending after the last of them. *)
Fixpoint waitUntilSent (JSON_parse : string → option json) (dc : option nat)
    (payload : json) (now : Q) (waits : list Pause) (w : World)
  : World * bool :=
  let (w1, ok) := send now dc payload w in
  if ok then (w1, true)
  else
    match waits with
    | [] => (w1, false)
    | p :: rest =>
        waitUntilSent JSON_parse dc payload (next_tick p) rest
          (run JSON_parse (meanwhile p) w1)
    end.

Definition is_send (e : Event) : bool :=
  match e with EvSend _ _ _ => true | _ => false end.

(** No pause holds a call of [send] by someone else. *)
Definition quiet (waits : list Pause) : Prop :=
  Forall (fun p => forallb (fun e => negb (is_send e)) (meanwhile p) = true)
         waits.

(** ** Two sessions joined by a channel that loses nothing *)

(** The frame most recently handed to the channel [c]. *)
Definition last_frame (c : nat) (w : World) : string :=
  default EmptyString (last (frames_of c w)).

(** One payload and the clock readings at which it is sent, received and
    acknowledged. *)
Record Hop : Type := mkHop {
  hop_payload : json;
  hop_sent : Q;
  hop_received : Q;
  hop_acked : Q
}.

(** The sender [ws] sends the payload on its channel [cs]; the frame it
    wrote reaches the receiver [wr] on its channel [cr]; the frame the
    receiver wrote in answer reaches the sender. *)
Definition carry (JSON_parse : string → option json) (cs cr : nat) (h : Hop)
    (ww : World * World) : World * World :=
  let (ws, wr) := ww in
  let ws1 := fst (send (hop_sent h) (Some cs) (hop_payload h) ws) in
  let wr1 :=
    fst (handleIncoming JSON_parse (hop_received h) cr (last_frame cs ws1)
                        wr) in
  let ws2 :=
    fst (handleIncoming JSON_parse (hop_acked h) cs (last_frame cr wr1)
                        ws1) in
  (ws2, wr1).

Definition carry_all (JSON_parse : string → option json) (cs cr : nat)
    (hops : list Hop) (ww : World * World) : World * World :=
  fold_left (fun ww h => carry JSON_parse cs cr h ww) hops ww.

(** The callback applied to the payloads a session delivered. *)
Definition replay (log : list (option json)) (r : Receiver) : Receiver :=
  fold_left (fun r p => fst (onDeliver p r)) log r.

(** [JSON_parse] reads back the [Data] and [Ack] frames of the hops, numbered
    from [k]. *)
Definition reads_back (JSON_parse : string → option json) (k : nat)
    (hops : list Hop) : Prop :=
  ∀ i h, hops !! i = Some h →
    let seq := to_uint32 (Z.of_nat (k + i)) in
    JSON_parse (JSON_stringify (data_frame seq (hop_payload h)))
    = Some (data_frame seq (hop_payload h))
    ∧ JSON_parse (JSON_stringify (ack_frame (Some (JNum seq))))
      = Some (ack_frame (Some (JNum seq))).

(** ** Further vocabulary for the receiver *)

(** The slot buffer of a transfer of [total] chunks in which the chunks
    with the indices of [got] have arrived. *)
Definition slots_of (chunk : nat) (f : File) (total : nat) (got : list nat)
  : list (option jsval) :=
  map (fun i => if bool_decide (i ∈ got)
                then Some (VBytes (chunk_bytes chunk f i)) else None)
      (seq 0 total).

(** The object [sendMessage] sends. *)
Definition text_message (text : string) : json :=
  JObj [("kind", JStr "text"); ("text", JStr text)].

(** The bytes a hole of the slot buffer contributes to a blob. *)
Definition undefined_text : list Byte.byte := utf8 "undefined".

(** The payloads of a transfer whose chunks arrive in the order [order]. *)
Definition transfer_in (chunk : nat) (f : File) (order : list nat)
  : list json :=
  file_meta f (Math_ceil_div (file_size f) chunk)
    :: map (file_chunk chunk f) order ++ [file_complete].

(** What [file-meta] leaves in [recvFileInfo]. *)
Definition info_of (f : File) : FileInfo :=
  mkFileInfo (Some (JStr (file_name f)))
             (Some (JNum (Z.of_nat (file_size f))))
             (Some (JStr (file_type f))).

(** The number of indices below [total] that occur in [got]. *)
Definition arrived (total : nat) (got : list nat) : nat :=
  length (List.filter (fun i => bool_decide (i ∈ got)) (seq 0 total)).

(** The bytes of a blob built while the chunks of [got] had arrived. *)
Definition patched_bytes (chunk : nat) (f : File) (total : nat)
    (got : list nat) : list Byte.byte :=
  concat (map (fun i => if bool_decide (i ∈ got)
                        then chunk_bytes chunk f i else undefined_text)
              (seq 0 total)).

(** ** Further vocabulary for the relay *)

(** [wss.on('connection', ...)] for a new socket [ws]: the library hands
    over an open socket, the handler sets [_roomId] to [null]. *)
Definition on_connection (ws : nat) (sv : Server) : Server :=
  mkServer (rooms sv) (<[ws := mkSocket 1 None []]> (sockets sv))
           (nextRef sv).

(** The reply to a [join]. *)
Definition joined_reply (roomId : json) : string :=
  JSON_stringify (JObj [("type", JStr "joined"); ("roomId", roomId)]).

(** The socket after its [join] was handled. *)
Definition joined_socket (key : RoomKey) (reply : string) (k : Socket)
  : Socket :=
  mkSocket (ws_readyState k) (Some key)
           (if (ws_readyState k =? 1)%Z then ws_sent k ++ [reply]
            else ws_sent k).

(** The room a socket's [_roomId] names. *)
Definition room_of (ws : nat) (sv : Server) : option RoomKey :=
  sockets sv !! ws ≫= ws_roomId.

(** What is left of a room when [ws] leaves it: [None] when the room is
    deleted. *)
Definition left_room (ws : nat) (room : gset nat) : option (gset nat) :=
  if decide (size (room ∖ {[ws]}) = 0%nat) then None
  else Some (room ∖ {[ws]}).

(** What happens at the server.  A connection brings a socket that is not
    yet known; the library emits [message] and [close] on sockets whose
    handlers were registered by a connection, [close] once and no
    [message] after it; a socket is [CLOSING] (2) for a while before it is
    [CLOSED] (3), which it is when [close] is emitted. *)
Inductive ServerEvent : Type :=
| SvConnection (ws : nat)
| SvMessage (ws : nat) (raw : string)
| SvClosing (ws : nat)
| SvClose (ws : nat).

Definition set_readyState (rs : Z) (k : Socket) : Socket :=
  mkSocket rs (ws_roomId k) (ws_sent k).

Definition apply_server_event (JSON_parse : string → option json)
    (e : ServerEvent) (sv : Server) : Server :=
  match e with
  | SvConnection ws =>
      match sockets sv !! ws with
      | Some _ => sv
      | None => on_connection ws sv
      end
  | SvMessage ws raw =>
      match sockets sv !! ws with
      | Some k =>
          if (ws_readyState k =? 3)%Z then sv
          else on_message JSON_parse ws raw sv
      | None => sv
      end
  | SvClosing ws =>
      mkServer (rooms sv)
        (alter (fun k => if (ws_readyState k =? 1)%Z
                         then set_readyState 2 k else k) ws (sockets sv))
        (nextRef sv)
  | SvClose ws =>
      match sockets sv !! ws with
      | Some k =>
          if (ws_readyState k =? 3)%Z then sv
          else
            on_close ws
              (mkServer (rooms sv)
                        (<[ws := set_readyState 3 k]> (sockets sv))
                        (nextRef sv))
      | None => sv
      end
  end.

Definition server_run (JSON_parse : string → option json)
    (es : list ServerEvent) (sv : Server) : Server :=
  fold_left (fun sv e => apply_server_event JSON_parse e sv) es sv.

(** The server when it starts: no room, no socket. *)
Definition empty_server : Server := mkServer ∅ ∅ 0.

(** The texts the server writes: the reply to a [join], or a message it
    relays. *)
Definition server_text (text : string) : Prop :=
  (∃ roomId, truthy (Some roomId) = true ∧ text = joined_reply roomId)
  ∨ (∃ msg, is_relayed (get "type" msg) = true ∧ text = JSON_stringify msg).

(** What holds of the server in every state it can reach. *)
Record server_inv (sv : Server) : Prop := mkServerInv {
  sv_nonempty : ∀ key room, rooms sv !! key = Some room → room ≠ ∅;
  sv_members :
    ∀ key room ws, rooms sv !! key = Some room → ws ∈ room →
                   is_Some (sockets sv !! ws);
  sv_refs :
    ∀ r room, rooms sv !! KeyRef r = Some room → (r < nextRef sv)%nat;
  sv_current :
    ∀ ws k key, sockets sv !! ws = Some k → ws_roomId k = Some key →
                ws_readyState k ≠ 3%Z →
                ∃ room, rooms sv !! key = Some room ∧ ws ∈ room;
  sv_texts :
    ∀ ws k text, sockets sv !! ws = Some k → text ∈ ws_sent k →
                 server_text text
}.

(** [ws], closed, is still a member of the room [key], which its
    [_roomId] does not name. *)
Definition stale_member (ws : nat) (key : RoomKey) (sv : Server) : Prop :=
  (∃ k, sockets sv !! ws = Some k ∧ ws_readyState k = 3%Z
        ∧ ws_roomId k ≠ Some key)
  ∧ ∃ room, rooms sv !! key = Some room ∧ ws ∈ room.

(** A [roomId] that is an array or an object. *)
Definition is_reference (roomId : json) : bool :=
  match roomId with
  | JArr _ | JObj _ => true
  | _ => false
  end.

(** The listener [useSignaling.onMessage] installs, for the room name
    [roomId] of the component: the message it hands to the handler, or
    [None] when it returns without calling it.  What [JSON.parse] or the
    reading of [roomId] from [null] throws is caught. *)
Definition signaling_listener (JSON_parse : string → option json)
    (roomId : string) (data : string) : option json :=
  match JSON_parse data with
  | None => None
  | Some JNull => None
  | Some msg => if is_str roomId (get "roomId" msg) then Some msg else None
  end.

(** [send] of [useSignaling]: the text written to the socket, if any;
    [readyState] is [None] while [wsRef.current] is [null]. *)
Definition signaling_send (readyState : option Z) (msg : json)
  : option string :=
  match readyState with
  | Some 1%Z => Some (JSON_stringify msg)
  | _ => None
  end.

(** The JavaScript value of a field that holds [null] or a value. *)
Definition field_value (v : option json) : json := default JNull v.

(** ** Concrete inputs for the examples *)

(** One open data channel, handle 0, nothing sent on it yet. *)
Definition one_open_channel : gmap nat Channel :=
  {[ 0%nat := mkChannel Open [] ]}.

Definition fresh_world : World := initial_world one_open_channel.

Definition hello : json := JObj [("kind", JStr "text"); ("text", JStr "Hello")].

Definition ack0 : json := ack_frame (Some (JNum 0)).
Definition ack1 : json := ack_frame (Some (JNum 1)).

Definition offer : json :=
  JObj [("type", JStr "offer"); ("roomId", JStr "room-A"); ("sdp", JStr "v=0")].

Definition join_room_A : json :=
  JObj [("type", JStr "join"); ("roomId", JStr "room-A")].

Definition demo_parse : string → option json :=
  parse_among [ack0; ack1; data_frame 7 hello; offer; join_room_A].

(** The session after [hello] was accepted at time 0: sequence number 0 is
    awaited and timer 1 is pending. *)
Definition busy_world : World := fst (send 0 (Some 0%nat) hello fresh_world).

Definition two_rounds : list Round :=
  [mkRound hello 0 (JSON_stringify ack0) 12;
   mkRound file_complete 20 (JSON_stringify ack1) 31].

Definition octet_stream : string := "application/octet-stream".

Definition empty_file : File := mkFile "empty.bin" octet_stream [].

Definition abc_file : File :=
  mkFile "abc.txt" "text/plain" [Byte.x41; Byte.x42; Byte.x43].

Definition file_40000 : File :=
  mkFile "zeros.bin" octet_stream (repeat Byte.x00 (Z.to_nat 40000)).

(** A [file-meta] announcing two chunks, and a [file-chunk] for the index
    [i] whose data decodes to the three bytes of ABC. *)
Definition meta_of_two : json :=
  JObj [("kind", JStr "file-meta"); ("name", JStr "two.bin");
        ("size", JNum 6); ("type", JStr octet_stream);
        ("totalChunks", JNum 2)].

Definition chunk_at (i : Z) : json :=
  JObj [("kind", JStr "file-chunk"); ("index", JNum i); ("data", JStr "QUJD")].

(** Three open sockets, no room yet. *)
Definition three_sockets : Server :=
  {| rooms := ∅;
     sockets :=
       {[ 1%nat := mkSocket 1 None [];
          2%nat := mkSocket 1 None [];
          3%nat := mkSocket 1 None [] ]};
     nextRef := 0 |}.

(** Sockets 1 and 2 are open and in room [room-A]; socket 3 is open and in
    no room. *)
Definition room_A : Server :=
  {| rooms := {[ KeyStr "room-A" := {[ 1%nat; 2%nat ]} ]};
     sockets :=
       {[ 1%nat := mkSocket 1 (Some (KeyStr "room-A")) [];
          2%nat := mkSocket 1 (Some (KeyStr "room-A")) [];
          3%nat := mkSocket 1 None [] ]};
     nextRef := 0 |}.

(** ** Further concrete inputs *)

(** An [Ack] frame whose [seq] is [null], and a parser that knows it. *)
Definition null_ack : json := ack_frame (Some JNull).

Definition parse_null_ack : string → option json := parse_among [null_ack].

(** The frames of hops numbered from [k], and a parser that knows them. *)
Definition hop_frames (k : nat) (hops : list Hop) : list json :=
  concat (imap (fun i h =>
                  let seq := to_uint32 (Z.of_nat (k + i)) in
                  [data_frame seq (hop_payload h);
                   ack_frame (Some (JNum seq))]) hops).

Definition parse_hops (k : nat) (hops : list Hop) : string → option json :=
  parse_among (hop_frames k hops).

(** [hello] sent at time 0, received at 1, acknowledged at 2, and once
    more. *)
Definition hello_hops : list Hop := [mkHop hello 0 1 2; mkHop hello 3 4 5].

(** The payloads of [abc_file] in chunks of two bytes, one hop each. *)
Definition abc_hops : list Hop :=
  map (fun p => mkHop p 0 1 2) (sendFile_with 2 abc_file).


(** A [join] whose [roomId] is an array, a [join] of [room-B], and parsers
    that know them. *)
Definition join_private : json :=
  JObj [("type", JStr "join"); ("roomId", JArr [JNum 1])].

Definition join_room_B : json :=
  JObj [("type", JStr "join"); ("roomId", JStr "room-B")].

Definition parse_joins : string → option json :=
  parse_among [join_room_A; join_room_B; join_private].

(** * Properties *)

(** ** The session *)

Section Session.

Context (JSON_parse : string → option json).

Lemma frames_of_channels c w w' :
  channels w = channels w' → frames_of c w = frames_of c w'.
Proof. unfold frames_of. intros ->. reflexivity. Qed.

Lemma channel_open_channels c w w' :
  channels w = channels w' → channel_open c w = channel_open c w'.
Proof. unfold channel_open. intros ->. reflexivity. Qed.

Lemma channel_open_push c c' frame w :
  channel_open c (push_frame c' frame w) = channel_open c w.
Proof.
  unfold channel_open, push_frame; simpl.
  destruct (decide (c' = c)) as [->|Hne].
  - rewrite lookup_alter_eq. destruct (channels w !! c); reflexivity.
  - rewrite lookup_alter_ne by done. reflexivity.
Qed.

Lemma frames_of_push c c' frame w :
  channel_open c' w = true →
  frames_of c (push_frame c' frame w)
  = if decide (c = c') then frames_of c w ++ [frame] else frames_of c w.
Proof.
  unfold channel_open, frames_of, push_frame; simpl. intros Hopen.
  destruct (decide (c = c')) as [->|Hne].
  - rewrite lookup_alter_eq. destruct (channels w !! c'); [reflexivity|discriminate].
  - rewrite lookup_alter_ne by done. reflexivity.
Qed.

(** The fields of the two frames. *)
Lemma data_frame_fields (seq : Z) (payload : json) :
  get "t" (data_frame seq payload) = Some (JStr "data")
  ∧ get "seq" (data_frame seq payload) = Some (JNum seq)
  ∧ get "payload" (data_frame seq payload) = Some payload
  ∧ ∀ k, k ≠ "t" → k ≠ "seq" → k ≠ "payload" →
         get k (data_frame seq payload) = None.
Proof.
  repeat split; try reflexivity. intros k Ht Hs Hp. cbn.
  apply String.eqb_neq in Ht, Hs, Hp. by rewrite Ht, Hs, Hp.
Qed.

Lemma ack_frame_fields (seq : option json) :
  get "t" (ack_frame seq) = Some (JStr "ack")
  ∧ get "seq" (ack_frame seq) = seq
  ∧ ∀ k, k ≠ "t" → k ≠ "seq" → get k (ack_frame seq) = None.
Proof.
  destruct seq; repeat split; try reflexivity; intros k Ht Hs; cbn;
    apply String.eqb_neq in Ht, Hs; by rewrite ?Ht, ?Hs.
Qed.

(** C3.  Backpressure without side effects: when [dc] is missing or not
    open, or a message is in flight ([awaitingAckSeq] is not [null]),
    [send] returns [false] and the world it leaves is the world it found:
    no sequence number is consumed, no frame is written, no counter moves,
    no snapshot is emitted and no timer is armed. *)
Theorem send_backpressure (now : Q) (dc : option nat) (payload : json)
    (w : World) :
  usable dc w = false ∨ awaitingAckSeq (state w) ≠ None →
  send now dc payload w = (w, false).
Proof.
  intros Hpre. unfold send.
  destruct dc as [c|]; [|reflexivity].
  simpl in Hpre.
  destruct (channel_open c w) eqn:Hopen; simpl; [|reflexivity].
  destruct (awaitingAckSeq (state w)) as [a|]; [reflexivity|].
  destruct Hpre as [Hclosed|Hbusy]; [discriminate|congruence].
Qed.

(** C5.  A stale or foreign acknowledgement is ignored: an [Ack] frame whose
    [seq] is a number other than the awaited one, also when nothing is
    awaited, leaves the whole world unchanged: no round-trip sample, no
    counter, [awaitingAckSeq] and the in-flight payload untouched, the
    timer still pending. *)
Theorem stale_ack_ignored (now : Q) (dc : nat) (raw : string) (seq : Z)
    (w : World) :
  is_ack_for JSON_parse raw seq →
  awaitingAckSeq (state w) ≠ Some seq →
  handleIncoming JSON_parse now dc raw w = (w, Normal).
Proof.
  intros (msg & Hparse & Hack & Hseq) Hstale.
  unfold handleIncoming. rewrite Hparse. unfold handle_message.
  destruct msg as [| | | | |fs]; try discriminate Hack.
  assert (Hdata : is_str "data" (get "t" (JObj fs)) = false).
  { unfold is_str in *. destruct (get "t" (JObj fs)) as [[]|]; try discriminate.
    apply String.eqb_eq in Hack as ->. reflexivity. }
  rewrite Hdata, Hack, Hseq.
  unfold awaits. destruct (awaitingAckSeq (state w)) as [a|]; [|reflexivity].
  destruct (Z.eqb_spec a seq) as [->|]; [congruence|reflexivity].
Qed.

(** C6.  At-least-once receive: a decoded [Data] frame arriving on its open
    channel bumps [received] by one and [bytesReceived] by the length of the
    text, hands an [Ack] with the frame's own [seq] to the channel and calls
    the delivery callback with the payload.  The acknowledgement is the
    serialization of an object whose [t] is [ack], whose [seq] is the [seq]
    of the frame ([undefined] when the frame has none) and that has no
    other field.  Nothing remembers the [seq]: the same frame delivered
    again is acknowledged and delivered again, two acknowledgements and two
    callback invocations in all.  (The transport fires [onmessage] on an
    open channel only; on any other, [dc.send] would throw once the
    counters have moved.) *)
Theorem data_frame_acked_and_delivered (now now' : Q) (dc : nat)
    (raw : string) (msg : json) (w : World) :
  is_data JSON_parse raw msg →
  channel_open dc w = true →
  let acked := ack_frame (get "seq" msg) in
  let ack := JSON_stringify acked in
  let r1 := handleIncoming JSON_parse now dc raw w in
  let r2 := handleIncoming JSON_parse now' dc raw (fst r1) in
  (snd r1 = Normal
   ∧ received (stats (state (fst r1))) = (received (stats (state w)) + 1)%Z
   ∧ bytesReceived (stats (state (fst r1)))
     = (bytesReceived (stats (state w)) + Z.of_nat (String.length raw))%Z
   ∧ frames_of dc (fst r1) = frames_of dc w ++ [ack]
   ∧ delivered (fst r1) = delivered w ++ [get "payload" msg])
  ∧ (snd r2 = Normal
     ∧ received (stats (state (fst r2))) = (received (stats (state w)) + 2)%Z
     ∧ frames_of dc (fst r2) = frames_of dc w ++ [ack; ack]
     ∧ delivered (fst r2)
       = delivered w ++ [get "payload" msg; get "payload" msg])
  ∧ (get "t" acked = Some (JStr "ack")
     ∧ get "seq" acked = get "seq" msg
     ∧ ∀ k, k ≠ "t" → k ≠ "seq" → get k acked = None).
Proof.
  intros [Hparse Hdata] Hopen.
  assert (Hmsg : ∃ fs, msg = JObj fs).
  { destruct msg; try discriminate Hdata. eauto. }
  destruct Hmsg as [fs ->].
  assert (Hstep : ∀ t w0, channel_open dc w0 = true →
    let r := handleIncoming JSON_parse t dc raw w0 in
    snd r = Normal
    ∧ received (stats (state (fst r))) = (received (stats (state w0)) + 1)%Z
    ∧ bytesReceived (stats (state (fst r)))
      = (bytesReceived (stats (state w0)) + Z.of_nat (String.length raw))%Z
    ∧ frames_of dc (fst r)
      = frames_of dc w0 ++ [JSON_stringify (ack_frame (get "seq" (JObj fs)))]
    ∧ delivered (fst r) = delivered w0 ++ [get "payload" (JObj fs)]
    ∧ channel_open dc (fst r) = true).
  { intros t w0 Hopen0. unfold handleIncoming. rewrite Hparse.
    unfold handle_message. rewrite Hdata. unfold dc_send.
    match goal with |- context [channel_open dc ?x] =>
      replace (channel_open dc x) with true by (symmetry; exact Hopen0) end.
    cbv zeta. cbn [fst snd]. repeat split; try reflexivity.
    - rewrite (frames_of_channels dc _
                 (push_frame dc
                    (JSON_stringify (ack_frame (get "seq" (JObj fs)))) w0))
        by reflexivity.
      rewrite (frames_of_push dc dc) by exact Hopen0.
      rewrite decide_True by done. reflexivity.
    - rewrite (channel_open_channels dc _
                 (push_frame dc
                    (JSON_stringify (ack_frame (get "seq" (JObj fs)))) w0))
        by reflexivity.
      rewrite channel_open_push. exact Hopen0. }
  intros acked ack r1 r2.
  destruct (Hstep now w Hopen) as (H1 & H2 & H3 & H4 & H5 & H6).
  split; [repeat split; assumption|].
  destruct (Hstep now' (fst r1) H6) as (K1 & K2 & K3 & K4 & K5 & K6).
  split; [|apply ack_frame_fields].
  repeat split.
  - exact K1.
  - subst r2. rewrite K2. subst r1. rewrite H2. lia.
  - subst r2. rewrite K4. subst r1. rewrite H4. rewrite <- app_assoc. reflexivity.
  - subst r2. rewrite K5. subst r1. rewrite H5. rewrite <- app_assoc. reflexivity.
Qed.

Lemma send_accepts now c payload w :
  channel_open c w = true →
  awaitingAckSeq (state w) = None →
  send now (Some c) payload w = (sent_world now c payload w, true).
Proof.
  intros Hopen Hidle. unfold send. rewrite Hopen, Hidle. reflexivity.
Qed.

Lemma frames_of_sent_world now c payload w :
  channel_open c w = true →
  frames_of c (sent_world now c payload w)
  = frames_of c w
      ++ [JSON_stringify (data_frame (nextSeq (state w)) payload)].
Proof.
  intros Hopen.
  rewrite (frames_of_channels c _
             (push_frame c
                (JSON_stringify (data_frame (nextSeq (state w)) payload)) w))
    by reflexivity.
  rewrite frames_of_push by exact Hopen.
  rewrite decide_True by done. reflexivity.
Qed.

Lemma channel_open_sent_world now c payload w :
  channel_open c (sent_world now c payload w) = channel_open c w.
Proof.
  rewrite (channel_open_channels c _
             (push_frame c
                (JSON_stringify (data_frame (nextSeq (state w)) payload)) w))
    by reflexivity.
  apply channel_open_push.
Qed.

Lemma awaited_ack_accepted now dc raw seq w :
  is_ack_for JSON_parse raw seq →
  awaitingAckSeq (state w) = Some seq →
  handleIncoming JSON_parse now dc raw w = (acked_world now w, Normal).
Proof.
  intros (msg & Hparse & Hack & Hseq) Hawait.
  unfold handleIncoming. rewrite Hparse. unfold handle_message.
  destruct msg as [| | | | |fs]; try discriminate Hack.
  assert (Hdata : is_str "data" (get "t" (JObj fs)) = false).
  { unfold is_str in *. destruct (get "t" (JObj fs)) as [[]|]; try discriminate.
    apply String.eqb_eq in Hack as ->. reflexivity. }
  rewrite Hdata, Hack, Hseq, Hawait. unfold awaits. rewrite Z.eqb_refl.
  unfold acked_world, clear_timer, update, with_state. simpl.
  destruct (timer (state w)); reflexivity.
Qed.

Lemma to_uint32_succ k :
  to_uint32 (to_uint32 (Z.of_nat k) + 1) = to_uint32 (Z.of_nat (S k)).
Proof.
  unfold to_uint32. rewrite Z.add_mod_idemp_l by lia.
  f_equal. lia.
Qed.

Lemma exchange_numbering c :
  ∀ (rounds : list Round) (k : nat) (w : World),
    channel_open c w = true →
    awaitingAckSeq (state w) = None →
    nextSeq (state w) = to_uint32 (Z.of_nat k) →
    (∀ i r, rounds !! i = Some r →
            is_ack_for JSON_parse (ack_raw r) (to_uint32 (Z.of_nat (k + i)))) →
    snd (exchange JSON_parse c rounds w) = repeat true (length rounds)
    ∧ frames_of c (fst (exchange JSON_parse c rounds w))
      = frames_of c w
          ++ imap (fun i r =>
                     JSON_stringify
                       (data_frame (to_uint32 (Z.of_nat (k + i)))
                                   (round_payload r))) rounds.
Proof.
  induction rounds as [|r rest IH]; intros k w Hopen Hidle Hseq Hacks.
  - simpl. rewrite app_nil_r. split; reflexivity.
  - cbn [exchange].
    rewrite (send_accepts _ _ _ _ Hopen Hidle).
    pose proof (Hacks 0%nat r eq_refl) as Hack0.
    rewrite Nat.add_0_r in Hack0.
    rewrite (awaited_ack_accepted (acked_at r) c (ack_raw r)
               (to_uint32 (Z.of_nat k)) _ Hack0)
      by (cbn; congruence).
    set (w2 := acked_world (acked_at r)
                 (sent_world (sent_at r) c (round_payload r) w)).
    assert (Hopen2 : channel_open c w2 = true).
    { rewrite (channel_open_channels c w2
                 (sent_world (sent_at r) c (round_payload r) w))
        by reflexivity.
      rewrite channel_open_sent_world. exact Hopen. }
    assert (Hseq2 : nextSeq (state w2) = to_uint32 (Z.of_nat (S k))).
    { cbn. rewrite Hseq. apply to_uint32_succ. }
    destruct (IH (S k) w2 Hopen2 eq_refl Hseq2) as [IH1 IH2].
    { intros i r' Hi. replace (S k + i)%nat with (k + S i)%nat by lia.
      apply Hacks. exact Hi. }
    destruct (exchange JSON_parse c rest w2) as [w3 oks].
    cbn [fst snd] in *. split.
    + cbn. f_equal. exact IH1.
    + rewrite IH2.
      rewrite (frames_of_channels c w2
                 (sent_world (sent_at r) c (round_payload r) w))
        by reflexivity.
      rewrite frames_of_sent_world by exact Hopen.
      rewrite Hseq, <- app_assoc. f_equal.
      rewrite imap_cons. cbn [app]. rewrite Nat.add_0_r. f_equal.
      apply imap_ext. intros i r' _. cbn.
      replace (k + S i)%nat with (S (k + i))%nat by lia. reflexivity.
Qed.

(** C4.  Postconditions of an accepted [send], and the numbering they
    give.  With the channel open and nothing in flight, [send] returns
    [true]; it takes [seq = nextSeq], sets [awaitingAckSeq] to it, records
    the payload and the time, hands the serialized [Data] frame to the
    channel and to no other (the frame is the serialization of an object
    whose [t] is [data], whose [seq] is that number, whose [payload] is
    the payload, and that has no other field), adds one to [sent] and the
    length of the frame
    to [bytesSent] and leaves the other counters, emits a snapshot of the
    new counters, arms a [timeoutMs] timer holding the retransmission
    callback, and advances [nextSeq] to [(nextSeq + 1) mod 2^32].  Hence,
    from a fresh session, the [i]-th of any number of sends that are each
    acknowledged before the next is accepted and writes the serialization
    of an object whose [t] is [data], whose [seq] is [i mod 2^32] and whose
    [payload] is the payload of that send. *)
Theorem send_success (now : Q) (c : nat) (payload : json) (w : World)
    (rounds : list Round) (chans : gmap nat Channel) :
  (channel_open c w = true →
   awaitingAckSeq (state w) = None →
   let seq := nextSeq (state w) in
   let data := data_frame seq payload in
   let frame := JSON_stringify data in
   let w' := fst (send now (Some c) payload w) in
   snd (send now (Some c) payload w) = true
   ∧ awaitingAckSeq (state w') = Some seq
   ∧ inflightPayload (state w') = Some payload
   ∧ inflightTimestamp (state w') = now
   ∧ frames_of c w' = frames_of c w ++ [frame]
   ∧ (∀ c', c' ≠ c → channels w' !! c' = channels w !! c')
   ∧ sent (stats (state w')) = (sent (stats (state w)) + 1)%Z
   ∧ bytesSent (stats (state w'))
     = (bytesSent (stats (state w)) + Z.of_nat (String.length frame))%Z
   ∧ received (stats (state w')) = received (stats (state w))
   ∧ acks (stats (state w')) = acks (stats (state w))
   ∧ retransmits (stats (state w')) = retransmits (stats (state w))
   ∧ rttMs (stats (state w')) = rttMs (stats (state w))
   ∧ bytesReceived (stats (state w')) = bytesReceived (stats (state w))
   ∧ snapshots w'
     = snapshots w ++ [mkSnapshot (stats (state w')) (rttHistory (state w))]
   ∧ timer (state w') = Some (nextTimerId w)
   ∧ timers w'
     = <[nextTimerId w :=
           mkTimer (timeoutMs (state w)) (Retransmit c seq payload)]>
         (timers w)
   ∧ nextSeq (state w') = ((seq + 1) mod 2 ^ 32)%Z
   ∧ get "t" data = Some (JStr "data")
   ∧ get "seq" data = Some (JNum seq)
   ∧ get "payload" data = Some payload
   ∧ (∀ k, k ≠ "t" → k ≠ "seq" → k ≠ "payload" → get k data = None))
  ∧ (channel_open c (initial_world chans) = true →
     (∀ i r, rounds !! i = Some r →
             is_ack_for JSON_parse (ack_raw r) (Z.of_nat i mod 2 ^ 32)) →
     let res := exchange JSON_parse c rounds (initial_world chans) in
     let sent_values :=
       imap (fun i r => data_frame (Z.of_nat i mod 2 ^ 32) (round_payload r))
            rounds in
     snd res = repeat true (length rounds)
     ∧ frames_of c (fst res)
       = frames_of c (initial_world chans) ++ map JSON_stringify sent_values
     ∧ ∀ i v, sent_values !! i = Some v →
         get "t" v = Some (JStr "data")
         ∧ get "seq" v = Some (JNum (Z.of_nat i mod 2 ^ 32))
         ∧ get "payload" v = round_payload <$> rounds !! i).
Proof.
  split.
  - intros Hopen Hidle seq data frame w'. subst w'.
    rewrite (send_accepts _ _ _ _ Hopen Hidle). cbn [fst snd].
    split; [reflexivity|]. split; [reflexivity|]. split; [reflexivity|].
    split; [reflexivity|].
    split; [apply frames_of_sent_world; exact Hopen|].
    split.
    { intros c' Hne. cbn. rewrite lookup_alter_ne by done. reflexivity. }
    repeat (split; [reflexivity|]).
    apply (data_frame_fields (nextSeq (state w)) payload).
  - intros Hopen Hacks res sent_values.
    destruct (exchange_numbering c rounds 0 (initial_world chans) Hopen
                eq_refl eq_refl Hacks) as [Hoks Hframes].
    split; [exact Hoks|]. split.
    + subst res sent_values. rewrite Hframes. f_equal.
      change (map JSON_stringify ?l) with (JSON_stringify <$> l).
      by rewrite fmap_imap.
    + intros i v Hv. subst sent_values.
      rewrite list_lookup_imap in Hv.
      destruct (rounds !! i) as [r|]; [|discriminate Hv].
      injection Hv as <-. by repeat split.
Qed.

(** How an event can change the round-trip history: not at all, or by one
    [push_rtt]; the capacity is never written. *)
Lemma history_step (e : Event) (w : World) :
  let w' := apply_event JSON_parse e w in
  rttHistoryMax (state w') = rttHistoryMax (state w)
  ∧ (rttHistory (state w') = rttHistory (state w)
     ∨ ∃ rtt, rttHistory (state w')
              = push_rtt rtt (rttHistoryMax (state w)) (rttHistory (state w))).
Proof.
  destruct e as [now dc payload|now dc raw|id|chans]; cbn [apply_event];
    cbv zeta.
  - unfold send. repeat case_match; split; try (left; reflexivity); reflexivity.
  - unfold handleIncoming, handle_message, dc_send, clear_timer.
    repeat case_match; simplify_eq; split;
      try reflexivity; try (left; reflexivity); right; eexists; reflexivity.
  - unfold fire, run_callback, dc_send, clear_timer.
    repeat case_match; simplify_eq; split;
      try (left; reflexivity); reflexivity.
  - split; [|left]; reflexivity.
Qed.

Lemma push_rtt_length rtt max h :
  (length h ≤ max)%nat → (length (push_rtt rtt max h) ≤ max)%nat.
Proof.
  intros Hle. unfold push_rtt. rewrite length_app. cbn [length].
  destruct (Nat.ltb_spec max (length h + 1)) as [Hlt|Hge].
  - destruct h; cbn in *; [lia|]. rewrite length_app. cbn. lia.
  - rewrite length_app. cbn. lia.
Qed.

Lemma run_snoc es e w :
  run JSON_parse (es ++ [e]) w
  = apply_event JSON_parse e (run JSON_parse es w).
Proof. unfold run. rewrite fold_left_app. reflexivity. Qed.

Lemma history_invariant (es : list Event) (chans : gmap nat Channel) :
  rttHistoryMax (state (run JSON_parse es (initial_world chans))) = 40%nat
  ∧ (length (rttHistory (state (run JSON_parse es (initial_world chans))))
     ≤ 40)%nat.
Proof.
  induction es as [|e es IH] using rev_ind.
  - cbn. split; [reflexivity|lia].
  - rewrite run_snoc.
    destruct IH as [Hmax Hlen].
    destruct (history_step e (run JSON_parse es (initial_world chans)))
      as [Hmax' Hhist].
    split; [congruence|].
    destruct Hhist as [->| [rtt ->]]; [exact Hlen|].
    rewrite Hmax. apply push_rtt_length. exact Hlen.
Qed.

(** C7.  The round-trip history is a bounded queue.  Whatever the
    application, the transport and the timers do from a fresh session, the
    history never holds more than 40 samples; and when the awaited
    acknowledgement arrives, its sample goes to the end, after the oldest
    sample has been dropped if 40 were held. *)
Theorem rtt_history_bounded (es : list Event) (chans : gmap nat Channel) :
  let w := run JSON_parse es (initial_world chans) in
  (length (rttHistory (state w)) ≤ 40)%nat
  ∧ ∀ (now : Q) (dc : nat) (raw : string) (seq : Z),
      is_ack_for JSON_parse raw seq →
      awaitingAckSeq (state w) = Some seq →
      let h := rttHistory (state w) in
      let rtt := Math_round (now - inflightTimestamp (state w)) in
      let h' :=
        rttHistory (state (fst (handleIncoming JSON_parse now dc raw w))) in
      ((length h < 40)%nat → h' = h ++ [rtt])
      ∧ (length h = 40%nat → h' = drop 1 h ++ [rtt])
      ∧ (length h' ≤ 40)%nat.
Proof.
  intros w.
  destruct (history_invariant es chans) as [Hmax Hlen]. fold w in Hmax, Hlen.
  split; [exact Hlen|].
  intros now dc raw seq Hack Hawait h rtt h'. subst h'.
  rewrite (awaited_ack_accepted now dc raw seq w Hack Hawait).
  cbn [fst acked_world state rttHistory]. fold rtt. fold h. rewrite Hmax.
  fold h in Hlen.
  unfold push_rtt. rewrite length_app. cbn [length].
  destruct (Nat.ltb_spec 40 (length h + 1)) as [Hfull|Hroom].
  - repeat split.
    + intros Hlt. lia.
    + intros _. destruct h; [cbn in Hfull; lia|reflexivity].
    + destruct h; [cbn in Hfull; lia|].
      cbn [tail app]. rewrite length_app. cbn in *. lia.
  - repeat split.
    + intros Heq. lia.
    + rewrite length_app. cbn. lia.
Qed.

(** No timer expiry ends a send: whatever timer fires, the awaited number,
    the in-flight payload and the next number stay as they were. *)
Lemma fire_keeps_in_flight (id : nat) (w : World) :
  awaitingAckSeq (state (fst (fire id w))) = awaitingAckSeq (state w)
  ∧ inflightPayload (state (fst (fire id w))) = inflightPayload (state w)
  ∧ nextSeq (state (fst (fire id w))) = nextSeq (state w).
Proof.
  unfold fire, run_callback, dc_send, clear_timer.
  repeat case_match; simplify_eq; repeat split; reflexivity.
Qed.

(** C2: what the code does at the first expiry and at the second.  [send]
    arms a [timeoutMs] timer holding the retransmission callback.  When
    that timer expires in a later world where it is still pending, the
    channel is open and [awaitingAckSeq] still is the armed number, exactly
    one frame is handed to the channel, the text [send] wrote, which
    carries the same [seq]; [sent] and [retransmits] grow by one and
    [bytesSent] by the length of the frame; a snapshot is emitted, and a
    timer of [timeoutMs] is armed again.  The callback of that timer is
    the empty function, not a retransmission: when it expires, with the
    number still awaited and the channel still open, nothing is written,
    no counter moves, no snapshot is emitted and no timer is armed; the
    state is the one the first expiry left.  No expiry, whichever it is,
    clears [awaitingAckSeq] or the in-flight payload, and nothing is
    reported: after the second expiry the send stays in flight with no
    timer of its own pending. *)
Theorem retransmission_on_expiry (now : Q) (c : nat) (payload : json)
    (w w2 : World) (id' : nat) (w' : World) :
  channel_open c w = true →
  awaitingAckSeq (state w) = None →
  let seq := nextSeq (state w) in
  let id := nextTimerId w in
  let armed := mkTimer (timeoutMs (state w)) (Retransmit c seq payload) in
  let frame := JSON_stringify (data_frame seq payload) in
  timers w2 !! id = Some armed →
  awaitingAckSeq (state w2) = Some seq →
  channel_open c w2 = true →
  let w3 := fst (fire id w2) in
  let id2 := nextTimerId w2 in
  let w4 := fst (fire id2 w3) in
  (timers (fst (send now (Some c) payload w)) !! id = Some armed
   ∧ last (frames_of c (fst (send now (Some c) payload w))) = Some frame
   ∧ get "seq" (data_frame seq payload) = Some (JNum seq))
  ∧ (snd (fire id w2) = Normal
     ∧ frames_of c w3 = frames_of c w2 ++ [frame]
     ∧ (∀ c', c' ≠ c → channels w3 !! c' = channels w2 !! c')
     ∧ retransmits (stats (state w3))
       = (retransmits (stats (state w2)) + 1)%Z
     ∧ sent (stats (state w3)) = (sent (stats (state w2)) + 1)%Z
     ∧ bytesSent (stats (state w3))
       = (bytesSent (stats (state w2)) + Z.of_nat (String.length frame))%Z
     ∧ snapshots w3
       = snapshots w2
           ++ [mkSnapshot (stats (state w3)) (rttHistory (state w3))]
     ∧ awaitingAckSeq (state w3) = Some seq
     ∧ channel_open c w3 = true
     ∧ timer (state w3) = Some id2
     ∧ timers w3 !! id2
       = Some (mkTimer (timeoutMs (state w2)) EmptyCallback))
  ∧ (snd (fire id2 w3) = Normal
     ∧ state w4 = state w3
     ∧ channels w4 = channels w3
     ∧ snapshots w4 = snapshots w3
     ∧ timers w4 = delete id2 (timers w3)
     ∧ nextTimerId w4 = nextTimerId w3
     ∧ awaitingAckSeq (state w4) = Some seq
     ∧ retransmits (stats (state w4))
       = (retransmits (stats (state w2)) + 1)%Z)
  ∧ (awaitingAckSeq (state (fst (fire id' w'))) = awaitingAckSeq (state w')
     ∧ inflightPayload (state (fst (fire id' w')))
       = inflightPayload (state w')).
Proof.
  intros Hopen Hidle seq id armed frame Hpending Hawait Hopen2 w3 id2 w4.
  assert (Hfire : fire id w2
                  = (retransmitted_world c seq payload (without_timer id w2),
                     Normal)).
  { unfold fire. rewrite Hpending. cbn [callback armed].
    fold (without_timer id w2). unfold run_callback.
    change (awaitingAckSeq (state (without_timer id w2)))
      with (awaitingAckSeq (state w2)).
    rewrite Hawait, Z.eqb_refl. unfold dc_send.
    rewrite (channel_open_channels c (without_timer id w2) w2) by reflexivity.
    rewrite Hopen2. unfold retransmitted_world, clear_timer. cbn.
    destruct (timer (state w2)); reflexivity. }
  assert (Hw3 : w3 = retransmitted_world c seq payload (without_timer id w2))
    by (subst w3; by rewrite Hfire).
  assert (Harmed : timers w3 !! id2
                   = Some (mkTimer (timeoutMs (state w2)) EmptyCallback)).
  { rewrite Hw3. cbn. apply lookup_insert_eq. }
  assert (Hfire2 : fire id2 w3
                   = (mkWorld (state w3) (channels w3)
                              (delete id2 (timers w3)) (nextTimerId w3)
                              (snapshots w3) (delivered w3), Normal)).
  { unfold fire. by rewrite Harmed. }
  split; [|split; [|split]].
  - rewrite (send_accepts _ _ _ _ Hopen Hidle). cbn [fst].
    split; [cbn; apply lookup_insert_eq|].
    split; [|reflexivity].
    rewrite frames_of_sent_world by exact Hopen. apply last_snoc.
  - rewrite Hfire. cbn [snd]. split; [reflexivity|].
    split.
    { rewrite Hw3.
      rewrite (frames_of_channels c _ (push_frame c frame w2))
        by reflexivity.
      rewrite frames_of_push by exact Hopen2. by rewrite decide_True. }
    split.
    { intros c' Hne. rewrite Hw3. cbn. by rewrite lookup_alter_ne. }
    rewrite Hw3. repeat (split; [reflexivity|]).
    split; [exact Hawait|].
    split.
    { rewrite (channel_open_channels c _ (push_frame c frame w2))
        by reflexivity.
      by rewrite channel_open_push. }
    split; [reflexivity|]. rewrite <- Hw3. exact Harmed.
  - subst w4. rewrite Hfire2. cbn [fst snd state channels snapshots timers
                                   nextTimerId].
    repeat (split; [reflexivity|]).
    rewrite Hw3. split; [exact Hawait|reflexivity].
  - split; apply fire_keeps_in_flight.
Qed.

End Session.

(** ** Base64 decodes what it encoded *)

Module Base64Facts.
Import Base64.

Lemma list_ind3 {A} (P : list A → Prop) :
  P [] → (∀ a, P [a]) → (∀ a b, P [a; b]) →
  (∀ a b c r, P r → P (a :: b :: c :: r)) →
  ∀ l, P l.
Proof.
  intros H0 H1 H2 H3 l.
  assert (Hall : P l ∧ (∀ a, P (a :: l)) ∧ (∀ a b, P (a :: b :: l))).
  { induction l as [|x l (IH0 & IH1 & IH2)]; [by auto|].
    split; [apply IH1|]. split; [intros a; apply IH2|].
    intros a b. apply H3. exact IH0. }
  apply Hall.
Qed.

Lemma sextet_table :
  forallb sextet_ok (map N.of_nat (seq 0 64)) = true.
Proof. vm_compute. reflexivity. Qed.

Lemma sextet_ok_lt n : (n < 64)%N → sextet_ok n = true.
Proof.
  intros Hlt.
  pose proof sextet_table as Htab.
  rewrite forallb_forall in Htab. apply Htab.
  apply in_map_iff. exists (N.to_nat n). split; [lia|].
  apply in_seq. lia.
Qed.

Lemma char_not_whitespace n :
  (n < 64)%N → is_ascii_whitespace (char_of_sextet n) = false.
Proof.
  intros H. apply sextet_ok_lt in H. unfold sextet_ok in H.
  apply andb_prop in H as [H _]. apply andb_prop in H as [H _].
  by apply negb_true_iff in H.
Qed.

Lemma char_not_pad n : (n < 64)%N → char_of_sextet n ≠ pad_char.
Proof.
  intros H. apply sextet_ok_lt in H. unfold sextet_ok in H.
  apply andb_prop in H as [H _]. apply andb_prop in H as [_ H].
  apply negb_true_iff in H. by apply Ascii.eqb_neq in H.
Qed.

Lemma sextet_of_char_of_sextet n :
  (n < 64)%N → sextet_of_char (char_of_sextet n) = Some n.
Proof.
  intros H. apply sextet_ok_lt in H. unfold sextet_ok in H.
  apply andb_prop in H as [_ H].
  destruct (sextet_of_char (char_of_sextet n)) as [m|]; [|discriminate].
  apply N.eqb_eq in H. by subst.
Qed.

Lemma sextets_bounded l :
  Forall octet l → Forall (fun n => (n < 64)%N) (sextets l).
Proof.
  induction l as [|a|a b|a b c r IH] using list_ind3; intros Hl; cbn [sextets].
  - constructor.
  - inversion_clear Hl as [|? ? Ha _]. unfold octet in *.
    repeat constructor; lia.
  - inversion_clear Hl as [|? ? Ha Hl']. inversion_clear Hl' as [|? ? Hb _].
    unfold octet in *. repeat constructor; lia.
  - inversion_clear Hl as [|? ? Ha Hl']. inversion_clear Hl' as [|? ? Hb Hl].
    inversion_clear Hl as [|? ? Hc Hr]. unfold octet in *.
    cbn [app]. repeat (constructor; [lia|]). by apply IH.
Qed.

Lemma octets_sextets l : Forall octet l → octets (sextets l) = l.
Proof.
  induction l as [|a|a b|a b c r IH] using list_ind3; intros Hl; cbn [sextets].
  - reflexivity.
  - inversion_clear Hl as [|? ? Ha _]. unfold octet in *.
    cbn [octets]. f_equal. lia.
  - inversion_clear Hl as [|? ? Ha Hl']. inversion_clear Hl' as [|? ? Hb _].
    unfold octet in *. cbn [octets]. f_equal; [lia|]. f_equal. lia.
  - inversion_clear Hl as [|? ? Ha Hl']. inversion_clear Hl' as [|? ? Hb Hl].
    inversion_clear Hl as [|? ? Hc Hr]. unfold octet in *.
    cbn [app octets]. rewrite IH by done.
    f_equal; [lia|]. f_equal; [lia|]. f_equal. lia.
Qed.

(** The number of 6-bit groups and of padding characters, by the length of
    the input modulo 3. *)
Lemma sextets_shape (l : list N) :
  ∃ q : nat,
    (length l mod 3 = 0 ∧ length (sextets l) = 4 * q
     ∧ padding (length l) = [])%nat
    ∨ (length l mod 3 = 1 ∧ length (sextets l) = 4 * q + 2
       ∧ padding (length l) = [pad_char; pad_char])%nat
    ∨ (length l mod 3 = 2 ∧ length (sextets l) = 4 * q + 3
       ∧ padding (length l) = [pad_char])%nat.
Proof.
  induction l as [|a|a b|a b c r IH] using list_ind3.
  - exists 0%nat. left. repeat split; reflexivity.
  - exists 0%nat. right; left. repeat split; reflexivity.
  - exists 0%nat. right; right. repeat split; reflexivity.
  - destruct IH as [q IH]. exists (S q).
    assert (Hmod : (length (a :: b :: c :: r) mod 3 = length r mod 3)%nat).
    { cbn [length]. lia. }
    assert (Hpad : padding (length (a :: b :: c :: r)) = padding (length r)).
    { unfold padding. rewrite Hmod. reflexivity. }
    rewrite Hmod, Hpad. cbn [sextets]. rewrite length_app. cbn [length].
    destruct IH as [(H1 & H2 & H3)|[(H1 & H2 & H3)|(H1 & H2 & H3)]];
      [left|right; left|right; right]; repeat split; try assumption; lia.
Qed.

Lemma strip_whitespace_id (l : list ascii) :
  Forall (fun c => is_ascii_whitespace c = false) l →
  strip_whitespace l = l.
Proof.
  unfold strip_whitespace.
  induction 1 as [|c l Hc _ IH]; [reflexivity|].
  cbn [List.filter]. rewrite Hc. cbn. by rewrite IH.
Qed.

Lemma sextets_of_chars_of_sextets (ns : list N) :
  Forall (fun n => (n < 64)%N) ns →
  sextets_of_chars (map char_of_sextet ns) = Some ns.
Proof.
  induction 1 as [|n ns Hn _ IH]; [reflexivity|].
  cbn [map sextets_of_chars].
  by rewrite (sextet_of_char_of_sextet n Hn), IH.
Qed.

Lemma rev_head_in {A} (l r : list A) (x : A) : rev l = x :: r → In x l.
Proof.
  intros H. apply in_rev. rewrite H. by left.
Qed.

(** Dropping the padding of an encoding gives back its characters. *)
Lemma strip_padding_encoded (ns : list N) (k : nat) :
  Forall (fun n => (n < 64)%N) ns →
  (k = 0 ∧ length ns mod 4 = 0 ∨ k = 2 ∧ length ns mod 4 = 2
   ∨ k = 1 ∧ length ns mod 4 = 3)%nat →
  strip_padding (map char_of_sextet ns ++ repeat pad_char k)
  = map char_of_sextet ns.
Proof.
  intros Hns Hk. unfold strip_padding.
  set (X := map char_of_sextet ns).
  assert (HX : ∀ c, In c X → Ascii.eqb c pad_char = false).
  { intros c Hc. apply in_map_iff in Hc as (n & <- & Hn).
    apply Ascii.eqb_neq, char_not_pad.
    rewrite Forall_forall in Hns. apply Hns. by apply list_elem_of_In. }
  assert (HlenX : length X = length ns) by apply length_map.
  rewrite length_app, repeat_length, rev_app_distr, rev_repeat.
  destruct Hk as [[-> Hm]|[[-> Hm]|[-> Hm]]].
  - replace ((length X + 0) mod 4 =? 0)%nat with true
      by (symmetry; apply Nat.eqb_eq; lia).
    cbn [repeat]. rewrite app_nil_r. cbn [app].
    destruct (rev X) as [|c1 [|c2 r]] eqn:Hrev; [reflexivity| |].
    + rewrite (HX c1); [reflexivity|]. by apply (rev_head_in X []).
    + rewrite (HX c1); [reflexivity|]. by apply (rev_head_in X (c2 :: r)).
  - replace ((length X + 2) mod 4 =? 0)%nat with true
      by (symmetry; apply Nat.eqb_eq; lia).
    cbn [repeat app].
    replace (Ascii.eqb pad_char pad_char) with true by reflexivity.
    apply rev_involutive.
  - replace ((length X + 1) mod 4 =? 0)%nat with true
      by (symmetry; apply Nat.eqb_eq; lia).
    cbn [repeat app].
    destruct (rev X) as [|c2 r] eqn:Hrev.
    + apply (f_equal (@length ascii)) in Hrev.
      rewrite length_rev in Hrev. cbn in Hrev. lia.
    + replace (Ascii.eqb pad_char pad_char) with true by reflexivity.
      rewrite (HX c2) by (by apply (rev_head_in X r)).
      rewrite <- Hrev. apply rev_involutive.
Qed.

Theorem atob_btoa (binary : string) : atob (btoa binary) = Some binary.
Proof.
  unfold atob, btoa. rewrite list_ascii_of_string_of_list_ascii.
  set (codes := map N_of_ascii (list_ascii_of_string binary)).
  assert (Hcodes : Forall octet codes).
  { apply Forall_forall. intros n Hn. apply list_elem_of_In in Hn.
    apply in_map_iff in Hn as (c & <- & _). apply N_ascii_bounded. }
  pose proof (sextets_bounded codes Hcodes) as Hsx.
  assert (Hws : strip_whitespace (btoa_chars codes) = btoa_chars codes).
  { apply strip_whitespace_id. unfold btoa_chars. apply Forall_app. split.
    - apply Forall_forall. intros c Hc. apply list_elem_of_In in Hc.
      apply in_map_iff in Hc as (n & <- & Hn). apply char_not_whitespace.
      rewrite Forall_forall in Hsx. apply Hsx. by apply list_elem_of_In.
    - unfold padding. apply Forall_forall. intros c Hc.
      apply list_elem_of_In, repeat_spec in Hc. by subst. }
  rewrite Hws. unfold btoa_chars.
  assert (Hstrip : strip_padding
                     (map char_of_sextet (sextets codes)
                        ++ padding (length codes))
                   = map char_of_sextet (sextets codes)
                   ∧ (length (sextets codes) mod 4 ≠ 1)%nat).
  { destruct (sextets_shape codes) as
      [q [(H1 & H2 & H3)|[(H1 & H2 & H3)|(H1 & H2 & H3)]]]; rewrite H3.
    - split; [|lia]. apply (strip_padding_encoded _ 0 Hsx). lia.
    - split; [|lia]. apply (strip_padding_encoded _ 2 Hsx). lia.
    - split; [|lia]. apply (strip_padding_encoded _ 1 Hsx). lia. }
  destruct Hstrip as [-> Hlen].
  rewrite length_map.
  destruct (Nat.eqb_spec (length (sextets codes) mod 4) 1) as [|_]; [done|].
  rewrite (sextets_of_chars_of_sextets _ Hsx).
  rewrite (octets_sextets _ Hcodes). unfold codes.
  rewrite map_map.
  rewrite (map_ext _ id) by (intros c; apply ascii_N_embedding).
  rewrite map_id. by rewrite string_of_list_ascii_of_string.
Qed.

End Base64Facts.

(** ** The base64 helpers, the receiver and [sendFile] *)

Section FileTransfer.

Lemma string_of_list_ascii_snoc l c :
  string_of_list_ascii (l ++ [c])
  = string_of_list_ascii l +:+ String c EmptyString.
Proof. induction l as [|x l IH]; cbn; [reflexivity|]. by rewrite IH. Qed.

(** The loop of [arrayBufferToBase64] builds the string of the bytes. *)
Lemma binary_of_buffer (buffer : list Byte.byte) :
  fold_left (fun binary b => binary +:+ String (ascii_of_byte b) EmptyString)
            buffer EmptyString
  = string_of_list_ascii (map ascii_of_byte buffer).
Proof.
  induction buffer as [|b buffer IH] using rev_ind; [reflexivity|].
  rewrite fold_left_app, map_app. cbn [fold_left map].
  by rewrite IH, string_of_list_ascii_snoc.
Qed.

Lemma charCodeAt_tail c s i :
  charCodeAt (String c s) (S i) = charCodeAt s i.
Proof. reflexivity. Qed.

(** The loop of [base64ToUint8Array] reads the code units in order. *)
Lemma bytes_of_binary (binary : string) :
  map (charCodeAt binary) (seq 0 (String.length binary))
  = map byte_of_ascii (list_ascii_of_string binary).
Proof.
  induction binary as [|c s IH]; [reflexivity|].
  cbn [String.length seq map list_ascii_of_string]. f_equal.
  rewrite <- seq_shift, map_map.
  rewrite <- IH. apply map_ext. intros i. apply charCodeAt_tail.
Qed.

Lemma base64_round_trip (buffer : list Byte.byte) :
  base64ToUint8Array (arrayBufferToBase64 buffer) = Some buffer.
Proof.
  unfold base64ToUint8Array, arrayBufferToBase64.
  rewrite Base64Facts.atob_btoa, bytes_of_binary, binary_of_buffer.
  rewrite list_ascii_of_string_of_list_ascii, map_map.
  rewrite (map_ext _ id) by (intros b; apply byte_of_ascii_of_byte).
  by rewrite map_id.
Qed.

Lemma kind_is_object (k : string) (p : json) :
  is_str k (get "kind" p) = true →
  truthy (Some p) = true ∧ is_object (Some p) = true.
Proof. destruct p; try discriminate. by split. Qed.

Lemma is_str_exclusive (k k' : string) (v : option json) :
  is_str k v = true → k ≠ k' → is_str k' v = false.
Proof.
  unfold is_str. destruct v as [[]|]; try discriminate.
  intros H Hne. apply String.eqb_eq in H as ->. by apply String.eqb_neq.
Qed.

(** The branches of the callback for the other kinds are not taken. *)
Ltac skip_kinds Hk :=
  repeat match goal with
         | |- context [is_str ?k (get "kind" ?p)] =>
             rewrite (is_str_exclusive _ k _ Hk) by discriminate
         end.

(** C10.  The guard on absent transfers.  With an empty slot buffer, as it
    is before any [file-meta] and after one that announced no chunks, a
    [file-chunk] or [file-complete] payload is dropped: the callback returns
    normally and the receiver is unchanged.  In particular the payloads of
    a zero-byte file, a [file-meta] announcing 0 chunks followed by
    [file-complete], leave the download as it was and the buffer empty: no
    file is surfaced. *)
Theorem absent_transfer_dropped (p : json) (r : Receiver) (f : File) :
  (length (recvChunks r) = 0%nat →
   is_str "file-chunk" (get "kind" p) = true
   ∨ is_str "file-complete" (get "kind" p) = true →
   onDeliver (Some p) r = (r, Normal))
  ∧ length (recvChunks initial_receiver) = 0%nat
  ∧ (file_bytes f = [] →
     sendFile f = [file_meta f 0; file_complete]
     ∧ recvChunks (deliver_all (sendFile f) r) = []
     ∧ download (deliver_all (sendFile f) r) = download r).
Proof.
  split; [|split; [reflexivity|]].
  - intros Hlen [Hk|Hk]; destruct (kind_is_object _ _ Hk) as [Ht Ho];
      unfold onDeliver; rewrite Ht, Ho; cbn [negb orb].
    + skip_kinds Hk. rewrite Hk, Hlen. reflexivity.
    + skip_kinds Hk. rewrite Hk, Hlen. reflexivity.
  - intros Hempty.
    assert (Hsend : sendFile f = [file_meta f 0; file_complete]).
    { unfold sendFile, sendFile_with, file_size. rewrite Hempty. reflexivity. }
    rewrite Hsend. repeat split; reflexivity.
Qed.

Lemma in_range_true (n b : Z) :
  (0 ≤ n < b)%Z → (0 <=? n)%Z && (n <? b)%Z = true.
Proof.
  intros Hn. apply andb_true_intro.
  split; [apply Z.leb_le|apply Z.ltb_lt]; lia.
Qed.

Lemma array_set_length i v arr :
  length (array_set i v arr) = Nat.max (length arr) (S i).
Proof.
  unfold array_set. destruct (Nat.ltb_spec i (length arr)).
  - rewrite length_insert. lia.
  - rewrite !length_app, length_replicate. cbn. lia.
Qed.

Lemma deliver_meta (p : json) (r : Receiver) (n : Z) :
  is_str "file-meta" (get "kind" p) = true →
  get "totalChunks" p = Some (JNum n) →
  (0 ≤ n < 2 ^ 32)%Z →
  onDeliver (Some p) r
  = (mkReceiver (receivedText r)
       (Some (mkFileInfo (get "name" p) (get "size" p) (get "type" p)))
       (replicate (Z.to_nat n) None) (mkProgress 0 (Some (JNum n)))
       (download r), Normal).
Proof.
  intros Hk Htotal Hn. destruct (kind_is_object _ _ Hk) as [Ht Ho].
  unfold onDeliver. rewrite Ht, Ho. cbn [negb orb].
  skip_kinds Hk. rewrite Hk, Htotal. unfold new_Array.
  by rewrite (in_range_true n (2 ^ 32) Hn).
Qed.

Lemma deliver_chunk (p : json) (r : Receiver) :
  is_str "file-chunk" (get "kind" p) = true →
  onDeliver (Some p) r
  = if (length (recvChunks r) =? 0)%nat then (r, Normal)
    else
      match base64ToUint8Array (to_string_value (get "data" p)) with
      | None => (r, Throw InvalidCharacterError)
      | Some bytes =>
          let arr := array_store (get "index" p) (VBytes bytes)
                                 (recvChunks r) in
          (mkReceiver (receivedText r) (recvFileInfo r) arr
             (mkProgress (filter_Boolean_length arr)
                         (totalChunks (recvProgress r)))
             (download r), Normal)
      end.
Proof.
  intros Hk. destruct (kind_is_object _ _ Hk) as [Ht Ho].
  unfold onDeliver. rewrite Ht, Ho. cbn [negb orb].
  skip_kinds Hk. rewrite Hk. reflexivity.
Qed.

Lemma array_index_number (i : Z) :
  (0 ≤ i < 2 ^ 32 - 1)%Z → array_index (Some (JNum i)) = Some (Z.to_nat i).
Proof.
  intros Hi. unfold array_index.
  by rewrite (in_range_true i (2 ^ 32 - 1) Hi).
Qed.

(** What one [file-chunk] with a numeric index does to the length of the
    slot buffer. *)
Lemma chunk_length (p : json) (r : Receiver) (i : Z) :
  is_str "file-chunk" (get "kind" p) = true →
  get "index" p = Some (JNum i) →
  (0 ≤ i < 2 ^ 32 - 1)%Z →
  let len := length (recvChunks r) in
  let len' := length (recvChunks (fst (onDeliver (Some p) r))) in
  (len ≤ len')%nat
  ∧ (len = 0%nat → len' = 0%nat)
  ∧ ((Z.to_nat i < len)%nat → len' = len)
  ∧ ((0 < len ≤ Z.to_nat i)%nat →
     snd (onDeliver (Some p) r) = Normal →
     len' = S (Z.to_nat i)).
Proof.
  intros Hk Hidx Hi len len'. subst len'.
  rewrite (deliver_chunk p r Hk). fold len.
  destruct (Nat.eqb_spec len 0) as [Hz|Hnz].
  { cbn [fst snd]. fold len. repeat split; lia. }
  destruct (base64ToUint8Array (to_string_value (get "data" p))) as [bytes|].
  2:{ cbn [fst snd]. fold len. repeat split; try lia. discriminate. }
  cbn [fst snd recvChunks]. rewrite Hidx. unfold array_store.
  rewrite (array_index_number i Hi), array_set_length. fold len.
  repeat split; lia.
Qed.

(** C8, as the code has it.  A [file-meta] announcing [n] chunks leaves a
    slot buffer of length exactly [n].  A [file-chunk] never shortens the
    buffer; it leaves the length alone when the buffer is empty or its
    index is below the length, and when it is stored at an index at or past
    the end of a non-empty buffer the buffer grows to one more than that
    index.  So the length stays [n] across every sequence of chunks whose
    indices are below [n]. *)
Theorem slot_buffer_length (n i : Z) (meta chunk : json) (r r1 : Receiver)
    (chunks : list json) :
  is_str "file-meta" (get "kind" meta) = true →
  get "totalChunks" meta = Some (JNum n) →
  (0 ≤ n < 2 ^ 32)%Z →
  is_str "file-chunk" (get "kind" chunk) = true →
  get "index" chunk = Some (JNum i) →
  (0 ≤ i < 2 ^ 32 - 1)%Z →
  Forall (fun c => is_str "file-chunk" (get "kind" c) = true
                   ∧ ∃ j, get "index" c = Some (JNum j) ∧ (0 ≤ j < n)%Z)
         chunks →
  let r0 := fst (onDeliver (Some meta) r) in
  let len := length (recvChunks r1) in
  let len' := length (recvChunks (fst (onDeliver (Some chunk) r1))) in
  length (recvChunks r0) = Z.to_nat n
  ∧ (len ≤ len')%nat
  ∧ (len = 0%nat → len' = 0%nat)
  ∧ ((Z.to_nat i < len)%nat → len' = len)
  ∧ ((0 < len ≤ Z.to_nat i)%nat →
     snd (onDeliver (Some chunk) r1) = Normal →
     len' = S (Z.to_nat i))
  ∧ length (recvChunks (deliver_all chunks r0)) = Z.to_nat n.
Proof.
  intros Hmeta Htotal Hn Hchunk Hidx Hi Hchunks r0 len len'.
  assert (Hr0 : length (recvChunks r0) = Z.to_nat n).
  { subst r0. rewrite (deliver_meta meta r n Hmeta Htotal Hn).
    cbn. apply length_replicate. }
  split; [exact Hr0|].
  destruct (chunk_length chunk r1 i Hchunk Hidx Hi) as (H1 & H0 & H2 & H3).
  split; [exact H1|]. split; [exact H0|]. split; [exact H2|].
  split; [exact H3|].
  clearbody r0. clear -Hr0 Hchunks Hn.
  revert r0 Hr0. induction Hchunks as [|c cs (Hk & j & Hj & Hjn) _ IH];
    intros r0 Hr0; [exact Hr0|].
  cbn [deliver_all fold_left]. apply IH.
  destruct (chunk_length c r0 j Hk Hj ltac:(lia)) as (_ & _ & Hsame & _).
  rewrite Hsame; [exact Hr0|]. lia.
Qed.

(** [Math_ceil_div] is the ceiling of the quotient. *)
Lemma Math_ceil_div_spec (a b : nat) :
  (0 < b)%nat →
  (a ≤ b * Math_ceil_div a b)%nat
  ∧ ((0 < a)%nat → (b * (Math_ceil_div a b - 1) < a)%nat
                   ∧ (0 < Math_ceil_div a b)%nat).
Proof.
  intros Hb. unfold Math_ceil_div.
  pose proof (Nat.div_mod_eq a b) as Hdm.
  pose proof (Nat.mod_upper_bound a b ltac:(lia)) as Hlt.
  set (q := (a / b)%nat) in *. set (m := (a mod b)%nat) in *.
  destruct (Nat.eqb_spec m 0) as [Hm|Hm].
  - split; [nia|]. intros Ha. destruct q; [nia|].
    replace (S q - 1)%nat with q by lia. nia.
  - split; [nia|]. intros _. replace (S q - 1)%nat with q by lia. nia.
Qed.

(** A slice that stops at the end of the file is the next [chunk] bytes. *)
Lemma slice_take (chunk start : nat) (bytes : list Byte.byte) :
  slice start (Nat.min (start + chunk) (length bytes)) bytes
  = take chunk (drop start bytes).
Proof.
  unfold slice.
  destruct (Nat.le_gt_cases (start + chunk) (length bytes)) as [Hle|Hgt].
  - f_equal. lia.
  - rewrite Nat.min_r by lia.
    rewrite (take_ge (drop start bytes) chunk) by (rewrite length_drop; lia).
    apply take_ge. rewrite length_drop. lia.
Qed.

(** The first [n] chunks, one after the other, are the first [n * chunk]
    bytes. *)
Lemma chunks_concat (chunk : nat) (f : File) (n : nat) :
  concat (map (chunk_bytes chunk f) (seq 0 n)) = take (n * chunk) (file_bytes f).
Proof.
  induction n as [|n IH]; [reflexivity|].
  rewrite seq_S, map_app, concat_app, IH. cbn [map concat Nat.add].
  rewrite app_nil_r. unfold chunk_bytes, file_size. rewrite slice_take.
  rewrite take_take_drop. f_equal. lia.
Qed.

Lemma chunk_bytes_length (chunk : nat) (f : File) (i : nat) :
  length (chunk_bytes chunk f i)
  = Nat.min chunk (file_size f - i * chunk).
Proof.
  unfold chunk_bytes, file_size. rewrite slice_take.
  rewrite length_take, length_drop. reflexivity.
Qed.

Lemma file_chunk_fields (chunk : nat) (f : File) (i : nat) :
  is_str "file-chunk" (get "kind" (file_chunk chunk f i)) = true
  ∧ get "index" (file_chunk chunk f i) = Some (JNum (Z.of_nat i))
  ∧ get "data" (file_chunk chunk f i)
    = Some (JStr (arrayBufferToBase64 (chunk_bytes chunk f i))).
Proof. repeat split; reflexivity. Qed.

Lemma array_set_next (chunk : nat) (f : File) (total k : nat) :
  (k < total)%nat →
  array_set k (VBytes (chunk_bytes chunk f k)) (slots_after chunk f total k)
  = slots_after chunk f total (S k).
Proof.
  intros Hk. unfold array_set, slots_after.
  assert (Hlen : length (map (fun i => Some (VBytes (chunk_bytes chunk f i)))
                             (seq 0 k)) = k)
    by (by rewrite length_map, length_seq).
  rewrite length_app, length_replicate, Hlen.
  replace (k <? k + (total - k))%nat with true
    by (symmetry; apply Nat.ltb_lt; lia).
  replace (total - k)%nat with (S (total - S k)) by lia.
  rewrite seq_S, map_app, <- app_assoc.
  rewrite insert_app_r_alt by (rewrite Hlen; lia).
  rewrite Hlen, Nat.sub_diag. reflexivity.
Qed.

Lemma deliver_chunks (chunk : nat) (f : File) (total : nat) (r : Receiver) :
  (0 < total)%nat →
  (Z.of_nat total < 2 ^ 32)%Z →
  recvChunks r = slots_after chunk f total 0 →
  ∀ k, (k ≤ total)%nat →
    let r' := deliver_all (map (file_chunk chunk f) (seq 0 k)) r in
    recvChunks r' = slots_after chunk f total k
    ∧ download r' = download r.
Proof.
  intros Htotal Hbound Hr k. induction k as [|k IH]; intros Hk.
  - cbn. split; [exact Hr|reflexivity].
  - destruct (IH ltac:(lia)) as [IHc IHd].
    rewrite seq_S, map_app. unfold deliver_all in *. rewrite fold_left_app.
    cbn [Nat.add map fold_left].
    set (rk := fold_left _ (map (file_chunk chunk f) (seq 0 k)) r) in *.
    destruct (file_chunk_fields chunk f k) as (Hkind & Hidx & Hdata).
    rewrite (deliver_chunk _ rk Hkind), Hdata, Hidx, IHc.
    cbn [to_string_value to_string]. rewrite base64_round_trip.
    replace (length (slots_after chunk f total k) =? 0)%nat with false.
    2:{ symmetry. apply Nat.eqb_neq. unfold slots_after.
        rewrite length_app, length_map, length_seq, length_replicate. lia. }
    cbn [fst recvChunks download]. unfold array_store.
    rewrite array_index_number by lia. rewrite Nat2Z.id.
    split; [apply array_set_next; lia|exact IHd].
Qed.

Lemma deliver_complete (p : json) (r : Receiver) :
  is_str "file-complete" (get "kind" p) = true →
  onDeliver (Some p) r
  = if (length (recvChunks r) =? 0)%nat then (r, Normal)
    else
      (mkReceiver (receivedText r) (recvFileInfo r) (recvChunks r)
         (recvProgress r)
         (Some (new_Blob (recvChunks r) "application/octet-stream")),
       Normal).
Proof.
  intros Hk. destruct (kind_is_object _ _ Hk) as [Ht Ho].
  unfold onDeliver. rewrite Ht, Ho. cbn [negb orb].
  skip_kinds Hk. rewrite Hk. reflexivity.
Qed.

Lemma blob_of_full_slots (chunk : nat) (f : File) (total : nat) :
  (file_size f ≤ total * chunk)%nat →
  concat (map blob_part (slots_after chunk f total total)) = file_bytes f.
Proof.
  intros Hcover. unfold slots_after.
  rewrite Nat.sub_diag. cbn [replicate]. rewrite app_nil_r, map_map.
  cbn [blob_part]. rewrite chunks_concat.
  apply take_ge. exact Hcover.
Qed.

(** C1, as the code has it: the round trip of a file that is not empty.
    For a chunk size [chunk > 0] and a file of [S > 0] bytes whose number of
    chunks [total = ceil(S / chunk)] fits an array length, [sendFile] emits
    [file-meta] with [totalChunks = total], then for each index
    [0 .. total-1] a [file-chunk] with that index and the base64 text of the
    bytes [[i*chunk, min((i+1)*chunk, S))], which decodes to exactly those
    bytes, then [file-complete]; a receiver that processes these payloads
    in that order offers a blob whose bytes are those of the file.  For
    [S = 40000] and [chunk = 16384] there are 3 chunks, of 16384, 16384 and
    7232 bytes. *)
Theorem file_round_trip (chunk : nat) (f : File) (r : Receiver) :
  (0 < chunk)%nat →
  (0 < file_size f)%nat →
  (Z.of_nat (Math_ceil_div (file_size f) chunk) < 2 ^ 32)%Z →
  let size := file_size f in
  let total := Math_ceil_div size chunk in
  let range i :=
    slice (i * chunk) (Nat.min ((i + 1) * chunk) size) (file_bytes f) in
  (chunk * (total - 1) < size ≤ chunk * total)%nat
  ∧ sendFile_with chunk f
    = file_meta f total
        :: map (file_chunk chunk f) (seq 0 total) ++ [file_complete]
  ∧ get "totalChunks" (file_meta f total) = Some (JNum (Z.of_nat total))
  ∧ (∀ i, (i < total)%nat →
       get "index" (file_chunk chunk f i) = Some (JNum (Z.of_nat i))
       ∧ get "data" (file_chunk chunk f i)
         = Some (JStr (arrayBufferToBase64 (range i)))
       ∧ base64ToUint8Array (arrayBufferToBase64 (range i)) = Some (range i)
       ∧ length (range i) = Nat.min chunk (size - i * chunk))
  ∧ download (deliver_all (sendFile_with chunk f) r)
    = Some (mkBlob (file_bytes f) "application/octet-stream")
  ∧ (Z.of_nat size = 40000%Z → Z.of_nat chunk = 16384%Z →
     total = 3%nat
     ∧ map (fun i => Z.of_nat (length (range i))) (seq 0 total)
       = [16384; 16384; 7232]%Z).
Proof.
  intros Hchunk Hsize Hbound size total range.
  destruct (Math_ceil_div_spec size chunk Hchunk) as [Hup Hlow].
  destruct (Hlow Hsize) as [Hlow' Hpos]. fold total in Hup, Hlow', Hpos.
  assert (Hrange : ∀ i, range i = chunk_bytes chunk f i).
  { intros i. unfold range, chunk_bytes, size.
    replace ((i + 1) * chunk)%nat with (i * chunk + chunk)%nat
      by (clear; lia).
    reflexivity. }
  split; [lia|]. split; [reflexivity|]. split; [reflexivity|].
  split.
  { intros i Hi. rewrite Hrange.
    split; [reflexivity|]. split; [reflexivity|].
    split; [apply base64_round_trip|apply chunk_bytes_length]. }
  split.
  { unfold sendFile_with. fold size. fold total. unfold deliver_all.
    cbn [fold_left]. rewrite fold_left_app. cbn [fold_left].
    rewrite (deliver_meta (file_meta f total) r (Z.of_nat total))
      by (try reflexivity; unfold total, size; lia).
    cbn [fst]. rewrite Nat2Z.id.
    set (r0 := mkReceiver _ _ _ _ _).
    destruct (deliver_chunks chunk f total r0 Hpos Hbound) with (k := total)
      as [Hslots Hdl].
    { unfold slots_after. cbn [seq map app]. by rewrite Nat.sub_0_r. }
    { lia. }
    unfold deliver_all in Hslots, Hdl.
    set (rT := fold_left _ (map (file_chunk chunk f) (seq 0 total)) r0) in *.
    rewrite (deliver_complete file_complete rT) by reflexivity.
    rewrite Hslots.
    replace (length (slots_after chunk f total total) =? 0)%nat with false.
    2:{ symmetry. apply Nat.eqb_neq. unfold slots_after.
        rewrite length_app, length_map, length_seq, length_replicate. lia. }
    cbn [fst download]. unfold new_Blob. f_equal. f_equal.
    apply blob_of_full_slots. fold size. lia. }
  intros Hs Hc.
  assert (Hc' : chunk = Z.to_nat 16384) by lia.
  assert (Hs' : size = Z.to_nat 40000) by lia.
  assert (Htotal : total = 3%nat).
  { unfold total, Math_ceil_div. rewrite Hc', Hs'. reflexivity. }
  split; [exact Htotal|].
  rewrite Htotal. cbn [seq map].
  rewrite !Hrange, !chunk_bytes_length. fold size.
  repeat f_equal; lia.
Qed.

End FileTransfer.

(** ** The relay *)

Section Relay.

Context (JSON_parse : string → option json).

Lemma ws_send_lookup (c c' : nat) (text : string) (sv : Server) :
  sockets (ws_send c text sv) !! c'
  = if decide (c = c')
    then (fun k => if (ws_readyState k =? 1)%Z then forwarded text k else k)
           <$> sockets sv !! c'
    else sockets sv !! c'.
Proof.
  unfold ws_send. cbn [sockets]. destruct (decide (c = c')) as [->|Hne].
  - by rewrite lookup_alter_eq.
  - by rewrite lookup_alter_ne.
Qed.

Lemma relay_to_spec (ws : nat) (text : string) (clients : list nat) :
  NoDup clients →
  ∀ sv,
    rooms (relay_to ws text clients sv) = rooms sv
    ∧ nextRef (relay_to ws text clients sv) = nextRef sv
    ∧ ∀ c,
        sockets (relay_to ws text clients sv) !! c
        = (fun k =>
             if decide (c ∈ clients ∧ c ≠ ws ∧ ws_readyState k = 1%Z)
             then forwarded text k else k) <$> sockets sv !! c.
Proof.
  induction 1 as [|x clients Hx _ IH]; intros sv.
  - cbn. repeat split. intros c. destruct (sockets sv !! c) as [k|]; cbn;
      [|reflexivity].
    rewrite decide_False; [reflexivity|]. intros [Hin _]. by inversion Hin.
  - cbn [relay_to fold_left].
    set (sv1 := match sockets sv !! x with
                | Some k =>
                    if negb (x =? ws)%nat && (ws_readyState k =? 1)%Z
                    then ws_send x text sv else sv
                | None => sv
                end).
    destruct (IH sv1) as (Hr & Hn & Hs). fold (relay_to ws text clients sv1).
    assert (Hsv1 : rooms sv1 = rooms sv ∧ nextRef sv1 = nextRef sv).
    { subst sv1. destruct (sockets sv !! x) as [k|]; [|done].
      destruct (negb (x =? ws)%nat && (ws_readyState k =? 1)%Z); done. }
    split; [rewrite Hr; apply Hsv1|]. split; [rewrite Hn; apply Hsv1|].
    intros c. rewrite Hs.
    assert (Hc : sockets sv1 !! c
                 = (fun k => if decide (c = x ∧ c ≠ ws ∧ ws_readyState k = 1%Z)
                             then forwarded text k else k) <$> sockets sv !! c).
    { subst sv1. destruct (decide (c = x)) as [->|Hne].
      - destruct (sockets sv !! x) as [k|] eqn:Hk; [|by rewrite Hk].
        destruct (Nat.eqb_spec x ws) as [->|Hxw]; cbn [negb andb].
        + rewrite Hk. cbn. rewrite decide_False; [done|]. intuition congruence.
        + destruct (Z.eqb_spec (ws_readyState k) 1) as [Ho|Ho].
          * rewrite ws_send_lookup, decide_True by done. rewrite Hk. cbn.
            apply Z.eqb_eq in Ho as Ho'. rewrite Ho'.
            rewrite decide_True; done.
          * rewrite Hk. cbn. rewrite decide_False; [done|]. intuition congruence.
      - assert (Hsame : sockets
                          match sockets sv !! x with
                          | Some k =>
                              if negb (x =? ws)%nat && (ws_readyState k =? 1)%Z
                              then ws_send x text sv else sv
                          | None => sv
                          end !! c = sockets sv !! c).
        { destruct (sockets sv !! x) as [k|]; [|done].
          destruct (negb (x =? ws)%nat && (ws_readyState k =? 1)%Z); [|done].
          rewrite ws_send_lookup. by rewrite decide_False by done. }
        rewrite Hsame. destruct (sockets sv !! c) as [k|]; cbn; [|done].
        rewrite decide_False; [done|]. intuition congruence. }
    rewrite Hc. destruct (sockets sv !! c) as [k|]; cbn; [|reflexivity].
    f_equal.
    destruct (decide (c = x)) as [->|Hne].
    + destruct (decide (x ≠ ws ∧ ws_readyState k = 1%Z)) as [[Hw Ho]|Hno].
      * rewrite (decide_True (P := x = x ∧ _)) by done.
        rewrite decide_False by (cbn; intros [Hin _]; done).
        rewrite decide_True; [done|]. split; [by left|done].
      * rewrite (decide_False (P := x = x ∧ _)) by intuition congruence.
        rewrite decide_False by intuition congruence.
        rewrite decide_False by intuition congruence. done.
    + rewrite (decide_False (P := c = x ∧ _)) by intuition congruence.
      destruct (decide (c ∈ clients ∧ c ≠ ws ∧ ws_readyState k = 1%Z))
        as [(Hin & Hw & Ho)|Hno].
      * rewrite decide_True; [done|]. split; [by right|done].
      * rewrite decide_False; [done|]. intros (Hin & Hw & Ho). apply Hno.
        split; [|done]. by inversion Hin; subst.
Qed.


End Relay.

(** ** Examples on concrete inputs *)

Example btoa_Man : Base64.btoa "Man" = "TWFu".
Proof. reflexivity. Qed.

Example btoa_padding : Base64.btoa "M" = "TQ==" ∧ Base64.btoa "Ma" = "TWE=".
Proof. split; reflexivity. Qed.

Example atob_forgiving :
  Base64.atob " TW E" = Some "Ma" ∧ Base64.atob "undefined" = None.
Proof. split; reflexivity. Qed.

Example ack_frame_length : String.length (JSON_stringify ack0) = 19%nat.
Proof. reflexivity. Qed.

Example ceil_of_40000 : Math_ceil_div (Z.to_nat 40000) CHUNK_SIZE = 3%nat.
Proof. reflexivity. Qed.

(** [new Array] takes lengths up to [2^32 - 1]; an array index goes up to
    [2^32 - 2]. *)
Example array_limits :
  new_Array (Some (JNum (2 ^ 32))) = None
  ∧ array_index (Some (JNum (2 ^ 32 - 1))) = None
  ∧ array_index (Some (JStr "7")) = Some 7%nat
  ∧ array_index (Some (JStr "07")) = None.
Proof. repeat split; reflexivity. Qed.

(** Two joins create the room and fill it, and each socket is told so;
    the room goes when its last member closes. *)
Example joins_fill_the_room :
  let raw := JSON_stringify join_room_A in
  let sv := on_message demo_parse 2 raw
              (on_message demo_parse 1 raw three_sockets) in
  rooms sv !! KeyStr "room-A" = Some {[ 1%nat; 2%nat ]}
  ∧ ws_sent <$> sockets sv !! 1%nat
    = Some [JSON_stringify
              (JObj [("type", JStr "joined"); ("roomId", JStr "room-A")])]
  ∧ ws_roomId <$> sockets sv !! 2%nat = Some (Some (KeyStr "room-A"))
  ∧ rooms (on_close 1 sv) !! KeyStr "room-A" = Some {[ 2%nat ]}
  ∧ size (rooms (on_close 2 (on_close 1 sv))) = 0%nat.
Proof. vm_compute. repeat split; reflexivity. Qed.

(** C1 fails for the empty file: [sendFile] announces 0 chunks, the receiver
    allocates an empty buffer and ignores [file-complete], so no blob is
    offered, where the claim promises the (empty) byte sequence back; after
    an earlier transfer the blob on offer is still that of the earlier
    file. *)
Lemma empty_file_not_reassembled :
  Math_ceil_div (file_size empty_file) CHUNK_SIZE = 0%nat
  ∧ sendFile empty_file = [file_meta empty_file 0; file_complete]
  ∧ download (deliver_all (sendFile empty_file) initial_receiver) = None
  ∧ download (deliver_all (sendFile empty_file) initial_receiver)
    ≠ Some (mkBlob (file_bytes empty_file) octet_stream)
  ∧ download (deliver_all (sendFile abc_file ++ sendFile empty_file)
                          initial_receiver)
    = Some (mkBlob (file_bytes abc_file) octet_stream).
Proof.
  split; [reflexivity|]. split; [reflexivity|].
  split; [vm_compute; reflexivity|].
  split; vm_compute; [discriminate|reflexivity].
Qed.

(** C2 at the second expiry, where the code does not do what its comment
    ("try sending again") and the claim say.  After [send] and one expiry,
    timer 2 is the session's pending [timeoutMs] timer, sequence number 0
    is still awaited and the channel is open; when timer 2 expires no frame
    is handed to the channel, [retransmits] stays at 1, no timer is left
    pending and nothing is reported. *)
Lemma second_expiry_is_silent :
  let w1 := fst (fire 1 busy_world) in
  let w2 := fst (fire 2 w1) in
  (retransmits (stats (state w1)) = 1%Z
   ∧ length (frames_of 0 w1) = 2%nat
   ∧ timer (state w1) = Some 2%nat
   ∧ delay <$> timers w1 !! 2%nat = Some (timeoutMs (state w1))
   ∧ awaitingAckSeq (state w1) = Some 0%Z
   ∧ channel_open 0 w1 = true)
  ∧ (frames_of 0 w2 = frames_of 0 w1
     ∧ retransmits (stats (state w2)) = 1%Z
     ∧ retransmits (stats (state w2))
       ≠ (retransmits (stats (state w1)) + 1)%Z
     ∧ timers w2 = ∅
     ∧ awaitingAckSeq (state w2) = Some 0%Z
     ∧ snapshots w2 = snapshots w1).
Proof.
  vm_compute. repeat split; try reflexivity.
  intros H. inversion H.
Qed.

(** C8 fails for an index past the end: after a [file-meta] announcing two
    chunks the buffer has two slots, and a [file-chunk] for index 5 leaves
    it with six. *)
Lemma chunk_past_the_end_grows_buffer :
  let r0 := fst (onDeliver (Some meta_of_two) initial_receiver) in
  let r1 := onDeliver (Some (chunk_at 5)) r0 in
  length (recvChunks r0) = 2%nat
  ∧ snd r1 = Normal
  ∧ length (recvChunks (fst r1)) = 6%nat
  ∧ recvChunks (fst r1) !! 5%nat
    = Some (Some (VBytes [Byte.x41; Byte.x42; Byte.x43])).
Proof. vm_compute. repeat split; reflexivity. Qed.

(** ** The theorems at concrete inputs *)

(** [send] on the busy session. *)
Lemma send_backpressure_witness :
  awaitingAckSeq (state busy_world) ≠ None
  ∧ send 5 (Some 0%nat) file_complete busy_world = (busy_world, false).
Proof.
  assert (Hbusy : awaitingAckSeq (state busy_world) ≠ None)
    by (vm_compute; discriminate).
  split; [exact Hbusy|].
  apply send_backpressure. right. exact Hbusy.
Defined.

(** An acknowledgement of number 1 while number 0 is awaited. *)
Lemma stale_ack_ignored_witness :
  is_ack_for demo_parse (JSON_stringify ack1) 1
  ∧ awaitingAckSeq (state busy_world) ≠ Some 1%Z
  ∧ handleIncoming demo_parse 9 0 (JSON_stringify ack1) busy_world
    = (busy_world, Normal).
Proof.
  assert (Hack : is_ack_for demo_parse (JSON_stringify ack1) 1).
  { exists ack1. vm_compute. repeat split; reflexivity. }
  assert (Hstale : awaitingAckSeq (state busy_world) ≠ Some 1%Z)
    by (vm_compute; discriminate).
  split; [exact Hack|]. split; [exact Hstale|].
  apply (stale_ack_ignored demo_parse 9 0 _ 1 busy_world Hack Hstale).
Defined.

(** The frame [Data{seq = 7, hello}] delivered twice to a fresh session. *)
Lemma data_frame_acked_and_delivered_witness :
  let raw := JSON_stringify (data_frame 7 hello) in
  let ack := JSON_stringify (ack_frame (Some (JNum 7))) in
  let r1 := handleIncoming demo_parse 3 0 raw fresh_world in
  let r2 := handleIncoming demo_parse 4 0 raw (fst r1) in
  is_data demo_parse raw (data_frame 7 hello)
  ∧ channel_open 0 fresh_world = true
  ∧ frames_of 0 (fst r1) = [ack]
  ∧ delivered (fst r1) = [Some hello]
  ∧ frames_of 0 (fst r2) = [ack; ack]
  ∧ delivered (fst r2) = [Some hello; Some hello]
  ∧ get "t" (ack_frame (Some (JNum 7))) = Some (JStr "ack")
  ∧ get "seq" (ack_frame (Some (JNum 7))) = Some (JNum 7).
Proof.
  intros raw ack r1 r2.
  assert (Hdata : is_data demo_parse raw (data_frame 7 hello))
    by (vm_compute; split; reflexivity).
  assert (Hopen : channel_open 0 fresh_world = true) by reflexivity.
  split; [exact Hdata|]. split; [exact Hopen|].
  destruct (data_frame_acked_and_delivered demo_parse 3 4 0 raw
              (data_frame 7 hello) fresh_world Hdata Hopen)
    as [(_ & _ & _ & Hf1 & Hd1) [(_ & _ & Hf2 & Hd2) (Ht & Hseq & _)]].
  split; [exact Hf1|]. split; [exact Hd1|]. split; [exact Hf2|].
  split; [exact Hd2|]. split; [exact Ht|exact Hseq].
Defined.

(** Two acknowledged sends from a fresh session carry the numbers 0 and
    1. *)
Lemma send_success_witness :
  channel_open 0 fresh_world = true
  ∧ awaitingAckSeq (state fresh_world) = None
  ∧ (∀ i r, two_rounds !! i = Some r →
            is_ack_for demo_parse (ack_raw r) (Z.of_nat i mod 2 ^ 32))
  ∧ snd (send 0 (Some 0%nat) hello fresh_world) = true
  ∧ nextSeq (state (fst (send 0 (Some 0%nat) hello fresh_world))) = 1%Z
  ∧ snd (exchange demo_parse 0 two_rounds fresh_world) = [true; true]
  ∧ frames_of 0 (fst (exchange demo_parse 0 two_rounds fresh_world))
    = [JSON_stringify (data_frame 0 hello);
       JSON_stringify (data_frame 1 file_complete)]
  ∧ get "seq" (data_frame 0 hello) = Some (JNum 0)
  ∧ get "payload" (data_frame 0 hello) = Some hello.
Proof.
  assert (Hopen : channel_open 0 fresh_world = true) by reflexivity.
  assert (Hidle : awaitingAckSeq (state fresh_world) = None) by reflexivity.
  assert (Hacks : ∀ i r, two_rounds !! i = Some r →
            is_ack_for demo_parse (ack_raw r) (Z.of_nat i mod 2 ^ 32)).
  { intros [|[|i]] r Hr; [| |discriminate Hr].
    - injection Hr as <-. exists ack0. vm_compute. repeat split; reflexivity.
    - injection Hr as <-. exists ack1. vm_compute. repeat split; reflexivity. }
  destruct (send_success demo_parse 0 0 hello fresh_world two_rounds
              one_open_channel) as [Hpost Hnumbers].
  destruct (Hpost Hopen Hidle)
    as (Hok & _ & _ & _ & _ & _ & _ & _ & _ & _ & _ & _ & _ & _ & _ & _
        & Hnext & _ & Hseq & Hpayload & _).
  destruct (Hnumbers Hopen Hacks) as (Hoks & Hframes & _).
  split; [exact Hopen|]. split; [exact Hidle|]. split; [exact Hacks|].
  split; [exact Hok|]. split; [exact Hnext|]. split; [exact Hoks|].
  split; [exact Hframes|]. split; [exact Hseq|exact Hpayload].
Defined.

(** The first round-trip sample of a session. *)
Lemma rtt_history_bounded_witness :
  let w := run demo_parse [EvSend 0 (Some 0%nat) hello] fresh_world in
  is_ack_for demo_parse (JSON_stringify ack0) 0
  ∧ awaitingAckSeq (state w) = Some 0%Z
  ∧ (length (rttHistory (state w)) ≤ 40)%nat
  ∧ rttHistory
      (state (fst (handleIncoming demo_parse 12 0 (JSON_stringify ack0) w)))
    = rttHistory (state w) ++ [Math_round (12 - inflightTimestamp (state w))].
Proof.
  intros w.
  assert (Hack : is_ack_for demo_parse (JSON_stringify ack0) 0).
  { exists ack0. vm_compute. repeat split; reflexivity. }
  assert (Hawait : awaitingAckSeq (state w) = Some 0%Z) by reflexivity.
  destruct (rtt_history_bounded demo_parse [EvSend 0 (Some 0%nat) hello]
              one_open_channel) as [Hlen Hpush].
  destruct (Hpush 12%Q 0%nat (JSON_stringify ack0) 0%Z Hack Hawait)
    as (Hroom & _ & _).
  split; [exact Hack|]. split; [exact Hawait|]. split; [exact Hlen|].
  apply Hroom. vm_compute. lia.
Defined.

(** The first and the second expiry after [hello] was sent. *)
Lemma retransmission_on_expiry_witness :
  let frame := JSON_stringify (data_frame 0 hello) in
  let w3 := fst (fire 1 busy_world) in
  let w4 := fst (fire 2 w3) in
  channel_open 0 fresh_world = true
  ∧ awaitingAckSeq (state fresh_world) = None
  ∧ timers busy_world !! 1%nat = Some (mkTimer 600 (Retransmit 0 0 hello))
  ∧ awaitingAckSeq (state busy_world) = Some 0%Z
  ∧ channel_open 0 busy_world = true
  ∧ frames_of 0 w3 = frames_of 0 busy_world ++ [frame]
  ∧ retransmits (stats (state w3))
    = (retransmits (stats (state busy_world)) + 1)%Z
  ∧ timers w3 !! 2%nat = Some (mkTimer 600 EmptyCallback)
  ∧ channels w4 = channels w3
  ∧ retransmits (stats (state w4))
    = (retransmits (stats (state busy_world)) + 1)%Z
  ∧ awaitingAckSeq (state w4) = Some 0%Z.
Proof.
  intros frame w3 w4.
  assert (Hopen : channel_open 0 fresh_world = true) by reflexivity.
  assert (Hidle : awaitingAckSeq (state fresh_world) = None) by reflexivity.
  assert (Hpending : timers busy_world !! 1%nat
                     = Some (mkTimer 600 (Retransmit 0 0 hello)))
    by (vm_compute; reflexivity).
  assert (Hawait : awaitingAckSeq (state busy_world) = Some 0%Z)
    by reflexivity.
  assert (Hopen2 : channel_open 0 busy_world = true)
    by (vm_compute; reflexivity).
  destruct (retransmission_on_expiry 0 0 hello fresh_world busy_world 1
              busy_world Hopen Hidle Hpending Hawait Hopen2)
    as (_ & (_ & Hframes & _ & Hretransmits & _ & _ & _ & _ & _ & _ & Harmed)
        & (_ & _ & Hchannels & _ & _ & _ & Hstill & Hsame) & _).
  split; [exact Hopen|]. split; [exact Hidle|]. split; [exact Hpending|].
  split; [exact Hawait|]. split; [exact Hopen2|].
  split; [exact Hframes|]. split; [exact Hretransmits|].
  split; [exact Harmed|]. split; [exact Hchannels|].
  split; [exact Hsame|exact Hstill].
Defined.

(** [file-complete] on a receiver that saw no [file-meta], and the empty
    file. *)
Lemma absent_transfer_dropped_witness :
  length (recvChunks initial_receiver) = 0%nat
  ∧ is_str "file-complete" (get "kind" file_complete) = true
  ∧ file_bytes empty_file = []
  ∧ onDeliver (Some file_complete) initial_receiver
    = (initial_receiver, Normal)
  ∧ download (deliver_all (sendFile empty_file) initial_receiver)
    = download initial_receiver.
Proof.
  destruct (absent_transfer_dropped file_complete initial_receiver empty_file)
    as (Hguard & Hlen & Hempty).
  split; [exact Hlen|]. split; [reflexivity|]. split; [reflexivity|].
  split; [apply Hguard; [exact Hlen|right; reflexivity]|].
  apply Hempty. reflexivity.
Defined.

(** Two announced chunks, then chunks for the indices 1, 0 and 1 again. *)
Lemma slot_buffer_length_witness :
  let r0 := fst (onDeliver (Some meta_of_two) initial_receiver) in
  is_str "file-meta" (get "kind" meta_of_two) = true
  ∧ get "totalChunks" meta_of_two = Some (JNum 2)
  ∧ is_str "file-chunk" (get "kind" (chunk_at 1)) = true
  ∧ get "index" (chunk_at 1) = Some (JNum 1)
  ∧ length (recvChunks r0) = Z.to_nat 2
  ∧ length (recvChunks (deliver_all [chunk_at 1; chunk_at 0; chunk_at 1] r0))
    = Z.to_nat 2.
Proof.
  intros r0.
  assert (Hchunks :
    Forall (fun c => is_str "file-chunk" (get "kind" c) = true
                     ∧ ∃ j, get "index" c = Some (JNum j) ∧ (0 ≤ j < 2)%Z)
           [chunk_at 1; chunk_at 0; chunk_at 1]).
  { repeat constructor; (eexists; split; [reflexivity|lia]). }
  destruct (slot_buffer_length 2 1 meta_of_two (chunk_at 1) initial_receiver
              initial_receiver [chunk_at 1; chunk_at 0; chunk_at 1]
              eq_refl eq_refl ltac:(lia) eq_refl eq_refl ltac:(lia) Hchunks)
    as (Hmeta & _ & _ & _ & _ & Hkept).
  split; [reflexivity|]. split; [reflexivity|]. split; [reflexivity|].
  split; [reflexivity|]. split; [exact Hmeta|exact Hkept].
Defined.

(** A file of 40000 zero bytes sent in chunks of 16384. *)
Lemma file_round_trip_witness :
  (0 < CHUNK_SIZE)%nat
  ∧ (0 < file_size file_40000)%nat
  ∧ (Z.of_nat (Math_ceil_div (file_size file_40000) CHUNK_SIZE) < 2 ^ 32)%Z
  ∧ Math_ceil_div (file_size file_40000) CHUNK_SIZE = 3%nat
  ∧ download (deliver_all (sendFile_with CHUNK_SIZE file_40000)
                          initial_receiver)
    = Some (mkBlob (file_bytes file_40000) octet_stream).
Proof.
  assert (Hsize : file_size file_40000 = Z.to_nat 40000).
  { unfold file_size, file_40000. cbn [file_bytes]. apply repeat_length. }
  assert (Hchunk : (0 < CHUNK_SIZE)%nat) by (vm_compute; lia).
  assert (Hpos : (0 < file_size file_40000)%nat) by (rewrite Hsize; lia).
  assert (Htotal : Math_ceil_div (file_size file_40000) CHUNK_SIZE = 3%nat)
    by (rewrite Hsize; reflexivity).
  assert (Hbound :
    (Z.of_nat (Math_ceil_div (file_size file_40000) CHUNK_SIZE) < 2 ^ 32)%Z)
    by (rewrite Htotal; lia).
  destruct (file_round_trip CHUNK_SIZE file_40000 initial_receiver
              Hchunk Hpos Hbound) as (_ & _ & _ & _ & Hblob & _).
  split; [exact Hchunk|]. split; [exact Hpos|]. split; [exact Hbound|].
  split; [exact Htotal|exact Hblob].
Defined.


(** * Further properties *)

(** ** The session in every reachable world *)

Section More.
Context (JSON_parse : string → option json).

Lemma send_cases now dc payload w :
  send now dc payload w = (w, false)
  ∨ ∃ c, dc = Some c ∧ channel_open c w = true
         ∧ awaitingAckSeq (state w) = None
         ∧ send now dc payload w = (sent_world now c payload w, true).
Proof.
  destruct dc as [c|]; [|by left].
  destruct (channel_open c w) eqn:Hopen.
  - destruct (awaitingAckSeq (state w)) eqn:Hidle.
    + left. unfold send. by rewrite Hopen, Hidle.
    + right. exists c. repeat split; try done. by apply send_accepts.
  - left. unfold send. by rewrite Hopen.
Qed.

Lemma fire_cases id w :
  (timers w !! id = None ∧ fire id w = (w, Normal))
  ∨ ∃ t, timers w !! id = Some t
         ∧ (fire id w = (without_timer id w, Normal)
            ∨ fire id w = (without_timer id w, Throw InvalidStateError)
            ∨ ∃ c seq payload,
                callback t = Retransmit c seq payload
                ∧ awaitingAckSeq (state w) = Some seq
                ∧ channel_open c w = true
                ∧ fire id w
                  = (retransmitted_world c seq payload (without_timer id w),
                     Normal)).
Proof.
  unfold fire. destruct (timers w !! id) as [t|] eqn:Ht; [right|by left].
  exists t. split; [done|]. fold (without_timer id w).
  destruct (callback t) as [c seq payload|] eqn:Hcb; cbn [run_callback];
    [|by left].
  change (awaitingAckSeq (state (without_timer id w)))
    with (awaitingAckSeq (state w)).
  destruct (awaitingAckSeq (state w)) as [a|] eqn:Ha; [|by left].
  destruct (Z.eqb_spec a seq) as [->|Hne]; [|by left].
  unfold dc_send.
  rewrite (channel_open_channels c (without_timer id w) w) by reflexivity.
  destruct (channel_open c w) eqn:Hopen; [|right; by left].
  right; right. exists c, seq, payload. repeat split; try done.
  unfold retransmitted_world, clear_timer. cbn.
  destruct (timer (state w)); reflexivity.
Qed.

Lemma handle_cases now dc raw w :
  handleIncoming JSON_parse now dc raw w = (w, Normal)
  ∨ handleIncoming JSON_parse now dc raw w = (w, Throw TypeError)
  ∨ (∃ msg, is_data JSON_parse raw msg
            ∧ (channel_open dc w = false
               ∧ handleIncoming JSON_parse now dc raw w
                 = (counted_world (String.length raw) w,
                    Throw InvalidStateError)
               ∨ channel_open dc w = true
                 ∧ handleIncoming JSON_parse now dc raw w
                   = (received_world dc (String.length raw)
                        (JSON_stringify (ack_frame (get "seq" msg)))
                        (get "payload" msg) w, Normal)))
  ∨ (∃ msg, JSON_parse raw = Some msg
            ∧ is_str "ack" (get "t" msg) = true
            ∧ awaits (awaitingAckSeq (state w)) (get "seq" msg) = true
            ∧ handleIncoming JSON_parse now dc raw w
              = (acked_world now w, Normal)).
Proof.
  unfold handleIncoming. destruct (JSON_parse raw) as [msg|] eqn:Hparse;
    [|by left].
  unfold handle_message.
  destruct msg as [| | | | |fs]; try (by left); [right; by left|].
  destruct (is_str "data" (get "t" (JObj fs))) eqn:Hdata.
  - right; right; left. exists (JObj fs). split; [done|].
    unfold dc_send.
    match goal with |- context [channel_open dc ?x] =>
      rewrite (channel_open_channels dc x w) by reflexivity end.
    destruct (channel_open dc w); [right|left]; split; reflexivity.
  - destruct (is_str "ack" (get "t" (JObj fs))) eqn:Hack; [|by left].
    destruct (awaits _ _) eqn:Hawaits; [|by left].
    right; right; right. exists (JObj fs). repeat split; try done.
    unfold acked_world, clear_timer, update, with_state. cbn.
    destruct (timer (state w)); reflexivity.
Qed.


Lemma last_snoc_Some {A} (l : list A) (x : A) : last (l ++ [x]) = Some x.
Proof. apply last_snoc. Qed.

Lemma armed_no_timers w : timers w = ∅ → retransmission_armed w = 0%Z.
Proof.
  intros H. unfold retransmission_armed. rewrite H.
  destruct (timer (state w)); [by rewrite lookup_empty|done].
Qed.

Lemma armed_bounds w : (0 ≤ retransmission_armed w ≤ 1)%Z.
Proof. unfold retransmission_armed. repeat case_match; lia. Qed.

Lemma in_flight_bounds w : (0 ≤ in_flight w ≤ 1)%Z.
Proof. unfold in_flight. case_match; lia. Qed.

Lemma to_uint32_range x : (0 ≤ to_uint32 x < 2 ^ 32)%Z.
Proof. unfold to_uint32. apply Z.mod_pos_bound. lia. Qed.

Lemma inv_initial chans : session_inv (initial_world chans).
Proof.
  constructor; cbn; try done; try lia; by left.
Qed.

Lemma inv_sent_world now c payload w :
  session_inv w → awaitingAckSeq (state w) = None →
  session_inv (sent_world now c payload w).
Proof.
  intros [Ht Hi Ha Hp Hs Hw Hc Ho Hwin Hobs] Hidle.
  pose proof (Hi Hidle) as Hempty.
  pose proof (armed_no_timers w Hempty) as Harmed.
  assert (Hfl : in_flight w = 0%Z) by (unfold in_flight; by rewrite Hidle).
  constructor; cbn [sent_world state timers awaitingAckSeq inflightPayload
                    nextSeq stats snapshots timer].
  - right. exists (nextTimerId w), (mkTimer (timeoutMs (state w))
                     (Retransmit c (nextSeq (state w)) payload)).
    split; [done|]. by rewrite Hempty, insert_empty.
  - discriminate.
  - intros id d c' seq p Hl. rewrite Hempty, insert_empty in Hl.
    apply lookup_singleton_Some in Hl as [_ Hl]. by simplify_eq.
  - discriminate.
  - apply to_uint32_range.
  - intros seq Hseq. simplify_eq. split; [exact Hs|done].
  - cbn. lia.
  - unfold retransmission_armed, accepted in *. cbn.
    rewrite lookup_insert_eq. cbn. lia.
  - unfold accepted, in_flight in *. cbn. rewrite Hidle in Hwin. lia.
  - by rewrite last_snoc.
Qed.

Lemma inv_acked_world now w : session_inv w → session_inv (acked_world now w).
Proof.
  intros [Ht Hi Ha Hp Hs Hw Hc Ho Hwin Hobs].
  assert (Hempty :
    match timer (state w) with
    | Some id => delete id (timers w)
    | None => timers w
    end = ∅).
  { destruct Ht as [Ht|(id & t & Hid & Ht)].
    - rewrite Ht. destruct (timer (state w)); [apply delete_empty|done].
    - rewrite Hid, Ht. apply delete_singleton_eq. }
  pose proof (armed_bounds w). pose proof (in_flight_bounds w).
  constructor; cbn [acked_world state timers awaitingAckSeq inflightPayload
                    nextSeq stats snapshots timer].
  - by left.
  - done.
  - intros id d c seq p Hl. rewrite Hempty in Hl. by rewrite lookup_empty in Hl.
  - done.
  - exact Hs.
  - discriminate.
  - cbn. lia.
  - unfold retransmission_armed, accepted in *. cbn. rewrite Hempty.
    destruct (timer (state w)); [rewrite lookup_empty|]; lia.
  - unfold accepted, in_flight in *. cbn. lia.
  - by rewrite last_snoc.
Qed.

Lemma inv_counted_world len w :
  session_inv w → session_inv (counted_world len w).
Proof.
  intros [Ht Hi Ha Hp Hs Hw Hc Ho Hwin Hobs].
  constructor; try assumption.
  - cbn. lia.
  - cbn. by rewrite last_snoc.
Qed.

Lemma inv_received_world dc len ack payload w :
  session_inv w → session_inv (received_world dc len ack payload w).
Proof.
  intros H. apply (inv_counted_world len) in H.
  destruct H as [Ht Hi Ha Hp Hs Hw Hc Ho Hwin Hobs].
  constructor; assumption.
Qed.

Lemma pending_is_the_timer id t w :
  session_inv w → timers w !! id = Some t →
  timer (state w) = Some id ∧ timers w = {[ id := t ]}.
Proof.
  intros [Ht _ _ _ _ _ _ _ _ _] Hl.
  destruct Ht as [Ht|(id' & t' & Hid & Ht)].
  - by rewrite Ht, lookup_empty in Hl.
  - rewrite Ht in Hl. apply lookup_singleton_Some in Hl as [-> ->]. done.
Qed.

Lemma inv_without_timer id t w :
  session_inv w → timers w !! id = Some t →
  session_inv (without_timer id w).
Proof.
  intros Hinv Hl. destruct (pending_is_the_timer id t w Hinv Hl) as [Hid Hts].
  destruct Hinv as [Ht Hi Ha Hp Hs Hw Hc Ho Hwin Hobs].
  assert (Hempty : delete id (timers w) = ∅)
    by (rewrite Hts; apply delete_singleton_eq).
  pose proof (armed_bounds w).
  constructor; try assumption; cbn [without_timer timers state].
  - by left.
  - done.
  - intros id' d c seq p Hl'. rewrite Hempty in Hl'.
    by rewrite lookup_empty in Hl'.
  - unfold retransmission_armed, accepted in *. cbn. rewrite Hempty.
    destruct (timer (state w)); [rewrite lookup_empty|]; lia.
Qed.

Lemma inv_retransmitted_world id t c seq payload w :
  session_inv w → timers w !! id = Some t →
  callback t = Retransmit c seq payload →
  session_inv (retransmitted_world c seq payload (without_timer id w)).
Proof.
  intros Hinv Hl Hcb.
  destruct (pending_is_the_timer id t w Hinv Hl) as [Hid Hts].
  destruct t as [d cb]. cbn in Hcb. subst cb.
  destruct Hinv as [Ht Hi Ha Hp Hs Hw Hc Ho Hwin Hobs].
  destruct (Ha id d c seq payload Hl) as [Hawait Hpay].
  assert (Harmed : retransmission_armed w = 1%Z).
  { unfold retransmission_armed. by rewrite Hid, Hl. }
  assert (Hempty :
    match timer (state w) with
    | Some id' => delete id' (delete id (timers w))
    | None => delete id (timers w)
    end = ∅).
  { rewrite Hid, Hts, delete_singleton_eq. apply delete_empty. }
  constructor;
    cbn [retransmitted_world without_timer state timers awaitingAckSeq
         inflightPayload nextSeq stats snapshots timer nextTimerId].
  - right. eexists _, _. split; [done|]. by rewrite Hempty, insert_empty.
  - rewrite Hawait. discriminate.
  - intros id' d' c' seq' p' Hl'. rewrite Hempty, insert_empty in Hl'.
    apply lookup_singleton_Some in Hl' as [_ Hl']. discriminate.
  - exact Hp.
  - exact Hs.
  - exact Hw.
  - cbn. lia.
  - unfold retransmission_armed, accepted in *. cbn.
    rewrite lookup_insert_eq. cbn. lia.
  - unfold accepted, in_flight in *. cbn. lia.
  - by rewrite last_snoc.
Qed.

Lemma inv_step e w :
  session_inv w → session_inv (apply_event JSON_parse e w).
Proof.
  intros Hinv. destruct e as [now dc payload|now dc raw|id|chans];
    cbn [apply_event].
  - destruct (send_cases now dc payload w) as [->|(c & _ & _ & Hidle & ->)];
      [done|]. by apply inv_sent_world.
  - destruct (handle_cases now dc raw w)
      as [->|[->|[(msg & _ & [[_ ->]|[_ ->]])|(msg & _ & _ & _ & ->)]]];
      cbn [fst]; try done.
    + by apply inv_counted_world.
    + by apply inv_received_world.
    + by apply inv_acked_world.
  - destruct (fire_cases id w)
      as [[_ ->]|(t & Hl & [->|[->|(c & seq & p & Hcb & _ & _ & ->)]])];
      cbn [fst]; try done.
    + by apply (inv_without_timer id t).
    + by apply (inv_without_timer id t).
    + by apply (inv_retransmitted_world id t).
  - destruct Hinv as [Ht Hi Ha Hp Hs Hw Hc Ho Hwin Hobs].
    constructor; assumption.
Qed.

Lemma inv_run es chans :
  session_inv (run JSON_parse es (initial_world chans)).
Proof.
  induction es as [|e es IH] using rev_ind; [apply inv_initial|].
  rewrite run_snoc. by apply inv_step.
Qed.


(** X1.  Bookkeeping of the message in flight.  In every world a fresh
    session can reach: while the sender is idle ([awaitingAckSeq] is
    [null]) [inflightPayload] is [null]; [nextSeq] is an unsigned 32-bit
    number; and the awaited number, when there is one, is such a number
    too and is the one just before [nextSeq].  The first part has no
    converse: [send] accepts a payload that is [null], and then number 0
    is awaited, the frame carries [null] as its payload, and
    [inflightPayload] is [null]. *)
Theorem in_flight_bookkeeping (es : list Event) (chans : gmap nat Channel) :
  let w := run JSON_parse es (initial_world chans) in
  (awaitingAckSeq (state w) = None →
   field_value (inflightPayload (state w)) = JNull)
  ∧ (0 ≤ nextSeq (state w) < 2 ^ 32)%Z
  ∧ match awaitingAckSeq (state w) with
    | Some seq =>
        (0 ≤ seq < 2 ^ 32)%Z
        ∧ nextSeq (state w) = ((seq + 1) mod 2 ^ 32)%Z
    | None => True
    end
  ∧ (∀ now c, channel_open c (initial_world chans) = true →
       let w0 := run JSON_parse [EvSend now (Some c) JNull]
                     (initial_world chans) in
       awaitingAckSeq (state w0) = Some 0%Z
       ∧ field_value (inflightPayload (state w0)) = JNull
       ∧ frames_of c w0
         = frames_of c (initial_world chans)
             ++ [JSON_stringify (data_frame 0 JNull)]).
Proof.
  intros w. destruct (inv_run es chans) as [_ _ _ Hp Hs Hw _ _ _ _].
  fold w in Hp, Hs, Hw.
  split; [intros Hidle; by rewrite (Hp Hidle)|]. split; [exact Hs|].
  split; [destruct (awaitingAckSeq (state w)) as [seq|]; [by apply Hw|done]|].
  intros now c Hopen w0. subst w0. cbn [run fold_left apply_event].
  rewrite (send_accepts _ _ _ _ Hopen eq_refl). cbn [fst].
  split; [reflexivity|]. split; [reflexivity|].
  by rewrite frames_of_sent_world.
Qed.

(** X2.  One timer at most.  In every world a fresh session can reach, the
    pending timers are none, or exactly the one [state.timer] names; none
    is pending while the sender is idle; and a pending retransmission
    callback is the one of the message in flight: it holds the awaited
    number and the in-flight payload. *)
Theorem one_timer_at_most (es : list Event) (chans : gmap nat Channel) :
  let w := run JSON_parse es (initial_world chans) in
  (timers w = ∅
   ∨ ∃ id t, timer (state w) = Some id ∧ timers w = {[ id := t ]})
  ∧ (awaitingAckSeq (state w) = None → timers w = ∅)
  ∧ (∀ id d c seq payload,
       timers w !! id = Some (mkTimer d (Retransmit c seq payload)) →
       awaitingAckSeq (state w) = Some seq
       ∧ inflightPayload (state w) = Some payload).
Proof.
  intros w. destruct (inv_run es chans) as [Ht Hi Ha _ _ _ _ _ _ _].
  split; [exact Ht|]. split; [exact Hi|exact Ha].
Qed.

(** X3.  The window is one.  In every world a fresh session can reach, the
    sends accepted so far ([sent] less [retransmits]) exceed the
    acknowledgements counted by at most one, and by none while the sender
    is idle; no counter is negative. *)
Theorem window_of_one (es : list Event) (chans : gmap nat Channel) :
  let w := run JSON_parse es (initial_world chans) in
  (accepted w ≤ acks (stats (state w)) + in_flight w)%Z
  ∧ (accepted w ≤ acks (stats (state w)) + 1)%Z
  ∧ (0 ≤ retransmits (stats (state w)) ≤ sent (stats (state w)))%Z
  ∧ (0 ≤ acks (stats (state w)))%Z
  ∧ (0 ≤ received (stats (state w)))%Z
  ∧ (0 ≤ bytesSent (stats (state w)))%Z
  ∧ (0 ≤ bytesReceived (stats (state w)))%Z.
Proof.
  intros w. destruct (inv_run es chans) as [_ _ _ _ _ _ Hc Ho Hwin _].
  fold w in Hc, Ho, Hwin.
  pose proof (in_flight_bounds w). pose proof (armed_bounds w).
  unfold accepted in *. repeat split; lia.
Qed.

(** X4.  A message is retransmitted once at most.  In every world a fresh
    session can reach, the retransmissions number no more than the accepted
    sends, one less while a retransmission callback is still pending: of
    the frames handed to the transport, at most half are retransmissions. *)
Theorem one_retransmission_at_most (es : list Event)
    (chans : gmap nat Channel) :
  let w := run JSON_parse es (initial_world chans) in
  (retransmits (stats (state w)) + retransmission_armed w ≤ accepted w)%Z
  ∧ (2 * retransmits (stats (state w)) ≤ sent (stats (state w)))%Z.
Proof.
  intros w. destruct (inv_run es chans) as [_ _ _ _ _ _ _ Ho _ _].
  fold w in Ho. pose proof (armed_bounds w). unfold accepted in *.
  split; lia.
Qed.

(** X5.  The observer is never stale.  In every world a fresh session can
    reach, the last snapshot handed to [onStats] holds the current counters
    and round-trip history; before the first snapshot the counters are all
    0 and the history is empty. *)
Theorem observer_is_current (es : list Event) (chans : gmap nat Channel) :
  let w := run JSON_parse es (initial_world chans) in
  match last (snapshots w) with
  | Some snap => snap = mkSnapshot (stats (state w)) (rttHistory (state w))
  | None => stats (state w) = initial_stats ∧ rttHistory (state w) = []
  end.
Proof. intros w. by destruct (inv_run es chans). Qed.


(** X6.  Receiving does not disturb sending.  A decoded [Data] frame,
    whatever the channel's state, leaves the sender's side as it was: the
    next and the awaited number, the in-flight payload and its time, the
    timer handle and the pending timers, the round-trip history, the
    counters of the sending side, and every channel but the one the frame
    came on. *)
Theorem data_leaves_sender_alone (now : Q) (dc : nat) (raw : string)
    (msg : json) (w : World) :
  is_data JSON_parse raw msg →
  let w' := fst (handleIncoming JSON_parse now dc raw w) in
  nextSeq (state w') = nextSeq (state w)
  ∧ awaitingAckSeq (state w') = awaitingAckSeq (state w)
  ∧ inflightPayload (state w') = inflightPayload (state w)
  ∧ inflightTimestamp (state w') = inflightTimestamp (state w)
  ∧ timer (state w') = timer (state w)
  ∧ timers w' = timers w
  ∧ rttHistory (state w') = rttHistory (state w)
  ∧ sent (stats (state w')) = sent (stats (state w))
  ∧ acks (stats (state w')) = acks (stats (state w))
  ∧ retransmits (stats (state w')) = retransmits (stats (state w))
  ∧ rttMs (stats (state w')) = rttMs (stats (state w))
  ∧ bytesSent (stats (state w')) = bytesSent (stats (state w))
  ∧ (∀ c, c ≠ dc → channels w' !! c = channels w !! c).
Proof.
  intros [Hparse Hdata] w'. subst w'.
  unfold handleIncoming. rewrite Hparse.
  destruct msg as [| | | | |fs]; try discriminate Hdata.
  unfold handle_message. rewrite Hdata. unfold dc_send.
  match goal with |- context [channel_open dc ?x] =>
    destruct (channel_open dc x) end; cbn; repeat split; try reflexivity.
  intros c Hne. by rewrite lookup_alter_ne.
Qed.

(** X7.  Input that is no frame.  A text that [JSON.parse] rejects is
    dropped with the world unchanged.  So is a text that decodes to
    anything but [null] whose [t] is neither [data] nor [ack].  A text that
    decodes to [null] makes [handleIncoming] throw a [TypeError], the world
    unchanged. *)
Theorem no_frame_no_effect (now : Q) (dc : nat) (raw : string) (w : World) :
  match JSON_parse raw with
  | None => handleIncoming JSON_parse now dc raw w = (w, Normal)
  | Some JNull =>
      handleIncoming JSON_parse now dc raw w = (w, Throw TypeError)
  | Some msg =>
      is_str "data" (get "t" msg) = false →
      is_str "ack" (get "t" msg) = false →
      handleIncoming JSON_parse now dc raw w = (w, Normal)
  end.
Proof.
  unfold handleIncoming. destruct (JSON_parse raw) as [msg|]; [|done].
  destruct msg; try done; intros Hd Ha; unfold handle_message;
    by rewrite Hd, Ha.
Qed.

(** X8.  An acknowledgement without a number, while idle.  The comparison
    [state.awaitingAckSeq === msg.seq] holds when both are [null]: on an
    idle sender an [ack] frame whose [seq] is [null] is taken as the awaited
    one.  [acks] grows by one, the time since the last send is recorded as
    a round trip, and a snapshot is emitted, with no send in flight. *)
Theorem null_ack_while_idle (now : Q) (dc : nat) (raw : string) (msg : json)
    (w : World) :
  JSON_parse raw = Some msg →
  is_str "ack" (get "t" msg) = true →
  get "seq" msg = Some JNull →
  awaitingAckSeq (state w) = None →
  let w' := fst (handleIncoming JSON_parse now dc raw w) in
  let rtt := Math_round (now - inflightTimestamp (state w)) in
  acks (stats (state w')) = (acks (stats (state w)) + 1)%Z
  ∧ rttMs (stats (state w')) = rtt
  ∧ rttHistory (state w')
    = push_rtt rtt (rttHistoryMax (state w)) (rttHistory (state w))
  ∧ awaitingAckSeq (state w') = None
  ∧ length (snapshots w') = S (length (snapshots w)).
Proof.
  intros Hparse Hack Hseq Hidle w' rtt. subst w'.
  unfold handleIncoming. rewrite Hparse.
  destruct msg as [| | | | |fs]; try discriminate Hack.
  unfold handle_message.
  rewrite (is_str_exclusive "ack" "data" _ Hack) by discriminate.
  rewrite Hack, Hseq, Hidle. cbn [awaits fst].
  unfold clear_timer. cbn. destruct (timer (state w)); cbn;
    repeat split; try reflexivity; rewrite length_app; cbn; lia.
Qed.


Lemma idle_expiry_is_silent id w :
  awaitingAckSeq (state w) = None →
  snd (fire id w) = Normal
  ∧ (fst (fire id w) = w ∨ fst (fire id w) = without_timer id w).
Proof.
  intros Hidle. unfold fire.
  destruct (timers w !! id) as [t|]; [|split; [done|by left]].
  fold (without_timer id w). unfold run_callback.
  change (awaitingAckSeq (state (without_timer id w)))
    with (awaitingAckSeq (state w)). rewrite Hidle.
  destruct (callback t); split; auto.
Qed.

(** X9.  The awaited acknowledgement finishes the send.  After [send]
    accepted a payload at time [t0] and the acknowledgement of its number
    is handled at time [t1], the sender is idle again, [acks] has grown by
    one and [rttMs] is [Math.round(t1 - t0)]; the acknowledgement wrote to
    no channel; the timer [send] had armed is cancelled, and no timer
    expiry from then on writes a frame or moves a counter; the next [send]
    is accepted and takes the next number: the two frames written are the
    serializations of [data] objects whose [seq] are that number and its
    successor modulo [2^32]. *)
Theorem acknowledged_send_is_finished (t0 t1 t2 : Q) (c dc : nat)
    (payload next : json) (raw : string) (w : World) :
  channel_open c w = true →
  awaitingAckSeq (state w) = None →
  is_ack_for JSON_parse raw (nextSeq (state w)) →
  let w1 := fst (send t0 (Some c) payload w) in
  let w2 := fst (handleIncoming JSON_parse t1 dc raw w1) in
  awaitingAckSeq (state w2) = None
  ∧ inflightPayload (state w2) = None
  ∧ acks (stats (state w2)) = (acks (stats (state w)) + 1)%Z
  ∧ rttMs (stats (state w2)) = Math_round (t1 - t0)
  ∧ channels w2 = channels w1
  ∧ timers w2 !! nextTimerId w = None
  ∧ (∀ id, channels (fst (fire id w2)) = channels w2
           ∧ stats (state (fst (fire id w2))) = stats (state w2)
           ∧ snapshots (fst (fire id w2)) = snapshots w2)
  ∧ snd (send t2 (Some c) next w2) = true
  ∧ frames_of c (fst (send t2 (Some c) next w2))
    = frames_of c w
        ++ [JSON_stringify (data_frame (nextSeq (state w)) payload);
            JSON_stringify
              (data_frame ((nextSeq (state w) + 1) mod 2 ^ 32) next)]
  ∧ get "seq" (data_frame (nextSeq (state w)) payload)
    = Some (JNum (nextSeq (state w)))
  ∧ get "seq" (data_frame ((nextSeq (state w) + 1) mod 2 ^ 32) next)
    = Some (JNum ((nextSeq (state w) + 1) mod 2 ^ 32))
  ∧ get "payload" (data_frame ((nextSeq (state w) + 1) mod 2 ^ 32) next)
    = Some next.
Proof.
  intros Hopen Hidle Hack w1 w2. subst w2 w1.
  rewrite (send_accepts _ _ _ _ Hopen Hidle). cbn [fst].
  rewrite (awaited_ack_accepted JSON_parse t1 dc raw (nextSeq (state w)) _ Hack)
    by reflexivity.
  cbn [fst].
  set (w1 := sent_world t0 c payload w).
  set (w2 := acked_world t1 w1).
  assert (Hopen2 : channel_open c w2 = true).
  { rewrite (channel_open_channels c w2 w1) by reflexivity.
    unfold w1. by rewrite channel_open_sent_world. }
  split; [reflexivity|]. split; [reflexivity|]. split; [reflexivity|].
  split; [reflexivity|]. split; [reflexivity|].
  split; [cbn; apply lookup_delete_eq|].
  split.
  { intros id. destruct (idle_expiry_is_silent id w2 eq_refl) as [_ [->| ->]];
      by repeat split. }
  rewrite (send_accepts t2 c next w2 Hopen2 eq_refl). cbn [fst snd].
  split; [reflexivity|].
  split; [|by repeat split].
  rewrite frames_of_sent_world by exact Hopen2.
  rewrite (frames_of_channels c w2 w1) by reflexivity.
  unfold w1. rewrite frames_of_sent_world by exact Hopen.
  by rewrite <- app_assoc.
Qed.

Lemma quiet_event_keeps_accepted e w :
  is_send e = false → accepted (apply_event JSON_parse e w) = accepted w.
Proof.
  destruct e as [now dc payload|now dc raw|id|chans]; [discriminate| | |done].
  - intros _. cbn [apply_event].
    destruct (handle_cases now dc raw w)
      as [->|[->|[(msg & _ & [[_ ->]|[_ ->]])|(msg & _ & _ & _ & ->)]]];
      reflexivity.
  - intros _. cbn [apply_event].
    destruct (fire_cases id w)
      as [[_ ->]|(t & Hl & [->|[->|(c & seq & p & Hcb & _ & _ & ->)]])];
      try reflexivity.
    unfold accepted. cbn. lia.
Qed.

Lemma quiet_run_keeps_accepted es w :
  forallb (fun e => negb (is_send e)) es = true →
  accepted (run JSON_parse es w) = accepted w.
Proof.
  revert w. induction es as [|e es IH]; intros w Hq; [done|].
  cbn in Hq. apply andb_prop in Hq as [He Hes].
  cbn [run fold_left]. fold (run JSON_parse es (apply_event JSON_parse e w)).
  rewrite IH by done. apply quiet_event_keeps_accepted.
  by apply negb_true_iff.
Qed.

(** X10.  What [waitUntilSent] costs and when it resolves.  A tick that
    [send] refuses changes nothing, so over pauses in which nobody else
    calls [send] the accepted sends grow by exactly one when the promise
    resolves and not at all while it is pending.  When the promise
    resolves, the world is the one an accepted [send] of this payload
    left.  On a busy sender whose channel is open, the promise resolves at
    the first tick after the awaited acknowledgement is handled. *)
Theorem waitUntilSent_sends_once (dc : option nat) (payload : json)
    (now : Q) (waits : list Pause) (w : World) :
  let r := waitUntilSent JSON_parse dc payload now waits w in
  (quiet waits →
   accepted (fst r) = (accepted w + if snd r then 1 else 0)%Z)
  ∧ (snd r = true →
     ∃ c t w0, dc = Some c ∧ channel_open c w0 = true
               ∧ fst r = sent_world t c payload w0)
  ∧ (∀ c seq t t' dc' raw rest,
       dc = Some c → channel_open c w = true →
       awaitingAckSeq (state w) = Some seq →
       is_ack_for JSON_parse raw seq →
       waits = mkPause [EvIncoming t dc' raw] t' :: rest →
       r = (sent_world t' c payload (acked_world t w), true)).
Proof.
  intros r. subst r. split; [|split].
  - revert now w. induction waits as [|p rest IH]; intros now w Hq.
    + cbn. destruct (send_cases now dc payload w)
        as [->|(c & _ & _ & _ & ->)]; cbn; [lia|].
      unfold accepted. cbn. lia.
    + cbn [waitUntilSent]. inversion_clear Hq as [|? ? Hp Hrest].
      destruct (send_cases now dc payload w)
        as [->|(c & _ & _ & _ & ->)].
      * rewrite IH by done. by rewrite quiet_run_keeps_accepted.
      * cbn. unfold accepted. cbn. lia.
  - revert now w. induction waits as [|p rest IH]; intros now w.
    + cbn. destruct (send_cases now dc payload w)
        as [->|(c & -> & Hopen & _ & ->)]; cbn; [discriminate|].
      intros _. by exists c, now, w.
    + cbn [waitUntilSent]. destruct (send_cases now dc payload w)
        as [->|(c & -> & Hopen & _ & ->)]; [apply IH|].
      cbn. intros _. by exists c, now, w.
  - intros c seq t t' dc' raw rest -> Hopen Hbusy Hack ->.
    cbn [waitUntilSent]. unfold send at 1. rewrite Hopen, Hbusy. cbn.
    rewrite (awaited_ack_accepted JSON_parse t dc' raw seq w Hack Hbusy).
    cbn [fst].
    assert (Hopen' : channel_open c (acked_world t w) = true)
      by (by rewrite (channel_open_channels c _ w)).
    destruct rest; cbn [waitUntilSent];
      by rewrite (send_accepts _ _ _ _ Hopen' eq_refl).
Qed.

End More.

(** ** Two sessions *)

Section Lossless.
Context (JSON_parse : string → option json).

Lemma data_frame_received now dc raw msg w :
  is_data JSON_parse raw msg → channel_open dc w = true →
  handleIncoming JSON_parse now dc raw w
  = (received_world dc (String.length raw)
       (JSON_stringify (ack_frame (get "seq" msg))) (get "payload" msg) w,
     Normal).
Proof.
  intros [Hparse Hdata] Hopen. unfold handleIncoming. rewrite Hparse.
  destruct msg as [| | | | |fs]; try discriminate Hdata.
  unfold handle_message. rewrite Hdata. unfold dc_send.
  match goal with |- context [channel_open dc ?x] =>
    rewrite (channel_open_channels dc x w) by reflexivity end.
  by rewrite Hopen.
Qed.

Lemma last_frame_sent now c payload w :
  channel_open c w = true →
  last_frame c (sent_world now c payload w)
  = JSON_stringify (data_frame (nextSeq (state w)) payload).
Proof.
  intros Hopen. unfold last_frame.
  rewrite frames_of_sent_world by done. by rewrite last_snoc.
Qed.

Lemma frames_of_received dc len ack payload w :
  channel_open dc w = true →
  frames_of dc (received_world dc len ack payload w) = frames_of dc w ++ [ack].
Proof.
  intros Hopen.
  rewrite (frames_of_channels dc _ (push_frame dc ack w)) by reflexivity.
  rewrite frames_of_push by done. by rewrite decide_True.
Qed.

Lemma channel_open_received c dc len ack payload w :
  channel_open c (received_world dc len ack payload w) = channel_open c w.
Proof.
  rewrite (channel_open_channels c _ (push_frame dc ack w)) by reflexivity.
  apply channel_open_push.
Qed.

Lemma carry_step cs cr (h : Hop) (ws wr : World) :
  channel_open cs ws = true →
  awaitingAckSeq (state ws) = None →
  channel_open cr wr = true →
  let seq := nextSeq (state ws) in
  JSON_parse (JSON_stringify (data_frame seq (hop_payload h)))
  = Some (data_frame seq (hop_payload h)) →
  JSON_parse (JSON_stringify (ack_frame (Some (JNum seq))))
  = Some (ack_frame (Some (JNum seq))) →
  carry JSON_parse cs cr h (ws, wr)
  = (acked_world (hop_acked h) (sent_world (hop_sent h) cs (hop_payload h) ws),
     received_world cr
       (String.length (JSON_stringify (data_frame seq (hop_payload h))))
       (JSON_stringify (ack_frame (Some (JNum seq))))
       (Some (hop_payload h)) wr).
Proof.
  intros Hopen Hidle Hopenr seq Hdata Hack. unfold carry.
  rewrite (send_accepts _ _ _ _ Hopen Hidle). cbn [fst].
  rewrite (last_frame_sent _ _ _ _ Hopen). fold seq.
  rewrite (data_frame_received (hop_received h) cr _
             (data_frame seq (hop_payload h))) by (try split; done).
  cbn [fst].
  change (get "seq" (data_frame seq (hop_payload h))) with (Some (JNum seq)).
  change (get "payload" (data_frame seq (hop_payload h)))
    with (Some (hop_payload h)).
  set (wr1 := received_world cr _ _ _ wr).
  assert (Hlast : last_frame cr wr1
                  = JSON_stringify (ack_frame (Some (JNum seq)))).
  { unfold last_frame, wr1. rewrite frames_of_received by done.
    by rewrite last_snoc. }
  rewrite Hlast.
  rewrite (awaited_ack_accepted JSON_parse (hop_acked h) cs _ seq).
  - reflexivity.
  - exists (ack_frame (Some (JNum seq))). by repeat split.
  - reflexivity.
Qed.

Lemma carry_all_spec cs cr :
  ∀ (hops : list Hop) (k : nat) (ws wr : World),
    channel_open cs ws = true →
    awaitingAckSeq (state ws) = None →
    nextSeq (state ws) = to_uint32 (Z.of_nat k) →
    channel_open cr wr = true →
    reads_back JSON_parse k hops →
    let ww := carry_all JSON_parse cs cr hops (ws, wr) in
    delivered (snd ww) = delivered wr ++ map (fun h => Some (hop_payload h)) hops
    ∧ awaitingAckSeq (state (fst ww)) = None
    ∧ nextSeq (state (fst ww)) = to_uint32 (Z.of_nat (k + length hops))
    ∧ frames_of cs (fst ww)
      = frames_of cs ws
          ++ imap (fun i h =>
                     JSON_stringify
                       (data_frame (to_uint32 (Z.of_nat (k + i)))
                                   (hop_payload h))) hops
    ∧ frames_of cr (snd ww)
      = frames_of cr wr
          ++ imap (fun i _ =>
                     JSON_stringify
                       (ack_frame (Some (JNum (to_uint32 (Z.of_nat (k + i)))))))
                  hops
    ∧ accepted (fst ww) = (accepted ws + Z.of_nat (length hops))%Z
    ∧ retransmits (stats (state (fst ww))) = retransmits (stats (state ws))
    ∧ acks (stats (state (fst ww)))
      = (acks (stats (state ws)) + Z.of_nat (length hops))%Z
    ∧ received (stats (state (snd ww)))
      = (received (stats (state wr)) + Z.of_nat (length hops))%Z.
Proof.
  induction hops as [|h hops IH]; intros k ws wr Hopen Hidle Hseq Hopenr Hrb.
  - cbn. rewrite !app_nil_r, Nat.add_0_r. repeat split; try done; lia.
  - destruct (Hrb 0%nat h eq_refl) as [Hdata Hack].
    rewrite Nat.add_0_r, <- Hseq in Hdata, Hack.
    cbn [carry_all fold_left].
    rewrite (carry_step cs cr h ws wr Hopen Hidle Hopenr Hdata Hack).
    set (ws1 := sent_world (hop_sent h) cs (hop_payload h) ws).
    set (ws2 := acked_world (hop_acked h) ws1).
    set (wr1 := received_world cr _ _ _ wr).
    fold (carry_all JSON_parse cs cr hops (ws2, wr1)).
    assert (Hopen2 : channel_open cs ws2 = true).
    { rewrite (channel_open_channels cs ws2 ws1) by reflexivity.
      unfold ws1. by rewrite channel_open_sent_world. }
    assert (Hseq2 : nextSeq (state ws2) = to_uint32 (Z.of_nat (S k))).
    { cbn. rewrite Hseq. apply to_uint32_succ. }
    assert (Hopenr1 : channel_open cr wr1 = true)
      by (unfold wr1; by rewrite channel_open_received).
    destruct (IH (S k) ws2 wr1 Hopen2 eq_refl Hseq2 Hopenr1)
      as (H1 & H2 & H3 & H4 & H5 & H6 & H7 & H8 & H9).
    { intros i h' Hi. replace (S k + i)%nat with (k + S i)%nat by lia.
      by apply Hrb. }
    split. { rewrite H1. cbn. by rewrite <- app_assoc. }
    split; [exact H2|].
    split. { rewrite H3. cbn [length]. do 2 f_equal. lia. }
    split.
    { rewrite H4. rewrite (frames_of_channels cs ws2 ws1) by reflexivity.
      unfold ws1. rewrite frames_of_sent_world by done.
      rewrite Hseq, <- app_assoc. f_equal. rewrite imap_cons. cbn [app].
      rewrite Nat.add_0_r. f_equal. apply imap_ext. intros i h' _. cbn.
      by replace (k + S i)%nat with (S (k + i))%nat by lia. }
    split.
    { rewrite H5. unfold wr1. rewrite frames_of_received by done.
      rewrite Hseq, <- app_assoc. f_equal. rewrite imap_cons. cbn [app].
      rewrite Nat.add_0_r. f_equal. apply imap_ext. intros i h' _. cbn.
      by replace (k + S i)%nat with (S (k + i))%nat by lia. }
    split. { rewrite H6. unfold accepted. cbn. lia. }
    split; [by rewrite H7|].
    split. { rewrite H8. cbn. lia. }
    rewrite H9. cbn. lia.
Qed.

End Lossless.

(** ** The receiver *)

Section Reassembly.

Lemma lookup_slots_of chunk f total got j :
  slots_of chunk f total got !! j
  = if decide (j < total)%nat
    then Some (if bool_decide (j ∈ got)
               then Some (VBytes (chunk_bytes chunk f j)) else None)
    else None.
Proof.
  unfold slots_of.
  change (map ?g ?l) with (g <$> l). rewrite list_lookup_fmap.
  destruct (decide (j < total)%nat) as [Hlt|Hge].
  - by rewrite lookup_seq_lt.
  - by rewrite lookup_seq_ge by lia.
Qed.

Lemma length_slots_of chunk f total got :
  length (slots_of chunk f total got) = total.
Proof. unfold slots_of. by rewrite length_map, length_seq. Qed.

Lemma slots_of_ext chunk f total got got' :
  (∀ i, (i < total)%nat → i ∈ got ↔ i ∈ got') →
  slots_of chunk f total got = slots_of chunk f total got'.
Proof.
  intros Hext. apply list_eq. intros j. rewrite !lookup_slots_of.
  destruct (decide (j < total)%nat) as [Hlt|]; [|done].
  f_equal. rewrite (bool_decide_ext (j ∈ got) (j ∈ got')); [done|].
  by apply Hext.
Qed.

Lemma array_set_slots_of chunk f total got k :
  (k < total)%nat →
  array_set k (VBytes (chunk_bytes chunk f k)) (slots_of chunk f total got)
  = slots_of chunk f total (k :: got).
Proof.
  intros Hk. unfold array_set. rewrite length_slots_of.
  replace (k <? total)%nat with true by (symmetry; by apply Nat.ltb_lt).
  apply list_eq. intros j. rewrite lookup_slots_of.
  destruct (decide (j = k)) as [->|Hne].
  - rewrite list_lookup_insert_eq by (by rewrite length_slots_of).
    rewrite decide_True by done.
    rewrite bool_decide_eq_true_2; [done|]. by left.
  - rewrite list_lookup_insert_ne by done. rewrite lookup_slots_of.
    destruct (decide (j < total)%nat); [|done]. f_equal.
    rewrite (bool_decide_ext (j ∈ k :: got) (j ∈ got)); [done|].
    rewrite elem_of_cons. intuition congruence.
Qed.

Lemma slots_of_nothing chunk f total :
  slots_of chunk f total [] = replicate total None.
Proof.
  apply list_eq. intros j. rewrite lookup_slots_of.
  destruct (decide (j < total)%nat).
  - rewrite lookup_replicate_2 by done. f_equal.
  - symmetry. apply lookup_replicate_None. lia.
Qed.

Lemma slots_of_everything chunk f total got :
  (∀ i, (i < total)%nat → i ∈ got) →
  slots_of chunk f total got = slots_after chunk f total total.
Proof.
  intros Hall. unfold slots_of, slots_after.
  rewrite Nat.sub_diag. cbn [replicate]. rewrite app_nil_r.
  apply map_ext_in. intros i Hi. apply in_seq in Hi.
  rewrite bool_decide_eq_true_2; [done|]. apply Hall. lia.
Qed.

(** The receiver after chunks arrived in the order [order], whatever had
    arrived before. *)
Lemma deliver_chunks_in_order chunk f total :
  (0 < total)%nat → (Z.of_nat total < 2 ^ 32)%Z →
  ∀ (order got : list nat) (r : Receiver),
    Forall (fun i => (i < total)%nat) order →
    recvChunks r = slots_of chunk f total got →
    let r' := deliver_all (map (file_chunk chunk f) order) r in
    recvChunks r' = slots_of chunk f total (rev order ++ got)
    ∧ download r' = download r
    ∧ recvFileInfo r' = recvFileInfo r
    ∧ receivedText r' = receivedText r
    ∧ totalChunks (recvProgress r') = totalChunks (recvProgress r)
    ∧ (order ≠ [] →
       receivedChunks (recvProgress r')
       = filter_Boolean_length (recvChunks r')).
Proof.
  intros Htotal Hbound order. induction order as [|k order IH];
    intros got r Hrange Hr.
  - cbn. by repeat split.
  - inversion_clear Hrange as [|? ? Hk Hrest].
    cbn [map deliver_all fold_left].
    fold (deliver_all (map (file_chunk chunk f) order)
            (fst (onDeliver (Some (file_chunk chunk f k)) r))).
    destruct (file_chunk_fields chunk f k) as (Hkind & Hidx & Hdata).
    rewrite (deliver_chunk _ r Hkind), Hdata, Hidx, Hr.
    cbn [to_string_value to_string]. rewrite base64_round_trip.
    rewrite length_slots_of.
    replace (total =? 0)%nat with false
      by (symmetry; apply Nat.eqb_neq; lia).
    cbn [fst]. unfold array_store.
    rewrite array_index_number by lia. rewrite Nat2Z.id.
    rewrite array_set_slots_of by done.
    set (r1 := mkReceiver _ _ _ _ _).
    destruct (IH (k :: got) r1 Hrest eq_refl)
      as (H1 & H2 & H3 & H4 & H5 & H6).
    split.
    { rewrite H1. cbn [rev]. by rewrite <- app_assoc. }
    split; [exact H2|]. split; [exact H3|]. split; [exact H4|].
    split; [exact H5|].
    intros _. destruct order as [|k' order']; [reflexivity|].
    by apply H6.
Qed.


Lemma filter_slots_of chunk f total got :
  filter_Boolean_length (slots_of chunk f total got) = arrived total got.
Proof.
  unfold filter_Boolean_length, slots_of, arrived.
  rewrite filter_map_swap, length_map. f_equal.
  apply filter_ext. intros i. by destruct (bool_decide (i ∈ got)).
Qed.

Lemma blob_of_slots chunk f total got :
  concat (map blob_part (slots_of chunk f total got))
  = patched_bytes chunk f total got.
Proof.
  unfold slots_of, patched_bytes. rewrite map_map. f_equal.
  apply map_ext. intros i. by destruct (bool_decide (i ∈ got)).
Qed.

Lemma arrived_all total got :
  (∀ i, (i < total)%nat → i ∈ got) → arrived total got = total.
Proof.
  intros Hall. unfold arrived.
  rewrite (filter_ext_in _ (fun _ => true)).
  - rewrite filter_true. apply length_seq.
  - intros i Hi. apply in_seq in Hi. apply bool_decide_eq_true_2, Hall. lia.
Qed.

(** The receiver just before [file-complete]. *)
Lemma transfer_slots chunk f (order : list nat) (r : Receiver) :
  let total := Math_ceil_div (file_size f) chunk in
  (0 < total)%nat → (Z.of_nat total < 2 ^ 32)%Z →
  Forall (fun i => (i < total)%nat) order →
  let r' := deliver_all (file_meta f total :: map (file_chunk chunk f) order)
                        r in
  recvChunks r' = slots_of chunk f total order
  ∧ download r' = download r
  ∧ recvFileInfo r' = Some (info_of f)
  ∧ receivedText r' = receivedText r
  ∧ recvProgress r'
    = mkProgress (arrived total order) (Some (JNum (Z.of_nat total))).
Proof.
  intros total Hpos Hbound Hrange r'. subst r'.
  cbn [deliver_all fold_left].
  rewrite (deliver_meta (file_meta f total) r (Z.of_nat total))
    by (try reflexivity; lia).
  cbn [fst]. rewrite Nat2Z.id.
  set (r0 := mkReceiver _ _ _ _ _).
  fold (deliver_all (map (file_chunk chunk f) order) r0).
  destruct (deliver_chunks_in_order chunk f total Hpos Hbound order [] r0
              Hrange) as (H1 & H2 & H3 & H4 & H5 & H6).
  { cbn [recvChunks r0]. symmetry. apply slots_of_nothing. }
  assert (Hslots : recvChunks (deliver_all (map (file_chunk chunk f) order) r0)
                   = slots_of chunk f total order).
  { rewrite H1, app_nil_r. apply slots_of_ext. intros i _.
    rewrite !list_elem_of_In. symmetry. apply in_rev. }
  split; [exact Hslots|]. split; [exact H2|]. split; [exact H3|].
  split; [exact H4|].
  destruct order as [|k order'].
  - cbn. unfold arrived. f_equal.
    rewrite (filter_ext_in _ (fun _ => false)).
    + clear. by induction (seq 0 total).
    + intros i _. apply bool_decide_eq_false_2. apply not_elem_of_nil.
  - set (rT := deliver_all _ r0) in *.
    assert (Heta : ∀ p, p = mkProgress (receivedChunks p) (totalChunks p))
      by (by intros []).
    rewrite (Heta (recvProgress rT)), H5, (H6 ltac:(done)), Hslots.
    by rewrite filter_slots_of.
Qed.

Lemma length_slots_nonzero chunk f total got :
  (0 < total)%nat → (length (slots_of chunk f total got) =? 0)%nat = false.
Proof. intros H. rewrite length_slots_of. apply Nat.eqb_neq. lia. Qed.

Lemma deliver_all_app l1 l2 r :
  deliver_all (l1 ++ l2) r = deliver_all l2 (deliver_all l1 r).
Proof. apply fold_left_app. Qed.

(** The receiver after a whole transfer. *)
Lemma transfer_done chunk f (order : list nat) (r : Receiver) :
  let total := Math_ceil_div (file_size f) chunk in
  (0 < total)%nat → (Z.of_nat total < 2 ^ 32)%Z →
  Forall (fun i => (i < total)%nat) order →
  deliver_all (transfer_in chunk f order) r
  = mkReceiver (receivedText r) (Some (info_of f))
      (slots_of chunk f total order)
      (mkProgress (arrived total order) (Some (JNum (Z.of_nat total))))
      (Some (mkBlob (patched_bytes chunk f total order)
                    "application/octet-stream")).
Proof.
  intros total Hpos Hbound Hrange. unfold transfer_in. fold total.
  rewrite app_comm_cons, deliver_all_app.
  destruct (transfer_slots chunk f order r Hpos Hbound Hrange)
    as (H1 & H2 & H3 & H4 & H5).
  fold total in H1, H2, H3, H4, H5.
  set (rT := deliver_all (file_meta f total :: _) r) in *.
  change (deliver_all [file_complete] rT)
    with (fst (onDeliver (Some file_complete) rT)).
  rewrite (deliver_complete file_complete rT) by reflexivity.
  rewrite H1, length_slots_nonzero by done. cbn [fst].
  rewrite H3, H4, H5. unfold new_Blob. by rewrite blob_of_slots.
Qed.

(** The receiver after a transfer in which every chunk arrived. *)
Lemma transfer_complete chunk f (order : list nat) (r : Receiver) :
  let total := Math_ceil_div (file_size f) chunk in
  (0 < chunk)%nat → (0 < file_size f)%nat →
  (Z.of_nat total < 2 ^ 32)%Z →
  Forall (fun i => (i < total)%nat) order →
  (∀ i, (i < total)%nat → i ∈ order) →
  deliver_all (transfer_in chunk f order) r
  = mkReceiver (receivedText r) (Some (info_of f))
      (slots_after chunk f total total)
      (mkProgress total (Some (JNum (Z.of_nat total))))
      (Some (mkBlob (file_bytes f) "application/octet-stream")).
Proof.
  intros total Hchunk Hsize Hbound Hrange Hall.
  destruct (Math_ceil_div_spec (file_size f) chunk Hchunk) as [Hup Hlow].
  destruct (Hlow Hsize) as [_ Hpos]. fold total in Hup, Hpos.
  rewrite (transfer_done chunk f order r Hpos Hbound Hrange). fold total.
  rewrite (arrived_all total order Hall), <- blob_of_slots.
  rewrite (slots_of_everything chunk f total order Hall).
  rewrite blob_of_full_slots by lia. reflexivity.
Qed.

(** X11.  Chunks may arrive in any order and more than once.  For a file
    that is not empty, when the chunks [sendFile] makes reach the callback
    in any order, each at least once and any of them repeated, between
    [file-meta] and [file-complete], the blob offered holds exactly the
    bytes of the file, the progress shows every chunk received, and the
    file information is the one of [file-meta]; the text received is not
    touched. *)
Theorem reassembly_in_any_order (chunk : nat) (f : File) (order : list nat)
    (r : Receiver) :
  let total := Math_ceil_div (file_size f) chunk in
  (0 < chunk)%nat → (0 < file_size f)%nat →
  (Z.of_nat total < 2 ^ 32)%Z →
  Forall (fun i => (i < total)%nat) order →
  (∀ i, (i < total)%nat → i ∈ order) →
  let r' := deliver_all (transfer_in chunk f order) r in
  download r' = Some (mkBlob (file_bytes f) "application/octet-stream")
  ∧ recvProgress r' = mkProgress total (Some (JNum (Z.of_nat total)))
  ∧ recvFileInfo r' = Some (info_of f)
  ∧ length (recvChunks r') = total
  ∧ receivedText r' = receivedText r.
Proof.
  intros total Hchunk Hsize Hbound Hrange Hall r'. subst r'.
  rewrite (transfer_complete chunk f order r Hchunk Hsize Hbound Hrange Hall).
  fold total. cbn [download recvProgress recvFileInfo recvChunks receivedText].
  repeat split. unfold slots_after.
  rewrite length_app, length_map, length_seq, length_replicate. lia.
Qed.

(** X12.  Completion is by signal, not by count.  [file-complete] builds
    the blob from the slot buffer as it stands: when only the chunks of
    [order] have arrived, a download is still offered, in which every
    missing chunk is replaced by the nine bytes of the text [undefined],
    and the progress shows the number of distinct chunks that arrived. *)
Theorem completion_with_missing_chunks (chunk : nat) (f : File)
    (order : list nat) (r : Receiver) :
  let total := Math_ceil_div (file_size f) chunk in
  (0 < total)%nat → (Z.of_nat total < 2 ^ 32)%Z →
  Forall (fun i => (i < total)%nat) order →
  let r' := deliver_all (transfer_in chunk f order) r in
  download r'
  = Some (mkBlob (patched_bytes chunk f total order)
                 "application/octet-stream")
  ∧ receivedChunks (recvProgress r') = arrived total order
  ∧ length undefined_text = 9%nat
  ∧ (∀ i, (i < total)%nat → i ∉ order →
       recvChunks r' !! i = Some None).
Proof.
  intros total Hpos Hbound Hrange r'. subst r'.
  rewrite (transfer_done chunk f order r Hpos Hbound Hrange). fold total.
  cbn [download recvProgress receivedChunks recvChunks].
  split; [reflexivity|]. split; [reflexivity|]. split; [reflexivity|].
  intros i Hi Hnot. rewrite lookup_slots_of, decide_True by done.
  by rewrite bool_decide_eq_false_2.
Qed.

Lemma array_set_idem i v arr :
  array_set i v (array_set i v arr) = array_set i v arr.
Proof.
  unfold array_set at 2. destruct (Nat.ltb_spec i (length arr)) as [Hlt|Hge].
  - unfold array_set. rewrite length_insert.
    replace (i <? length arr)%nat with true by (symmetry; by apply Nat.ltb_lt).
    apply list_insert_insert_eq.
  - unfold array_set. rewrite !length_app, length_replicate. cbn [length].
    replace (i <? length arr + (i - length arr + 1))%nat with true
      by (symmetry; apply Nat.ltb_lt; lia).
    rewrite insert_app_r_alt by lia.
    rewrite insert_app_r_alt by (rewrite length_replicate; lia).
    rewrite length_replicate.
    replace (i <? length arr)%nat with false
      by (symmetry; by apply Nat.ltb_ge).
    by replace (i - length arr - (i - length arr))%nat with 0%nat by lia.
Qed.

Lemma array_store_idem key v arr :
  array_store key v (array_store key v arr) = array_store key v arr.
Proof.
  unfold array_store. destruct (array_index key); [|done].
  apply array_set_idem.
Qed.

Lemma array_store_length key v arr :
  (length arr ≤ length (array_store key v arr))%nat.
Proof.
  unfold array_store. destruct (array_index key); [|done].
  rewrite array_set_length. lia.
Qed.

(** X13.  A chunk delivered again changes nothing.  The receiver keeps no
    record of the numbers it has seen, so a retransmitted frame reaches the
    callback a second time; for a [file-chunk] whose index is a number, as
    [sendFile] writes it, whatever the number and the other fields, the
    second delivery right after the first leaves the receiver exactly as
    the first left it, and completes the same way. *)
Theorem chunk_redelivery_idempotent (p : json) (i : Z) (r : Receiver) :
  is_str "file-chunk" (get "kind" p) = true →
  get "index" p = Some (JNum i) →
  onDeliver (Some p) (fst (onDeliver (Some p) r)) = onDeliver (Some p) r.
Proof.
  intros Hk _. rewrite (deliver_chunk p (fst (onDeliver (Some p) r)) Hk).
  rewrite (deliver_chunk p r Hk).
  destruct (Nat.eqb_spec (length (recvChunks r)) 0) as [Hz|Hnz].
  { cbn [fst]. by rewrite Hz. }
  destruct (base64ToUint8Array (to_string_value (get "data" p)))
    as [bytes|] eqn:Hdata.
  2:{ cbn [fst]. by replace (length (recvChunks r) =? 0)%nat with false
        by (symmetry; by apply Nat.eqb_neq). }
  cbn [fst recvChunks receivedText recvFileInfo recvProgress download
       totalChunks].
  pose proof (array_store_length (get "index" p) (VBytes bytes)
                                 (recvChunks r)) as Hlen.
  replace (length (array_store (get "index" p) (VBytes bytes) (recvChunks r))
           =? 0)%nat with false by (symmetry; apply Nat.eqb_neq; lia).
  by rewrite array_store_idem.
Qed.

Lemma append_assoc (a b c : string) : (a +:+ b) +:+ c = a +:+ (b +:+ c).
Proof.
  induction a as [|x a IH]; [done|].
  change (String x ((a +:+ b) +:+ c) = String x (a +:+ b +:+ c)).
  by f_equal.
Qed.

Lemma deliver_text (text : string) (r : Receiver) :
  onDeliver (Some (text_message text)) r
  = (mkReceiver (receivedText r +:+ text) (recvFileInfo r) (recvChunks r)
                (recvProgress r) (download r), Normal).
Proof. reflexivity. Qed.

Lemma append_empty_r (s : string) : s +:+ EmptyString = s.
Proof.
  induction s as [|x s IH]; [done|].
  change (String x (s +:+ EmptyString) = String x s). by f_equal.
Qed.

Lemma deliver_texts (texts : list string) (r : Receiver) :
  deliver_all (map text_message texts) r
  = mkReceiver (receivedText r +:+ foldr String.append EmptyString texts)
               (recvFileInfo r) (recvChunks r) (recvProgress r) (download r).
Proof.
  revert r. induction texts as [|t texts IH]; intros r.
  - cbn [map deliver_all fold_left foldr]. rewrite append_empty_r.
    by destruct r.
  - cbn [map deliver_all fold_left foldr].
    fold (deliver_all (map text_message texts)
            (fst (onDeliver (Some (text_message t)) r))).
    rewrite IH, deliver_text. cbn [fst receivedText recvFileInfo recvChunks
                                   recvProgress download].
    by rewrite append_assoc.
Qed.

(** X14.  Text accumulates, duplicates included.  The texts [sendMessage]
    sends are appended to the text received in the order they reach the
    callback, with nothing between them; no other field of the receiver
    changes.  A message delivered twice, as after a retransmission, is
    shown twice. *)
Theorem text_appended_each_time (texts : list string) (text : string)
    (r : Receiver) :
  let r' := deliver_all (map text_message texts) r in
  receivedText r' = receivedText r +:+ foldr String.append EmptyString texts
  ∧ recvFileInfo r' = recvFileInfo r
  ∧ recvChunks r' = recvChunks r
  ∧ recvProgress r' = recvProgress r
  ∧ download r' = download r
  ∧ receivedText (deliver_all [text_message text; text_message text] r)
    = receivedText r +:+ text +:+ text.
Proof.
  intros r'. subst r'. rewrite deliver_texts.
  repeat split. cbn. by rewrite append_assoc.
Qed.



End Reassembly.

(** ** From one end to the other *)

Section EndToEnd.
Context (JSON_parse : string → option json).

Lemma length_btoa_chars (l : list N) :
  length (Base64.btoa_chars l) = (4 * ((length l + 2) / 3))%nat.
Proof.
  unfold Base64.btoa_chars. rewrite length_app, length_map.
  induction l as [|a|a b|a b c r IH] using Base64Facts.list_ind3;
    try reflexivity.
  assert (Hpad : Base64.padding (length (a :: b :: c :: r))
                 = Base64.padding (length r)).
  { unfold Base64.padding. f_equal. cbn [length]. lia. }
  rewrite Hpad. cbn [Base64.sextets]. rewrite length_app. cbn [length].
  lia.
Qed.

Lemma length_string_of_list_ascii (l : list ascii) :
  String.length (string_of_list_ascii l) = length l.
Proof. induction l as [|c l IH]; [done|]. cbn. by rewrite IH. Qed.

Lemma length_arrayBufferToBase64 (buffer : list Byte.byte) :
  String.length (arrayBufferToBase64 buffer)
  = (4 * ((length buffer + 2) / 3))%nat.
Proof.
  unfold arrayBufferToBase64, Base64.btoa.
  rewrite binary_of_buffer, list_ascii_of_string_of_list_ascii.
  by rewrite length_string_of_list_ascii, length_btoa_chars, !length_map.
Qed.

(** X16.  The size of the base64 text.  [arrayBufferToBase64] turns [n]
    bytes into exactly [4 * ceil(n / 3)] characters.  So the [data] of a
    chunk is never longer than [4 * ceil(chunk / 3)] characters, which for
    the chunk size of [sendFile], 16384 bytes, is 21848. *)
Theorem base64_text_size (buffer : list Byte.byte) (chunk : nat) (f : File)
    (i : nat) :
  String.length (arrayBufferToBase64 buffer)
  = (4 * ((length buffer + 2) / 3))%nat
  ∧ (∃ data, get "data" (file_chunk chunk f i) = Some (JStr data)
             ∧ (String.length data ≤ 4 * ((chunk + 2) / 3))%nat)
  ∧ (∃ data, get "data" (file_chunk CHUNK_SIZE f i) = Some (JStr data)
             ∧ (Z.of_nat (String.length data) ≤ 21848)%Z).
Proof.
  split; [apply length_arrayBufferToBase64|].
  assert (Hany : ∀ c, ∃ data,
             get "data" (file_chunk c f i) = Some (JStr data)
             ∧ (String.length data ≤ 4 * ((c + 2) / 3))%nat).
  { intros c. destruct (file_chunk_fields c f i) as (_ & _ & Hdata).
    eexists. split; [exact Hdata|].
    rewrite length_arrayBufferToBase64, chunk_bytes_length. lia. }
  split; [apply Hany|].
  destruct (Hany CHUNK_SIZE) as (data & Hd & Hlen). exists data.
  split; [exact Hd|].
  assert (Hsize : Z.of_nat CHUNK_SIZE = 16384%Z) by (vm_compute; reflexivity).
  revert Hlen Hsize. generalize CHUNK_SIZE. intros c Hlen Hsize. lia.
Qed.


Lemma fire_sent_world now c payload w :
  channel_open c w = true →
  fire (nextTimerId w) (sent_world now c payload w)
  = (retransmitted_world c (nextSeq (state w)) payload
       (without_timer (nextTimerId w) (sent_world now c payload w)), Normal).
Proof.
  intros Hopen. set (w1 := sent_world now c payload w).
  assert (Ht : timers w1 !! nextTimerId w
               = Some (mkTimer (timeoutMs (state w))
                               (Retransmit c (nextSeq (state w)) payload)))
    by (cbn; apply lookup_insert_eq).
  assert (Hopen1 : channel_open c (without_timer (nextTimerId w) w1) = true).
  { rewrite (channel_open_channels c _ w1) by reflexivity.
    unfold w1. by rewrite channel_open_sent_world. }
  unfold fire. rewrite Ht. cbn [callback].
  fold (without_timer (nextTimerId w) w1). unfold run_callback.
  change (awaitingAckSeq (state (without_timer (nextTimerId w) w1)))
    with (Some (nextSeq (state w))).
  cbv beta iota. rewrite Z.eqb_refl. unfold dc_send. rewrite Hopen1.
  reflexivity.
Qed.

Lemma ack_while_idle_ignored now dc raw seq w :
  is_ack_for JSON_parse raw seq →
  awaitingAckSeq (state w) = None →
  handleIncoming JSON_parse now dc raw w = (w, Normal).
Proof.
  intros (msg & Hparse & Hack & Hseq) Hidle.
  unfold handleIncoming. rewrite Hparse.
  destruct msg as [| | | | |fs]; try discriminate Hack.
  unfold handle_message.
  rewrite (is_str_exclusive "ack" "data" _ Hack) by discriminate.
  by rewrite Hack, Hseq, Hidle.
Qed.

(** X17.  A retransmitted message is delivered twice.  The receiving side
    keeps no record of the numbers it has delivered.  When the sender's
    timer expires before the acknowledgement arrives, the frame is on the
    channel twice; a receiver that gets both copies counts, acknowledges
    and hands to the application each of them.  The sender takes the first
    acknowledgement and becomes idle; the second one changes nothing. *)
Theorem retransmission_is_delivered_twice (t0 t1 t2 t3 t4 : Q) (cs cr : nat)
    (payload : json) (ws wr : World) :
  let seq := nextSeq (state ws) in
  let frame := JSON_stringify (data_frame seq payload) in
  let ack := JSON_stringify (ack_frame (Some (JNum seq))) in
  channel_open cs ws = true →
  awaitingAckSeq (state ws) = None →
  channel_open cr wr = true →
  JSON_parse frame = Some (data_frame seq payload) →
  JSON_parse ack = Some (ack_frame (Some (JNum seq))) →
  let ws1 := fst (send t0 (Some cs) payload ws) in
  let ws2 := fst (fire (nextTimerId ws) ws1) in
  let wr1 := fst (handleIncoming JSON_parse t1 cr frame wr) in
  let wr2 := fst (handleIncoming JSON_parse t2 cr frame wr1) in
  let ws3 := fst (handleIncoming JSON_parse t3 cs ack ws2) in
  let ws4 := fst (handleIncoming JSON_parse t4 cs ack ws3) in
  frames_of cs ws2 = frames_of cs ws ++ [frame; frame]
  ∧ delivered wr2 = delivered wr ++ [Some payload; Some payload]
  ∧ frames_of cr wr2 = frames_of cr wr ++ [ack; ack]
  ∧ received (stats (state wr2)) = (received (stats (state wr)) + 2)%Z
  ∧ awaitingAckSeq (state ws3) = None
  ∧ acks (stats (state ws3)) = (acks (stats (state ws)) + 1)%Z
  ∧ ws4 = ws3
  ∧ sent (stats (state ws4)) = (sent (stats (state ws)) + 2)%Z
  ∧ retransmits (stats (state ws4))
    = (retransmits (stats (state ws)) + 1)%Z.
Proof.
  intros seq frame ack Hopen Hidle Hopenr Hframe Hack ws1 ws2 wr1 wr2 ws3 ws4.
  assert (Hdata : is_data JSON_parse frame (data_frame seq payload))
    by (by split).
  assert (Hisack : is_ack_for JSON_parse ack seq)
    by (exists (ack_frame (Some (JNum seq))); by repeat split).
  subst ws4 ws3 wr2 wr1 ws2 ws1.
  rewrite (send_accepts _ _ _ _ Hopen Hidle). cbn [fst].
  rewrite (fire_sent_world _ _ _ _ Hopen). cbn [fst]. fold seq.
  set (ws1 := sent_world t0 cs payload ws).
  set (ws2 := retransmitted_world cs seq payload
                (without_timer (nextTimerId ws) ws1)).
  rewrite (data_frame_received JSON_parse t1 cr frame _ wr Hdata Hopenr).
  cbn [fst].
  set (wr1 := received_world cr _ _ _ wr).
  assert (Hopenr1 : channel_open cr wr1 = true)
    by (unfold wr1; by rewrite channel_open_received).
  rewrite (data_frame_received JSON_parse t2 cr frame _ wr1 Hdata Hopenr1).
  cbn [fst].
  rewrite (awaited_ack_accepted JSON_parse t3 cs ack seq _ Hisack)
    by reflexivity.
  cbn [fst].
  rewrite (ack_while_idle_ignored t4 cs ack seq _ Hisack) by reflexivity.
  cbn [fst].
  assert (Hopen1 : channel_open cs ws1 = true)
    by (unfold ws1; by rewrite channel_open_sent_world).
  split.
  { rewrite (frames_of_channels cs ws2 (push_frame cs frame ws1))
      by reflexivity.
    rewrite frames_of_push by done. rewrite decide_True by done.
    unfold ws1. rewrite frames_of_sent_world by done.
    by rewrite <- app_assoc. }
  split. { cbn. by rewrite <- app_assoc. }
  split.
  { rewrite frames_of_received by done. unfold wr1.
    rewrite frames_of_received by done. by rewrite <- app_assoc. }
  split. { cbn. lia. }
  split; [reflexivity|]. split; [reflexivity|]. split; [reflexivity|].
  split; cbn; lia.
Qed.

Lemma replay_app (l1 l2 : list (option json)) (r : Receiver) :
  replay (l1 ++ l2) r = replay l2 (replay l1 r).
Proof. apply fold_left_app. Qed.

Lemma replay_payloads (payloads : list json) (r : Receiver) :
  replay (map Some payloads) r = deliver_all payloads r.
Proof.
  revert r. induction payloads as [|p ps IH]; intros r; [done|].
  cbn [map replay fold_left]. apply IH.
Qed.

(** X26.  A channel that loses nothing delivers each payload once, in
    order.  When payloads are sent one after the other from an idle sender,
    each acknowledged before the next is sent, on a channel that carries
    every frame to the other side and back, the receiving session hands
    exactly these payloads to the application, in the order they were
    sent, after what it had delivered before; the frames carry consecutive
    numbers from the sender's [nextSeq], the acknowledgements the same
    numbers; nothing is retransmitted and the sender is idle at the end.
    The callback has then seen the payloads in order. *)
Theorem lossless_channel_delivers_in_order (cs cr : nat) (hops : list Hop)
    (k : nat) (ws wr : World) (r : Receiver) :
  channel_open cs ws = true →
  awaitingAckSeq (state ws) = None →
  nextSeq (state ws) = to_uint32 (Z.of_nat k) →
  channel_open cr wr = true →
  reads_back JSON_parse k hops →
  let ww := carry_all JSON_parse cs cr hops (ws, wr) in
  delivered (snd ww) = delivered wr ++ map (fun h => Some (hop_payload h)) hops
  ∧ replay (delivered (snd ww)) r
    = deliver_all (map hop_payload hops) (replay (delivered wr) r)
  ∧ frames_of cs (fst ww)
    = frames_of cs ws
        ++ imap (fun i h =>
                   JSON_stringify
                     (data_frame (to_uint32 (Z.of_nat (k + i)))
                                 (hop_payload h))) hops
  ∧ frames_of cr (snd ww)
    = frames_of cr wr
        ++ imap (fun i _ =>
                   JSON_stringify
                     (ack_frame (Some (JNum (to_uint32 (Z.of_nat (k + i)))))))
                hops
  ∧ awaitingAckSeq (state (fst ww)) = None
  ∧ nextSeq (state (fst ww)) = to_uint32 (Z.of_nat (k + length hops))
  ∧ retransmits (stats (state (fst ww))) = retransmits (stats (state ws))
  ∧ acks (stats (state (fst ww)))
    = (acks (stats (state ws)) + Z.of_nat (length hops))%Z
  ∧ received (stats (state (snd ww)))
    = (received (stats (state wr)) + Z.of_nat (length hops))%Z.
Proof.
  intros Hopen Hidle Hseq Hopenr Hrb ww.
  destruct (carry_all_spec JSON_parse cs cr hops k ws wr Hopen Hidle Hseq
              Hopenr Hrb)
    as (Hdel & Hidle' & Hnext & Hframes & Hacks & _ & Hret & Hack & Hrecv).
  fold ww in Hdel, Hidle', Hnext, Hframes, Hacks, Hret, Hack, Hrecv.
  split; [exact Hdel|]. split.
  { rewrite Hdel, replay_app, <- (map_map hop_payload Some).
    by rewrite replay_payloads. }
  by repeat split.
Qed.

(** X18.  A file over a channel that loses nothing.  When [sendFile]'s
    payloads are sent one after the other, each acknowledged before the
    next is sent, on a channel that carries every frame to the other side
    and back, the receiving session hands the payloads to the callback
    in the order they were sent and the callback offers a blob with exactly
    the bytes of the file.  The sender has accepted [total + 2] sends,
    retransmitted nothing and is idle again. *)
Theorem file_over_lossless_channel (cs cr chunk : nat) (f : File)
    (hops : list Hop) (k : nat) (ws wr : World) (r : Receiver) :
  let total := Math_ceil_div (file_size f) chunk in
  (0 < chunk)%nat → (0 < file_size f)%nat →
  (Z.of_nat total < 2 ^ 32)%Z →
  map hop_payload hops = sendFile_with chunk f →
  channel_open cs ws = true →
  awaitingAckSeq (state ws) = None →
  nextSeq (state ws) = to_uint32 (Z.of_nat k) →
  channel_open cr wr = true →
  reads_back JSON_parse k hops →
  let ww := carry_all JSON_parse cs cr hops (ws, wr) in
  let r' := replay (delivered (snd ww)) r in
  download r' = Some (mkBlob (file_bytes f) "application/octet-stream")
  ∧ recvProgress r' = mkProgress total (Some (JNum (Z.of_nat total)))
  ∧ recvFileInfo r' = Some (info_of f)
  ∧ receivedText r' = receivedText (replay (delivered wr) r)
  ∧ awaitingAckSeq (state (fst ww)) = None
  ∧ accepted (fst ww) = (accepted ws + Z.of_nat total + 2)%Z
  ∧ retransmits (stats (state (fst ww))) = retransmits (stats (state ws))
  ∧ length (frames_of cs (fst ww))
    = (length (frames_of cs ws) + total + 2)%nat.
Proof.
  intros total Hchunk Hsize Hbound Hpayloads Hopen Hidle Hseq Hopenr Hrb
         ww r'.
  destruct (carry_all_spec JSON_parse cs cr hops k ws wr Hopen Hidle Hseq
              Hopenr Hrb)
    as (Hdel & Hidle' & _ & Hframes & _ & Hacc & Hret & _ & _).
  fold ww in Hdel, Hidle', Hframes, Hacc, Hret.
  assert (Hlen : length hops = (total + 2)%nat).
  { rewrite <- (length_map hop_payload), Hpayloads. unfold sendFile_with.
    fold total. cbn [length]. rewrite length_app, length_map, length_seq.
    cbn [length]. lia. }
  assert (Hr' : r' = deliver_all (transfer_in chunk f (seq 0 total))
                       (replay (delivered wr) r)).
  { subst r'. rewrite Hdel, replay_app.
    rewrite <- (map_map hop_payload Some), Hpayloads.
    by rewrite replay_payloads. }
  rewrite Hr', (transfer_complete chunk f (seq 0 total)); try done.
  - fold total.
    cbn [download recvProgress recvFileInfo receivedText].
    split; [done|]. split; [done|]. split; [done|]. split; [done|].
    split; [exact Hidle'|]. split; [rewrite Hacc; lia|].
    split; [exact Hret|].
    rewrite Hframes, length_app, length_imap. lia.
  - apply Forall_forall. intros i Hi. apply list_elem_of_In, in_seq in Hi.
    fold total. lia.
  - intros i Hi. apply list_elem_of_In, in_seq. fold total in Hi. lia.
Qed.

End EndToEnd.

(** ** The relay in every reachable state *)

Lemma left_room_Some ws room room' :
  left_room ws room = Some room' → room' = room ∖ {[ws]} ∧ room' ≠ ∅.
Proof.
  unfold left_room. destruct (decide _) as [|Hne]; [discriminate|].
  intros [= <-]. split; [done|]. intros Hempty. apply Hne.
  rewrite Hempty. apply size_empty.
Qed.

Lemma left_room_None ws room :
  left_room ws room = None → room ⊆ {[ws]}.
Proof.
  unfold left_room. destruct (decide _) as [Hz|]; [|discriminate].
  intros _. apply size_empty_inv in Hz. intros x Hx.
  destruct (decide (x = ws)) as [->|Hne]; [by apply elem_of_singleton|].
  exfalso. apply (not_elem_of_empty (C:=gset nat) x). rewrite <- Hz.
  apply elem_of_difference. split; [done|]. by rewrite elem_of_singleton.
Qed.

Lemma joined_room_nonempty (room : gset nat) (ws : nat) : room ∪ {[ws]} ≠ ∅.
Proof.
  intros H. apply (not_elem_of_empty (C:=gset nat) ws). rewrite <- H.
  apply elem_of_union_r. by apply elem_of_singleton.
Qed.

Lemma other_member_stays (room : gset nat) (ws c : nat) :
  c ∈ room → c ≠ ws → c ∈ room ∖ {[ws]}.
Proof.
  intros Hin Hne. apply elem_of_difference. split; [done|].
  by rewrite elem_of_singleton.
Qed.

Lemma sole_member (room : gset nat) (ws c : nat) :
  room ⊆ {[ws]} → c ∈ room → c = ws.
Proof. intros Hsub Hin. apply Hsub in Hin. by apply elem_of_singleton in Hin. Qed.

Section RelayMore.
Context (JSON_parse : string → option json).

Lemma not_join_of_relayed (type : option json) :
  is_relayed type = true → is_str "join" type = false.
Proof.
  unfold is_relayed. intros H.
  destruct (is_str "offer" type) eqn:H1;
    [by apply (is_str_exclusive "offer")|].
  destruct (is_str "answer" type) eqn:H2;
    [by apply (is_str_exclusive "answer")|].
  by apply (is_str_exclusive "candidate").
Qed.

(** What a [join] does, by lookups. *)
Lemma join_spec ws raw msg roomId sv :
  JSON_parse raw = Some msg →
  is_str "join" (get "type" msg) = true →
  get "roomId" msg = Some roomId →
  truthy (Some roomId) = true →
  let key := room_key sv roomId in
  let sv' := on_message JSON_parse ws raw sv in
  nextRef sv' = S (nextRef sv)
  ∧ (∀ key', rooms sv' !! key'
             = if decide (key' = key)
               then Some (default ∅ (rooms sv !! key) ∪ {[ws]})
               else rooms sv !! key')
  ∧ (∀ c, sockets sv' !! c
          = if decide (c = ws)
            then joined_socket key (joined_reply roomId) <$> sockets sv !! c
            else sockets sv !! c).
Proof.
  intros Hparse Hjoin Hroom Htruthy key sv'. subst sv'.
  unfold on_message. rewrite Hparse, Hjoin, Hroom, Htruthy. cbn [negb].
  fold key. fold (joined_reply roomId).
  assert (Hcreated : rooms (getOrCreateRoom key sv) !! key
                     = Some (default ∅ (rooms sv !! key))
                     ∧ (∀ key', key' ≠ key →
                          rooms (getOrCreateRoom key sv) !! key'
                          = rooms sv !! key')
                     ∧ sockets (getOrCreateRoom key sv) = sockets sv
                     ∧ nextRef (getOrCreateRoom key sv) = nextRef sv).
  { unfold getOrCreateRoom. destruct (rooms sv !! key) as [room|] eqn:Hk.
    - by rewrite Hk.
    - cbn. rewrite lookup_insert_eq. split; [done|]. split; [|done].
      intros key' Hne. by rewrite lookup_insert_ne. }
  destruct Hcreated as (Hkey & Hother & Hsock & Hnext).
  split; [cbn; by rewrite Hnext|]. split.
  - intros key'. cbn [ws_send rooms]. destruct (decide (key' = key)) as [->|Hne].
    + by rewrite lookup_alter_eq, Hkey.
    + rewrite lookup_alter_ne by done. by apply Hother.
  - intros c. rewrite ws_send_lookup. cbn [sockets]. rewrite Hsock.
    destruct (decide (ws = c)) as [->|Hne].
    + rewrite decide_True by done. rewrite lookup_alter_eq.
      destruct (sockets sv !! c) as [k|]; [|done]. cbn.
      unfold joined_socket, forwarded. cbn.
      by destruct (ws_readyState k =? 1)%Z.
    + rewrite decide_False by done. by rewrite lookup_alter_ne.
Qed.

(** What a [close] does, by lookups. *)
Lemma close_spec ws sv :
  sockets (on_close ws sv) = sockets sv
  ∧ nextRef (on_close ws sv) = nextRef sv
  ∧ ∀ key, rooms (on_close ws sv) !! key
           = if decide (room_of ws sv = Some key)
             then rooms sv !! key ≫= left_room ws
             else rooms sv !! key.
Proof.
  unfold on_close, room_of.
  destruct (sockets sv !! ws) as [k|]; cbn [mbind option_bind];
    [|by repeat split].
  destruct (ws_roomId k) as [key0|]; [|by repeat split].
  destruct (rooms sv !! key0) as [room|] eqn:Hroom.
  - split; [done|]. split; [done|]. intros key. cbn [rooms].
    destruct (decide (Some key0 = Some key)) as [[= <-]|Hne].
    + rewrite Hroom. cbn. unfold left_room.
      destruct (decide (size (room ∖ {[ws]}) = 0%nat)).
      * apply lookup_delete_eq.
      * apply lookup_insert_eq.
    + assert (key0 ≠ key) by congruence.
      destruct (decide (size (room ∖ {[ws]}) = 0%nat)).
      * by rewrite lookup_delete_ne.
      * by rewrite lookup_insert_ne.
  - split; [done|]. split; [done|]. intros key.
    destruct (decide (Some key0 = Some key)) as [[= <-]|Hne]; [|done].
    by rewrite Hroom.
Qed.

(** The three ways a message is handled. *)
Lemma on_message_cases ws raw sv :
  on_message JSON_parse ws raw sv = sv
  ∨ (∃ msg roomId,
       JSON_parse raw = Some msg
       ∧ is_str "join" (get "type" msg) = true
       ∧ get "roomId" msg = Some roomId
       ∧ truthy (Some roomId) = true)
  ∨ (∃ msg roomId room,
       JSON_parse raw = Some msg
       ∧ is_relayed (get "type" msg) = true
       ∧ get "roomId" msg = Some roomId
       ∧ truthy (Some roomId) = true
       ∧ rooms sv !! room_key sv roomId = Some room
       ∧ on_message JSON_parse ws raw sv
         = relay_to ws (JSON_stringify msg) (elements room) sv).
Proof.
  unfold on_message. destruct (JSON_parse raw) as [msg|] eqn:Hparse;
    [|by left].
  destruct (is_str "join" (get "type" msg)) eqn:Hjoin.
  - destruct (get "roomId" msg) as [roomId|] eqn:Hroom; [|by left].
    destruct (truthy (Some roomId)) eqn:Ht; [|by left].
    right; left. by exists msg, roomId.
  - destruct (is_relayed (get "type" msg)) eqn:Hrel; [|by left].
    destruct (get "roomId" msg) as [roomId|] eqn:Hroom; [|by left].
    destruct (truthy (Some roomId)) eqn:Ht; [|by left].
    cbn [negb]. destruct (rooms sv !! room_key sv roomId) as [room|] eqn:Hr;
      [|by left].
    right; right. by exists msg, roomId, room.
Qed.

Lemma inv_empty_server : server_inv empty_server.
Proof.
  constructor; cbn; intros *; rewrite ?lookup_empty; try discriminate.
Qed.

Lemma inv_on_connection ws sv :
  sockets sv !! ws = None → server_inv sv → server_inv (on_connection ws sv).
Proof.
  intros Hnew [Hn Hm Hr Hc Ht]. constructor; cbn.
  - exact Hn.
  - intros key room c Hroom Hin.
    destruct (decide (c = ws)) as [->|Hne].
    + rewrite lookup_insert_eq. by eexists.
    + rewrite lookup_insert_ne by done. by eapply Hm.
  - exact Hr.
  - intros c k key. destruct (decide (c = ws)) as [->|Hne].
    + rewrite lookup_insert_eq. by intros [= <-].
    + rewrite lookup_insert_ne by done. apply Hc.
  - intros c k text. destruct (decide (c = ws)) as [->|Hne].
    + rewrite lookup_insert_eq. intros [= <-]. cbn. by intros ?%elem_of_nil.
    + rewrite lookup_insert_ne by done. apply Ht.
Qed.

Lemma inv_join ws raw msg roomId sv :
  JSON_parse raw = Some msg →
  is_str "join" (get "type" msg) = true →
  get "roomId" msg = Some roomId →
  truthy (Some roomId) = true →
  is_Some (sockets sv !! ws) →
  server_inv sv → server_inv (on_message JSON_parse ws raw sv).
Proof.
  intros Hparse Hjoin Hroom Htruthy Hws [Hn Hm Hr Hc Ht].
  destruct (join_spec ws raw msg roomId sv Hparse Hjoin Hroom Htruthy)
    as (Hnext & Hrooms & Hsockets).
  set (key := room_key sv roomId) in *.
  set (sv' := on_message JSON_parse ws raw sv) in *.
  assert (Hsome : ∀ c, is_Some (sockets sv !! c) → is_Some (sockets sv' !! c)).
  { intros c [k Hk]. rewrite Hsockets, Hk. destruct (decide (c = ws)); by eexists. }
  constructor.
  - intros key' room. rewrite Hrooms.
    destruct (decide (key' = key)) as [->|Hne]; [|apply Hn].
    intros [= <-]. apply joined_room_nonempty.
  - intros key' room c. rewrite Hrooms.
    destruct (decide (key' = key)) as [->|Hne].
    + intros [= <-] Hin. apply Hsome.
      apply elem_of_union in Hin as [Hin|Hin].
      * destruct (rooms sv !! key) as [room|] eqn:Hk; cbn in Hin;
          [by eapply Hm|by apply not_elem_of_empty in Hin].
      * apply elem_of_singleton in Hin as ->. exact Hws.
    + intros Hk Hin. apply Hsome. by eapply Hm.
  - intros r room. rewrite Hrooms, Hnext.
    destruct (decide (KeyRef r = key)) as [Heq|Hne].
    + intros _. destruct (rooms sv !! KeyRef r) as [room0|] eqn:Hk.
      * specialize (Hr r room0 Hk). lia.
      * unfold key, room_key in Heq. destruct roomId; try discriminate;
          injection Heq as ->; lia.
    + intros Hk. specialize (Hr r room Hk). lia.
  - intros c k key'. rewrite Hsockets.
    destruct (decide (c = ws)) as [->|Hne].
    + destruct (sockets sv !! ws) as [k0|]; [|discriminate].
      cbn. intros [= <-]. cbn. intros [= <-] _.
      eexists. rewrite Hrooms, decide_True by done. split; [done|].
      apply elem_of_union_r. by apply elem_of_singleton.
    + intros Hk Hkey Hopen. destruct (Hc c k key' Hk Hkey Hopen)
        as (room & Hroom' & Hin).
      rewrite Hrooms. destruct (decide (key' = key)) as [->|Hne'].
      * eexists. split; [done|]. rewrite Hroom'. cbn.
        by apply elem_of_union_l.
      * by exists room.
  - intros c k text. rewrite Hsockets.
    destruct (decide (c = ws)) as [->|Hne]; [|apply Ht].
    destruct (sockets sv !! ws) as [k0|] eqn:Hk0; [|discriminate].
    cbn. intros [= <-]. cbn.
    destruct (ws_readyState k0 =? 1)%Z; [|by apply (Ht ws)].
    intros [Hin|Hin]%elem_of_app; [by apply (Ht ws k0)|].
    apply list_elem_of_singleton in Hin as ->. left. by exists roomId.
Qed.

Lemma inv_relay ws text (room : gset nat) sv :
  server_text text →
  server_inv sv → server_inv (relay_to ws text (elements room) sv).
Proof.
  intros Htext [Hn Hm Hr Hc Ht].
  destruct (relay_to_spec JSON_parse ws text (elements room)
              (NoDup_elements room) sv)
    as (Hrooms & Hnext & Hsockets).
  constructor.
  - rewrite Hrooms. exact Hn.
  - rewrite Hrooms. intros key room' c Hk Hin. rewrite Hsockets.
    destruct (Hm key room' c Hk Hin) as [k ->]. by eexists.
  - rewrite Hrooms, Hnext. exact Hr.
  - rewrite Hrooms. intros c k key. rewrite Hsockets.
    destruct (sockets sv !! c) as [k0|] eqn:Hk0; [|discriminate].
    cbn. intros [= <-].
    destruct (decide _); cbn; by apply Hc.
  - intros c k t'. rewrite Hsockets.
    destruct (sockets sv !! c) as [k0|] eqn:Hk0; [|discriminate].
    cbn. intros [= <-].
    destruct (decide _); cbn; [|by apply (Ht c)].
    intros [Hin|Hin]%elem_of_app; [by apply (Ht c k0)|].
    by apply list_elem_of_singleton in Hin as ->.
Qed.

Lemma inv_on_message ws raw sv :
  is_Some (sockets sv !! ws) →
  server_inv sv → server_inv (on_message JSON_parse ws raw sv).
Proof.
  intros Hws Hinv.
  destruct (on_message_cases ws raw sv)
    as [->|[(msg & roomId & Hp & Hj & Hr & Ht)
           |(msg & roomId & room & Hp & Hrel & Hr & Ht & Hroom & ->)]].
  - exact Hinv.
  - by eapply inv_join.
  - apply inv_relay; [|exact Hinv]. right. by exists msg.
Qed.

Lemma inv_closing ws sv :
  server_inv sv → server_inv (apply_server_event JSON_parse (SvClosing ws) sv).
Proof.
  intros [Hn Hm Hr Hc Ht]. constructor; cbn.
  - exact Hn.
  - intros key room c Hk Hin. destruct (Hm key room c Hk Hin) as [k Hk'].
    destruct (decide (c = ws)) as [->|Hne].
    + rewrite lookup_alter_eq, Hk'. by eexists.
    + rewrite lookup_alter_ne by done. by eexists.
  - exact Hr.
  - intros c k key. destruct (decide (c = ws)) as [->|Hne].
    + rewrite lookup_alter_eq.
      destruct (sockets sv !! ws) as [k0|] eqn:Hk0; [|discriminate].
      cbn. intros [= <-] Hkey Hopen. apply (Hc ws k0); [done| |].
      * by destruct (ws_readyState k0 =? 1)%Z.
      * destruct (Z.eqb_spec (ws_readyState k0) 1); [lia|done].
    + rewrite lookup_alter_ne by done. apply Hc.
  - intros c k text. destruct (decide (c = ws)) as [->|Hne].
    + rewrite lookup_alter_eq.
      destruct (sockets sv !! ws) as [k0|] eqn:Hk0; [|discriminate].
      cbn. intros [= <-] Hin. apply (Ht ws k0); [done|].
      by destruct (ws_readyState k0 =? 1)%Z.
    + rewrite lookup_alter_ne by done. apply Ht.
Qed.

Lemma inv_close ws k sv :
  sockets sv !! ws = Some k →
  server_inv sv →
  server_inv (on_close ws (mkServer (rooms sv)
                             (<[ws := set_readyState 3 k]> (sockets sv))
                             (nextRef sv))).
Proof.
  intros Hk [Hn Hm Hr Hc Ht].
  set (sv0 := mkServer _ _ _).
  destruct (close_spec ws sv0) as (Hsockets & Hnext & Hrooms).
  assert (Hroom_of : room_of ws sv0 = ws_roomId k).
  { unfold room_of, sv0. cbn. by rewrite lookup_insert_eq. }
  assert (Hsub : ∀ key room, rooms (on_close ws sv0) !! key = Some room →
                   room ≠ ∅
                   ∧ ∃ room0, rooms sv !! key = Some room0 ∧ room ⊆ room0).
  { intros key room. rewrite Hrooms.
    destruct (decide (room_of ws sv0 = Some key)) as [_|_].
    - cbn [rooms sv0]. destruct (rooms sv !! key) as [room0|] eqn:Hk0;
        [|discriminate].
      cbn. intros [-> Hne]%left_room_Some. split; [done|].
      exists room0. split; [done|]. apply subseteq_difference_l. done.
    - cbn [rooms sv0]. intros Hk0. split; [by eapply Hn|].
      exists room. by split. }
  constructor.
  - intros key room Hroom. by apply (Hsub key room).
  - intros key room c Hroom Hin.
    destruct (Hsub key room Hroom) as (_ & room0 & Hroom0 & Hincl).
    rewrite Hsockets. cbn [sockets sv0].
    destruct (decide (c = ws)) as [->|Hne].
    + rewrite lookup_insert_eq. by eexists.
    + rewrite lookup_insert_ne by done. eapply Hm; [done|]. by apply Hincl.
  - intros r room Hroom. rewrite Hnext.
    destruct (Hsub _ room Hroom) as (_ & room0 & Hroom0 & _).
    by eapply Hr.
  - intros c k' key. rewrite Hsockets. cbn [sockets sv0].
    destruct (decide (c = ws)) as [->|Hne].
    + rewrite lookup_insert_eq. intros [= <-]. cbn. done.
    + rewrite lookup_insert_ne by done. intros Hk' Hkey Hopen.
      destruct (Hc c k' key Hk' Hkey Hopen) as (room & Hroom & Hin).
      rewrite Hrooms. cbn [rooms sv0]. rewrite Hroom.
      destruct (decide (room_of ws sv0 = Some key)) as [_|_];
        [|by exists room].
      cbn. destruct (left_room ws room) as [room'|] eqn:Hleft.
      * apply left_room_Some in Hleft as [-> _]. eexists. split; [done|].
        by apply other_member_stays.
      * apply left_room_None in Hleft. by destruct (sole_member room ws c).
  - intros c k' text. rewrite Hsockets. cbn [sockets sv0].
    destruct (decide (c = ws)) as [->|Hne].
    + rewrite lookup_insert_eq. intros [= <-]. cbn. by apply (Ht ws).
    + rewrite lookup_insert_ne by done. apply Ht.
Qed.

Lemma inv_server_step e sv :
  server_inv sv → server_inv (apply_server_event JSON_parse e sv).
Proof.
  intros Hinv. destruct e as [ws|ws raw|ws|ws].
  - cbn. destruct (sockets sv !! ws) eqn:Hk; [done|].
    by apply inv_on_connection.
  - cbn. destruct (sockets sv !! ws) as [k|] eqn:Hk; [|done].
    destruct (ws_readyState k =? 3)%Z; [done|].
    apply inv_on_message; [by eexists|done].
  - by apply inv_closing.
  - cbn. destruct (sockets sv !! ws) as [k|] eqn:Hk; [|done].
    destruct (ws_readyState k =? 3)%Z; [done|].
    by apply inv_close.
Qed.

Lemma inv_server_run es :
  server_inv (server_run JSON_parse es empty_server).
Proof.
  induction es as [|e es IH] using rev_ind; [apply inv_empty_server|].
  unfold server_run. rewrite fold_left_app. cbn [fold_left].
  by apply inv_server_step.
Qed.


(** X19.  No room is empty, and every open socket is where it says.  In
    every state the server reaches from its start, each room of the map
    has at least one member and its members are sockets that connected;
    and a socket that is not closed and whose [_roomId] is set is a member
    of the room of that name. *)
Theorem rooms_are_never_empty (es : list ServerEvent) :
  let sv := server_run JSON_parse es empty_server in
  (∀ key room, rooms sv !! key = Some room →
     room ≠ ∅ ∧ ∀ ws, ws ∈ room → is_Some (sockets sv !! ws))
  ∧ (∀ ws k key, sockets sv !! ws = Some k → ws_roomId k = Some key →
       ws_readyState k ≠ 3%Z →
       ∃ room, rooms sv !! key = Some room ∧ ws ∈ room).
Proof.
  intros sv. destruct (inv_server_run es) as [Hn Hm _ Hc _].
  split; [|exact Hc]. intros key room Hroom.
  split; [by eapply Hn|]. intros ws Hin. by eapply Hm.
Qed.

(** X20.  The server writes nothing of its own.  In every state the server
    reaches from its start, each text it has written to a socket is the
    reply to a [join] with a truthy [roomId], or the serialization of a
    message whose type is [offer], [answer] or [candidate]. *)
Theorem server_writes_only (es : list ServerEvent) (ws : nat) (k : Socket)
    (text : string) :
  let sv := server_run JSON_parse es empty_server in
  sockets sv !! ws = Some k → text ∈ ws_sent k → server_text text.
Proof. intros sv. destruct (inv_server_run es) as [_ _ _ _ Ht]. apply Ht. Qed.

(** X21.  A room named by an array or an object is private.  [Map] looks
    keys up by identity, and [JSON.parse] builds a new array or object for
    every message.  So in every state the server reaches, a message to be
    relayed whose [roomId] is an array or an object finds no room and
    changes nothing, and a [join] with such a [roomId] makes a new room
    whose only member is the sender, the other rooms untouched. *)
Theorem object_room_is_private (es : list ServerEvent) (ws : nat)
    (raw : string) (msg roomId : json) :
  let sv := server_run JSON_parse es empty_server in
  let sv' := on_message JSON_parse ws raw sv in
  JSON_parse raw = Some msg →
  get "roomId" msg = Some roomId →
  is_reference roomId = true →
  (is_relayed (get "type" msg) = true → sv' = sv)
  ∧ (is_str "join" (get "type" msg) = true →
     rooms sv' !! KeyRef (nextRef sv) = Some {[ws]}
     ∧ ∀ key, key ≠ KeyRef (nextRef sv) → rooms sv' !! key = rooms sv !! key).
Proof.
  intros sv sv' Hparse Hroom Href.
  destruct (inv_server_run es) as [_ _ Hr _ _]. fold sv in Hr.
  assert (Hkey : room_key sv roomId = KeyRef (nextRef sv))
    by (by destruct roomId).
  assert (Htruthy : truthy (Some roomId) = true) by (by destruct roomId).
  assert (Hnone : rooms sv !! KeyRef (nextRef sv) = None).
  { destruct (rooms sv !! KeyRef (nextRef sv)) as [room|] eqn:Hk; [|done].
    specialize (Hr _ _ Hk). lia. }
  split.
  - intros Hrel. subst sv'. unfold on_message.
    rewrite Hparse, (not_join_of_relayed _ Hrel), Hrel, Hroom, Htruthy.
    cbn [negb]. by rewrite Hkey, Hnone.
  - intros Hjoin.
    destruct (join_spec ws raw msg roomId sv Hparse Hjoin Hroom Htruthy)
      as (_ & Hrooms & _).
    fold sv' in Hrooms. rewrite Hkey in Hrooms. split.
    + rewrite Hrooms, decide_True by done. rewrite Hnone. cbn.
      by rewrite union_empty_l_L.
    + intros key Hne. by rewrite Hrooms, decide_False.
Qed.

(** X22.  What a [join] does.  A [join] with a truthy [roomId] puts the
    sender into the room of that name, which is created when it is not
    there, sets the sender's [_roomId], and writes the reply to the sender
    when its socket is open; every other room, the sender's old room
    among them, and every other socket are as before.  The sender is not
    taken out of the room it was in. *)
Theorem join_enters_room (ws : nat) (raw : string) (msg roomId : json)
    (k : Socket) (sv : Server) :
  JSON_parse raw = Some msg →
  is_str "join" (get "type" msg) = true →
  get "roomId" msg = Some roomId →
  truthy (Some roomId) = true →
  sockets sv !! ws = Some k →
  let key := room_key sv roomId in
  let sv' := on_message JSON_parse ws raw sv in
  rooms sv' !! key = Some (default ∅ (rooms sv !! key) ∪ {[ws]})
  ∧ room_of ws sv' = Some key
  ∧ (ws_sent <$> sockets sv' !! ws)
    = Some (if (ws_readyState k =? 1)%Z
            then ws_sent k ++ [joined_reply roomId] else ws_sent k)
  ∧ (ws_readyState <$> sockets sv' !! ws) = Some (ws_readyState k)
  ∧ (∀ key', key' ≠ key → rooms sv' !! key' = rooms sv !! key')
  ∧ (∀ c, c ≠ ws → sockets sv' !! c = sockets sv !! c)
  ∧ (∀ old room, old ≠ key → rooms sv !! old = Some room → ws ∈ room →
       ∃ room', rooms sv' !! old = Some room' ∧ ws ∈ room').
Proof.
  intros Hparse Hjoin Hroom Htruthy Hk key sv'.
  destruct (join_spec ws raw msg roomId sv Hparse Hjoin Hroom Htruthy)
    as (_ & Hrooms & Hsockets).
  fold key in Hrooms, Hsockets. fold sv' in Hrooms, Hsockets.
  split; [by rewrite Hrooms, decide_True|].
  split; [unfold room_of; by rewrite Hsockets, decide_True, Hk|].
  split; [by rewrite Hsockets, decide_True, Hk|].
  split; [by rewrite Hsockets, decide_True, Hk|].
  split; [intros key' Hne; by rewrite Hrooms, decide_False|].
  split; [intros c Hne; by rewrite Hsockets, decide_False|].
  intros old room Hne Hold Hin. exists room.
  by rewrite Hrooms, decide_False.
Qed.

Lemma stale_member_step ws key e sv :
  stale_member ws key sv →
  stale_member ws key (apply_server_event JSON_parse e sv).
Proof.
  intros [(k & Hk & Hclosed & Hroom) (room & Hkey & Hin)].
  destruct e as [c|c raw|c|c]; cbn [apply_server_event].
  - destruct (sockets sv !! c) eqn:Hc; [by split; eauto|].
    assert (c ≠ ws) by congruence.
    split; [|by exists room]. exists k. cbn.
    by rewrite lookup_insert_ne.
  - destruct (sockets sv !! c) as [kc|] eqn:Hc; [|by split; eauto].
    destruct (Z.eqb_spec (ws_readyState kc) 3) as [|Hopen];
      [by split; eauto|].
    assert (Hne : ws ≠ c) by congruence.
    destruct (on_message_cases c raw sv)
      as [->|[(msg & roomId & Hp & Hj & Hr & Ht)
             |(msg & roomId & room' & Hp & Hrel & Hr & Ht & Hroom' & ->)]].
    + by split; eauto.
    + destruct (join_spec c raw msg roomId sv Hp Hj Hr Ht)
        as (_ & Hrooms & Hsockets).
      split.
      * exists k. by rewrite Hsockets, decide_False.
      * rewrite Hrooms. destruct (decide (key = room_key sv roomId)) as [<-|].
        -- eexists. split; [done|]. rewrite Hkey. cbn.
           by apply elem_of_union_l.
        -- by exists room.
    + destruct (relay_to_spec JSON_parse c (JSON_stringify msg)
                  (elements room') (NoDup_elements room') sv)
        as (Hrooms & _ & Hsockets).
      split; [|rewrite Hrooms; by exists room].
      exists k. rewrite Hsockets, Hk. cbn.
      rewrite decide_False; [done|]. intros (_ & _ & Hone). lia.
  - split; [|by exists room]. cbn.
    destruct (decide (c = ws)) as [->|Hne].
    + exists k. rewrite lookup_alter_eq, Hk. cbn.
      by destruct (Z.eqb_spec (ws_readyState k) 1); [lia|].
    + exists k. by rewrite lookup_alter_ne.
  - destruct (sockets sv !! c) as [kc|] eqn:Hc; [|by split; eauto].
    destruct (Z.eqb_spec (ws_readyState kc) 3) as [|Hopen];
      [by split; eauto|].
    assert (Hne : ws ≠ c) by congruence.
    set (sv0 := mkServer _ _ _).
    destruct (close_spec c sv0) as (Hsockets & _ & Hrooms).
    split.
    + exists k. rewrite Hsockets. cbn. by rewrite lookup_insert_ne.
    + rewrite Hrooms. cbn [rooms sv0]. rewrite Hkey.
      destruct (decide (room_of c sv0 = Some key)); [|by exists room].
      cbn. destruct (left_room c room) as [room'|] eqn:Hleft.
      * apply left_room_Some in Hleft as [-> _]. eexists. split; [done|].
        by apply other_member_stays.
      * apply left_room_None in Hleft. by destruct (sole_member room c ws).
Qed.

(** X23.  A socket that joined again is never taken out of its first room.
    [close] removes the socket from the room its [_roomId] names, which is
    the last one it joined.  When an open socket that is a member of a
    room joins a room of another name and then closes, it stays a member
    of the first room, closed, whatever happens at the server afterwards:
    that room is never empty again and so is never deleted. *)
Theorem rejoin_leaves_stale_member (ws : nat) (k : Socket)
    (old : RoomKey) (room : gset nat) (raw : string) (msg roomId : json)
    (es : list ServerEvent) (sv : Server) :
  sockets sv !! ws = Some k →
  ws_readyState k ≠ 3%Z →
  rooms sv !! old = Some room →
  ws ∈ room →
  JSON_parse raw = Some msg →
  is_str "join" (get "type" msg) = true →
  get "roomId" msg = Some roomId →
  truthy (Some roomId) = true →
  room_key sv roomId ≠ old →
  let sv' :=
    server_run JSON_parse (SvMessage ws raw :: SvClose ws :: es) sv in
  (∃ room', rooms sv' !! old = Some room' ∧ ws ∈ room')
  ∧ (ws_readyState <$> sockets sv' !! ws) = Some 3%Z.
Proof.
  intros Hk Hopen Hold Hin Hparse Hjoin Hroom Htruthy Hne sv'.
  assert (Hstale : stale_member ws old sv').
  { subst sv'. cbn [server_run fold_left].
    set (sv2 := apply_server_event JSON_parse (SvClose ws) _).
    assert (H2 : stale_member ws old sv2).
    { subst sv2. cbn [apply_server_event]. rewrite Hk.
      destruct (Z.eqb_spec (ws_readyState k) 3) as [|_]; [done|].
      destruct (join_spec ws raw msg roomId sv Hparse Hjoin Hroom Htruthy)
        as (_ & Hrooms & Hsockets).
      set (sv1 := on_message JSON_parse ws raw sv) in *.
      assert (Hk1 : sockets sv1 !! ws
                    = Some (joined_socket (room_key sv roomId)
                              (joined_reply roomId) k))
        by (by rewrite Hsockets, decide_True, Hk).
      rewrite Hk1. cbn [ws_readyState joined_socket].
      destruct (Z.eqb_spec (ws_readyState k) 3) as [|_]; [done|].
      set (sv0 := mkServer _ _ _).
      destruct (close_spec ws sv0) as (Hsockets' & _ & Hrooms').
      assert (Hof : room_of ws sv0 = Some (room_key sv roomId)).
      { unfold room_of, sv0. cbn. by rewrite lookup_insert_eq. }
      split.
      - eexists. rewrite Hsockets'. cbn [sockets sv0].
        rewrite lookup_insert_eq. split; [done|]. cbn.
        split; [done|congruence].
      - exists room. rewrite Hrooms', Hof. cbn [rooms sv0].
        rewrite decide_False by congruence.
        by rewrite Hrooms, decide_False. }
    clearbody sv2. revert sv2 H2.
    induction es as [|e es IH]; intros sv2 H2; [exact H2|].
    cbn [fold_left]. apply IH. by apply stale_member_step. }
  destruct Hstale as [(k' & Hk' & Hclosed & _) Hmember].
  split; [exact Hmember|]. by rewrite Hk', <- Hclosed.
Qed.

(** X24.  Messages without effect.  The server is left exactly as it was
    by a text that is no JSON, by a message whose type is none of [join],
    [offer], [answer] and [candidate], by a [join] or a message to be
    relayed whose [roomId] is missing or falsy, and by a message to be
    relayed that names a room that does not exist; no reply is written in
    any of these cases. *)
Theorem messages_without_effect (ws : nat) (raw : string) (sv : Server) :
  match JSON_parse raw with
  | None => on_message JSON_parse ws raw sv = sv
  | Some msg =>
      (is_str "join" (get "type" msg) = false →
       is_relayed (get "type" msg) = false →
       on_message JSON_parse ws raw sv = sv)
      ∧ (truthy (get "roomId" msg) = false →
         on_message JSON_parse ws raw sv = sv)
      ∧ (∀ roomId, is_relayed (get "type" msg) = true →
           get "roomId" msg = Some roomId →
           rooms sv !! room_key sv roomId = None →
           on_message JSON_parse ws raw sv = sv)
  end.
Proof.
  unfold on_message. destruct (JSON_parse raw) as [msg|]; [|done].
  split; [|split].
  - by intros -> ->.
  - intros Hfalsy.
    destruct (is_str "join" (get "type" msg)),
             (is_relayed (get "type" msg)),
             (get "roomId" msg) as [roomId|]; try done;
      by rewrite Hfalsy.
  - intros roomId Hrel Hroom Hnone.
    rewrite (not_join_of_relayed _ Hrel), Hrel, Hroom, Hnone.
    by destruct (truthy (Some roomId)).
Qed.

(** X25.  From one client's [send] to the other client's handler.  When a
    client whose socket is open sends an [offer], [answer] or [candidate]
    for the room named by the string [room], the relay writes the text to
    every other open member of that room, and the listener of a client
    whose room name is [room] hands the decoded message to its handler;
    the listener of a client with another room name drops it.  The reply
    to a [join] of the room passes the listener as well. *)
Theorem relayed_message_reaches_handler (a b : nat) (kb : Socket)
    (members : gset nat) (room : string) (msg : json) (sv : Server) :
  let raw := JSON_stringify msg in
  let reply := JObj [("type", JStr "joined"); ("roomId", JStr room)] in
  JSON_parse raw = Some msg →
  is_relayed (get "type" msg) = true →
  get "roomId" msg = Some (JStr room) →
  room ≠ EmptyString →
  rooms sv !! KeyStr room = Some members →
  b ∈ members → b ≠ a →
  sockets sv !! b = Some kb →
  ws_readyState kb = 1%Z →
  signaling_send (Some 1%Z) msg = Some raw
  ∧ (ws_sent <$> sockets (on_message JSON_parse a raw sv) !! b)
    = Some (ws_sent kb ++ [raw])
  ∧ signaling_listener JSON_parse room raw = Some msg
  ∧ (∀ other, other ≠ room →
       signaling_listener JSON_parse other raw = None)
  ∧ (JSON_parse (JSON_stringify reply) = Some reply →
     signaling_listener JSON_parse room (joined_reply (JStr room))
     = Some reply).
Proof.
  intros raw reply Hparse Hrel Hroom Hname Hmembers Hin Hne Hkb Hopen.
  assert (Hobj : ∃ fs, msg = JObj fs).
  { destruct msg; try discriminate Hroom. by eexists. }
  destruct Hobj as [fs ->].
  split; [reflexivity|]. split.
  - unfold on_message. rewrite Hparse, (not_join_of_relayed _ Hrel), Hrel, Hroom.
    assert (Htruthy : truthy (Some (JStr room)) = true).
    { cbn. apply negb_true_iff. by apply String.eqb_neq. }
    rewrite Htruthy. cbn [negb room_key]. rewrite Hmembers.
    destruct (relay_to_spec JSON_parse a raw (elements members)
                (NoDup_elements members) sv) as (_ & _ & Hsockets).
    rewrite Hsockets, Hkb. cbn.
    rewrite decide_True; [done|]. by rewrite elem_of_elements.
  - split; [|split].
    + unfold signaling_listener. rewrite Hparse, Hroom. cbn.
      by rewrite String.eqb_refl.
    + intros other Hother. unfold signaling_listener.
      rewrite Hparse, Hroom. cbn.
      destruct (String.eqb_spec room other); [congruence|done].
    + intros Hreply. unfold signaling_listener, joined_reply.
      fold reply. rewrite Hreply. cbn. by rewrite String.eqb_refl.
Qed.

End RelayMore.

(** ** The further theorems at concrete inputs *)

(** The frame [Data{seq = 7, hello}] arrives at the busy session. *)
Lemma data_leaves_sender_alone_witness :
  let raw := JSON_stringify (data_frame 7 hello) in
  let w' := fst (handleIncoming demo_parse 5 0 raw busy_world) in
  is_data demo_parse raw (data_frame 7 hello)
  ∧ awaitingAckSeq (state w') = awaitingAckSeq (state busy_world)
  ∧ timers w' = timers busy_world
  ∧ sent (stats (state w')) = sent (stats (state busy_world)).
Proof.
  intros raw w'.
  assert (Hdata : is_data demo_parse raw (data_frame 7 hello))
    by (vm_compute; split; reflexivity).
  destruct (data_leaves_sender_alone demo_parse 5 0 raw (data_frame 7 hello)
              busy_world Hdata)
    as (_ & Ha & _ & _ & _ & Ht & _ & Hs & _).
  split; [exact Hdata|]. split; [exact Ha|]. split; [exact Ht|exact Hs].
Defined.

(** An acknowledgement without a number reaches a fresh session. *)
Lemma null_ack_while_idle_witness :
  let raw := JSON_stringify null_ack in
  let w' := fst (handleIncoming parse_null_ack 5 0 raw fresh_world) in
  parse_null_ack raw = Some null_ack
  ∧ acks (stats (state w')) = (acks (stats (state fresh_world)) + 1)%Z
  ∧ length (snapshots w') = S (length (snapshots fresh_world)).
Proof.
  intros raw w'.
  assert (Hparse : parse_null_ack raw = Some null_ack)
    by (vm_compute; reflexivity).
  destruct (null_ack_while_idle parse_null_ack 5 0 raw null_ack fresh_world
              Hparse eq_refl eq_refl eq_refl)
    as (Hacks & _ & _ & _ & Hsnap).
  split; [exact Hparse|]. split; [exact Hacks|exact Hsnap].
Defined.

(** [hello] sent at time 0 from a fresh session and acknowledged at 12. *)
Lemma acknowledged_send_is_finished_witness :
  let w1 := fst (send 0 (Some 0%nat) hello fresh_world) in
  let w2 := fst (handleIncoming demo_parse 12 0 (JSON_stringify ack0) w1) in
  is_ack_for demo_parse (JSON_stringify ack0) (nextSeq (state fresh_world))
  ∧ awaitingAckSeq (state w2) = None
  ∧ rttMs (stats (state w2)) = Math_round (12 - 0)
  ∧ snd (send 20 (Some 0%nat) file_complete w2) = true.
Proof.
  intros w1 w2.
  assert (Hack : is_ack_for demo_parse (JSON_stringify ack0)
                   (nextSeq (state fresh_world))).
  { exists ack0. vm_compute. repeat split; reflexivity. }
  destruct (acknowledged_send_is_finished demo_parse 0 12 20 0 0 hello
              file_complete (JSON_stringify ack0) fresh_world
              eq_refl eq_refl Hack)
    as (Hidle & _ & _ & Hrtt & _ & _ & _ & Hok & _).
  split; [exact Hack|]. split; [exact Hidle|]. split; [exact Hrtt|exact Hok].
Defined.

(** The two chunks of [abc_file] arrive as 1, 0, 1. *)
Lemma reassembly_in_any_order_witness :
  Math_ceil_div (file_size abc_file) 2 = 2%nat
  ∧ download (deliver_all (transfer_in 2 abc_file [1; 0; 1]%nat)
                          initial_receiver)
    = Some (mkBlob (file_bytes abc_file) "application/octet-stream").
Proof.
  split; [reflexivity|].
  apply (reassembly_in_any_order 2 abc_file [1; 0; 1]%nat initial_receiver).
  - lia.
  - vm_compute. lia.
  - vm_compute. reflexivity.
  - repeat constructor.
  - intros [|[|i]] Hi.
    + apply list_elem_of_further, list_elem_of_here.
    + apply list_elem_of_here.
    + vm_compute in Hi. lia.
Defined.

(** Only the second chunk of [abc_file] arrives. *)
Lemma completion_with_missing_chunks_witness :
  download (deliver_all (transfer_in 2 abc_file [1%nat]) initial_receiver)
  = Some (mkBlob (patched_bytes 2 abc_file
                    (Math_ceil_div (file_size abc_file) 2) [1%nat])
                 "application/octet-stream")
  ∧ patched_bytes 2 abc_file 2 [1%nat] = undefined_text ++ [Byte.x43].
Proof.
  split; [|reflexivity].
  apply (completion_with_missing_chunks 2 abc_file [1%nat] initial_receiver).
  - vm_compute. lia.
  - vm_compute. reflexivity.
  - repeat constructor.
Defined.

(** The chunk for index 0 arrives twice after [meta_of_two]. *)
Lemma chunk_redelivery_idempotent_witness :
  let r := fst (onDeliver (Some meta_of_two) initial_receiver) in
  onDeliver (Some (chunk_at 0)) (fst (onDeliver (Some (chunk_at 0)) r))
  = onDeliver (Some (chunk_at 0)) r.
Proof.
  intros r. apply (chunk_redelivery_idempotent (chunk_at 0) 0 r);
    reflexivity.
Defined.


(** [hello] is sent between two fresh sessions, the timer expires, and both
    copies arrive. *)
Lemma retransmission_is_delivered_twice_witness :
  let parse := parse_hops 0 hello_hops in
  let frame := JSON_stringify (data_frame 0 hello) in
  let wr1 := fst (handleIncoming parse 1 0 frame fresh_world) in
  let wr2 := fst (handleIncoming parse 2 0 frame wr1) in
  delivered wr2 = delivered fresh_world ++ [Some hello; Some hello].
Proof.
  intros parse frame wr1 wr2.
  assert (Hframe : parse frame = Some (data_frame 0 hello))
    by (vm_compute; reflexivity).
  assert (Hack : parse (JSON_stringify (ack_frame (Some (JNum 0))))
                 = Some (ack_frame (Some (JNum 0))))
    by (vm_compute; reflexivity).
  destruct (retransmission_is_delivered_twice parse 0 1 2 3 4 0 0 hello
              fresh_world fresh_world eq_refl eq_refl eq_refl Hframe Hack)
    as (_ & Hdel & _).
  exact Hdel.
Defined.

Lemma reads_back_hello : reads_back (parse_hops 0 hello_hops) 0 hello_hops.
Proof.
  intros [|[|i]] h Hi; [| |discriminate Hi]; injection Hi as <-;
    vm_compute; split; reflexivity.
Defined.

(** [hello] crosses a channel that loses nothing, twice. *)
Lemma lossless_channel_delivers_in_order_witness :
  let ww := carry_all (parse_hops 0 hello_hops) 0 0 hello_hops
                      (fresh_world, fresh_world) in
  delivered (snd ww)
  = delivered fresh_world ++ map (fun h => Some (hop_payload h)) hello_hops
  ∧ retransmits (stats (state (fst ww)))
    = retransmits (stats (state fresh_world)).
Proof.
  intros ww.
  destruct (lossless_channel_delivers_in_order (parse_hops 0 hello_hops) 0 0
              hello_hops 0 fresh_world fresh_world initial_receiver
              eq_refl eq_refl eq_refl eq_refl reads_back_hello)
    as (Hdel & _ & _ & _ & _ & _ & Hret & _).
  split; [exact Hdel|exact Hret].
Defined.

Lemma reads_back_abc : reads_back (parse_hops 0 abc_hops) 0 abc_hops.
Proof.
  intros [|[|[|[|i]]]] h Hi; [| | | |discriminate Hi]; injection Hi as <-;
    vm_compute; split; reflexivity.
Defined.

(** [abc_file] crosses a channel that loses nothing in chunks of two
    bytes. *)
Lemma file_over_lossless_channel_witness :
  let ww := carry_all (parse_hops 0 abc_hops) 0 0 abc_hops
                      (fresh_world, fresh_world) in
  map hop_payload abc_hops = sendFile_with 2 abc_file
  ∧ download (replay (delivered (snd ww)) initial_receiver)
    = Some (mkBlob (file_bytes abc_file) "application/octet-stream").
Proof.
  intros ww.
  assert (Hpayloads : map hop_payload abc_hops = sendFile_with 2 abc_file)
    by reflexivity.
  split; [exact Hpayloads|].
  assert (Hchunk : (0 < 2)%nat) by lia.
  assert (Hsize : (0 < file_size abc_file)%nat) by (vm_compute; lia).
  assert (Hbound : (Z.of_nat (Math_ceil_div (file_size abc_file) 2)
                    < 2 ^ 32)%Z) by (vm_compute; reflexivity).
  destruct (file_over_lossless_channel (parse_hops 0 abc_hops) 0 0 2 abc_file
              abc_hops 0 fresh_world fresh_world initial_receiver
              Hchunk Hsize Hbound Hpayloads eq_refl eq_refl eq_refl eq_refl
              reads_back_abc)
    as (Hblob & _).
  exact Hblob.
Defined.

(** A socket connects and joins [room-A]. *)
Lemma server_writes_only_witness :
  let sv := server_run demo_parse
              [SvConnection 1; SvMessage 1 (JSON_stringify join_room_A)]
              empty_server in
  sockets sv !! 1%nat
  = Some (mkSocket 1 (Some (KeyStr "room-A")) [joined_reply (JStr "room-A")])
  ∧ server_text (joined_reply (JStr "room-A")).
Proof.
  intros sv.
  assert (Hk : sockets sv !! 1%nat
               = Some (mkSocket 1 (Some (KeyStr "room-A"))
                                [joined_reply (JStr "room-A")]))
    by (vm_compute; reflexivity).
  split; [exact Hk|].
  apply (server_writes_only demo_parse _ 1%nat _ _ Hk).
  apply list_elem_of_here.
Defined.

(** A socket connects and joins a room named by an array. *)
Lemma object_room_is_private_witness :
  let sv := server_run parse_joins [SvConnection 1] empty_server in
  let sv' := on_message parse_joins 1 (JSON_stringify join_private) sv in
  parse_joins (JSON_stringify join_private) = Some join_private
  ∧ rooms sv' !! KeyRef (nextRef sv) = Some {[1%nat]}.
Proof.
  intros sv sv'.
  assert (Hparse : parse_joins (JSON_stringify join_private)
                   = Some join_private) by (vm_compute; reflexivity).
  split; [exact Hparse|].
  destruct (object_room_is_private parse_joins [SvConnection 1] 1
              (JSON_stringify join_private) join_private (JArr [JNum 1])
              Hparse eq_refl eq_refl) as [_ Hjoin].
  apply Hjoin. reflexivity.
Defined.

(** Socket 3 joins [room-A], where sockets 1 and 2 are. *)
Lemma join_enters_room_witness :
  let sv' := on_message demo_parse 3 (JSON_stringify join_room_A) room_A in
  demo_parse (JSON_stringify join_room_A) = Some join_room_A
  ∧ room_of 3 sv' = Some (KeyStr "room-A")
  ∧ (ws_sent <$> sockets sv' !! 3%nat)
    = Some [joined_reply (JStr "room-A")].
Proof.
  intros sv'.
  assert (Hparse : demo_parse (JSON_stringify join_room_A) = Some join_room_A)
    by (vm_compute; reflexivity).
  assert (Hk : sockets room_A !! 3%nat = Some (mkSocket 1 None []))
    by (vm_compute; reflexivity).
  destruct (join_enters_room demo_parse 3 (JSON_stringify join_room_A)
              join_room_A (JStr "room-A") (mkSocket 1 None []) room_A
              Hparse eq_refl eq_refl eq_refl Hk)
    as (_ & Hof & Hsent & _).
  split; [exact Hparse|]. split; [exact Hof|exact Hsent].
Defined.

(** Socket 1 of [room-A] joins [room-B] and closes; then socket 2 closes. *)
Lemma rejoin_leaves_stale_member_witness :
  let sv' := server_run parse_joins
               [SvMessage 1 (JSON_stringify join_room_B); SvClose 1;
                SvClose 2] room_A in
  parse_joins (JSON_stringify join_room_B) = Some join_room_B
  ∧ (∃ room', rooms sv' !! KeyStr "room-A" = Some room' ∧ 1%nat ∈ room')
  ∧ (ws_readyState <$> sockets sv' !! 1%nat) = Some 3%Z.
Proof.
  intros sv'.
  assert (Hparse : parse_joins (JSON_stringify join_room_B) = Some join_room_B)
    by (vm_compute; reflexivity).
  split; [exact Hparse|].
  apply (rejoin_leaves_stale_member parse_joins 1
           (mkSocket 1 (Some (KeyStr "room-A")) []) (KeyStr "room-A")
           {[1%nat; 2%nat]} (JSON_stringify join_room_B) join_room_B
           (JStr "room-B") [SvClose 2] room_A).
  - vm_compute. reflexivity.
  - cbn. lia.
  - vm_compute. reflexivity.
  - apply elem_of_union_l. by apply elem_of_singleton.
  - exact Hparse.
  - reflexivity.
  - reflexivity.
  - reflexivity.
  - discriminate.
Defined.

(** Socket 1 sends an offer to [room-A], where socket 2 listens. *)
Lemma relayed_message_reaches_handler_witness :
  let raw := JSON_stringify offer in
  demo_parse raw = Some offer
  ∧ (ws_sent <$> sockets (on_message demo_parse 1 raw room_A) !! 2%nat)
    = Some [raw]
  ∧ signaling_listener demo_parse "room-A" raw = Some offer
  ∧ signaling_listener demo_parse "room-B" raw = None.
Proof.
  intros raw.
  assert (Hparse : demo_parse raw = Some offer) by (vm_compute; reflexivity).
  assert (Hname : "room-A" ≠ EmptyString) by discriminate.
  assert (Hroom : rooms room_A !! KeyStr "room-A" = Some {[1%nat; 2%nat]})
    by (vm_compute; reflexivity).
  assert (Hin : 2%nat ∈ ({[1%nat; 2%nat]} : gset nat))
    by (apply elem_of_union_r; by apply elem_of_singleton).
  assert (Hne : 2%nat ≠ 1%nat) by lia.
  assert (Hkb : sockets room_A !! 2%nat
                = Some (mkSocket 1 (Some (KeyStr "room-A")) []))
    by (vm_compute; reflexivity).
  destruct (relayed_message_reaches_handler demo_parse 1 2
              (mkSocket 1 (Some (KeyStr "room-A")) []) {[1%nat; 2%nat]}
              "room-A" offer room_A Hparse eq_refl eq_refl Hname Hroom Hin
              Hne Hkb eq_refl)
    as (_ & Hsent & Hpass & Hdrop & _).
  split; [exact Hparse|]. split; [exact Hsent|]. split; [exact Hpass|].
  apply Hdrop. discriminate.
Defined.
